(** * Graph-of-Thought: segmentation, indexing and bounded path search

    A shallow embedding of the TypeScript sources
    [src/core/TreeGenerator.ts], [src/core/GraphIndexer.ts],
    [src/core/SimpleSearch.ts], [src/algorithms/BMSSP.ts] and
    [src/algorithms/OptimizedBMSSP.ts], with the content retrieval of
    [src/core/TreeSearch.ts], the cache of [src/utils/cache.ts] and the
    entry point [src/GraphOfThought.ts], and the properties of the
    specification checked against them.

    Modelling conventions.
    - JavaScript numbers that carry weights, scores and distances are exact
      rationals ([Q]); NaN, infinities and rounding are not modelled.
      Indices and heading levels are integers ([Z]); counts are [nat].
    - JavaScript strings are [string]s of 7-bit ASCII characters: [\s] is
      the six ASCII blanks, [\w] is [A-Za-z0-9_], case mapping touches
      [A-Z]/[a-z] only.
    - A [Set<string>] is a list queried by membership (JavaScript sets keep
      insertion order, and the code only tests [has] and [size]).
    - [Math.random] node ids come from a generator [genId]: the k-th call
      of [generateNodeId] in one run returns [genId k].
    - [Array.prototype.sort] is stable; it is modelled by a stable insertion
      sort taking the comparator as the test "comparator(a, b) <= 0".
    - A [Map] with string keys is the list of its entries in insertion
      order; [Date.now()] is an argument of the methods that read the
      clock, and a method that changes its object returns the object as it
      leaves it. *)

From Stdlib Require Import String Ascii ZArith QArith Qminmax Lia Lqa Bool Arith.
From Stdlib Require Import List Permutation Sorted.
From Stdlib Require DecimalString.
From Equations Require Import Equations.
Import ListNotations.

Set Implicit Arguments.
Set Warnings "-register-all".

(* ===================================================================== *)
(** * JavaScript strings, arrays and regular-expression fragments *)
(* ===================================================================== *)

Module Js.

Definition chars (s : string) : list ascii := list_ascii_of_string s.
Definition str (l : list ascii) : string := string_of_list_ascii l.

Definition code (c : ascii) : nat := nat_of_ascii c.

(** [\s] restricted to ASCII: TAB, LF, VT, FF, CR, SPACE. *)
Definition isSpace (c : ascii) : bool :=
  let n := code c in
  (n =? 9) || (n =? 10) || (n =? 11) || (n =? 12) || (n =? 13) || (n =? 32).

(** [\d]. *)
Definition isDigit (c : ascii) : bool :=
  let n := code c in (48 <=? n) && (n <=? 57).

Definition isUpper (c : ascii) : bool :=
  let n := code c in (65 <=? n) && (n <=? 90).

Definition isLower (c : ascii) : bool :=
  let n := code c in (97 <=? n) && (n <=? 122).

(** [\w]. *)
Definition isWord (c : ascii) : bool :=
  isDigit c || isUpper c || isLower c || (code c =? 95).

(** The characters [.] does not match: LF and CR. *)
Definition isLineTerminator (c : ascii) : bool :=
  (code c =? 10) || (code c =? 13).

Definition isChar (n : nat) (c : ascii) : bool := code c =? n.

Definition lowerChar (c : ascii) : ascii :=
  if isUpper c then ascii_of_nat (code c + 32) else c.

Definition upperChar (c : ascii) : ascii :=
  if isLower c then ascii_of_nat (code c - 32) else c.

Definition toLowerCase (s : string) : string := str (map lowerChar (chars s)).
Definition toUpperCase (s : string) : string := str (map upperChar (chars s)).

Fixpoint takeWhile {A} (p : A -> bool) (l : list A) : list A :=
  match l with
  | [] => []
  | x :: r => if p x then x :: takeWhile p r else []
  end.

Fixpoint dropWhile {A} (p : A -> bool) (l : list A) : list A :=
  match l with
  | [] => []
  | x :: r => if p x then dropWhile p r else l
  end.

(** [String.prototype.trim]. *)
Definition trimChars (l : list ascii) : list ascii :=
  rev (dropWhile isSpace (rev (dropWhile isSpace l))).

Definition trim (s : string) : string := str (trimChars (chars s)).

(** [hay.includes(needle)]. *)
Fixpoint includes (hay needle : string) : bool :=
  String.prefix needle hay ||
  match hay with
  | EmptyString => false
  | String _ h => includes h needle
  end.

(** [s.endsWith(':')] and friends, for a one-character suffix. *)
Definition endsWithChar (n : nat) (s : string) : bool :=
  match rev (chars s) with
  | c :: _ => isChar n c
  | [] => false
  end.

(** [array.includes(x)] on an array of strings. *)
Definition mem (x : string) (l : list string) : bool :=
  existsb (String.eqb x) l.

(** [array.join(sep)]. *)
Definition join (sep : string) (l : list string) : string := String.concat sep l.

(** [s.split(/\s+/)]: the pieces between maximal runs of blanks; a
    leading or trailing run leaves an empty piece at that end. *)
Fixpoint splitWsFrom (cur : list ascii) (inSep : bool) (l : list ascii)
  : list string :=
  match l with
  | [] => [str (rev cur)]
  | c :: r =>
      if isSpace c
      then if inSep then splitWsFrom cur true r
           else str (rev cur) :: splitWsFrom [] true r
      else splitWsFrom (c :: cur) false r
  end.

Definition splitWs (s : string) : list string := splitWsFrom [] false (chars s).

(** [s.split('.')]: the pieces between occurrences of one character. *)
Fixpoint splitCharFrom (n : nat) (cur : list ascii) (l : list ascii)
  : list string :=
  match l with
  | [] => [str (rev cur)]
  | c :: r =>
      if isChar n c then str (rev cur) :: splitCharFrom n [] r
      else splitCharFrom n (c :: cur) r
  end.

Definition splitChar (n : nat) (s : string) : list string :=
  splitCharFrom n [] (chars s).

(** [text.replace(/[^\w\s]/g, ' ')]. *)
Definition blankPunctuation (s : string) : string :=
  str (map (fun c => if isWord c || isSpace c then c else " "%char) (chars s)).

(** [s.replace(/[:]+$/, '')]: drop the trailing colons. *)
Definition stripTrailingColons (s : string) : string :=
  str (rev (dropWhile (isChar 58) (rev (chars s)))).

(** ** The separator [/\n\s*\n/] of [splitIntoParagraphs]

    A match starts at a line feed; [\s*] is greedy and then gives back
    until a line feed ends the match, so the match runs to the last line
    feed of the run of blanks that follows.  [afterLastLf] returns what
    is left of that run behind its last line feed, when it has one. *)
Fixpoint afterLastLf (run : list ascii) : option (list ascii) :=
  match run with
  | [] => None
  | c :: r =>
      match afterLastLf r with
      | Some t => Some t
      | None => if isChar 10 c then Some r else None
      end
  end.

(** What follows a separator match that starts right before [l] (the
    first line feed is already consumed). *)
Definition matchSeparator (l : list ascii) : option (list ascii) :=
  match afterLastLf (takeWhile isSpace l) with
  | Some t => Some (t ++ dropWhile isSpace l)
  | None => None
  end.

Lemma afterLastLf_length (run t : list ascii) :
  afterLastLf run = Some t -> (length t < length run)%nat.
Proof.
  revert t; induction run as [|c r IH]; intros t; simpl; [discriminate|].
  destruct (afterLastLf r) as [t'|].
  - intros [= <-]. specialize (IH _ eq_refl). lia.
  - destruct (isChar 10 c); [intros [= <-]; lia | discriminate].
Qed.

Lemma take_drop_length {A} (p : A -> bool) (l : list A) :
  (length (takeWhile p l) + length (dropWhile p l) = length l)%nat.
Proof.
  induction l as [|x r IH]; simpl; [reflexivity|].
  destruct (p x); simpl; lia.
Qed.

Lemma matchSeparator_length (l t : list ascii) :
  matchSeparator l = Some t -> (length t < length l)%nat.
Proof.
  unfold matchSeparator.
  destruct (afterLastLf (takeWhile isSpace l)) as [u|] eqn:E; [|discriminate].
  intros [= <-]. apply afterLastLf_length in E.
  rewrite length_app. pose proof (take_drop_length isSpace l). lia.
Qed.

(** The separator match together with the bound that makes the split
    terminate. *)
Definition separatorAt (l : list ascii)
  : option { t : list ascii | (length t < length l)%nat } :=
  match matchSeparator l as o return matchSeparator l = o -> _ with
  | Some t => fun E => Some (exist _ t (matchSeparator_length l E))
  | None => fun _ => None
  end eq_refl.

(** [content.split(/\n\s*\n/)] from a position, [cur] being the piece
    collected so far (reversed). *)
Equations splitParagraphsFrom (cur : list ascii) (l : list ascii)
  : list string by wf (length l) lt :=
splitParagraphsFrom cur [] := [str (rev cur)];
splitParagraphsFrom cur (c :: r) with isChar 10 c := {
  | true with separatorAt r := {
    | Some (exist _ t _) := str (rev cur) :: splitParagraphsFrom [] t;
    | None := splitParagraphsFrom (c :: cur) r };
  | false := splitParagraphsFrom (c :: cur) r }.

Definition splitBlankLines (s : string) : list string :=
  splitParagraphsFrom [] (chars s).

(** ** The Markdown heading pattern: one to six [#] at the start, then
    blanks, then the rest of the line; capture groups 1 (the [#] run) and
    2 (the rest of the line). *)
Definition matchMarkdown (p : string) : option (string * string) :=
  let cs := chars p in
  let hashes := takeWhile (isChar 35) cs in
  let rest := dropWhile (isChar 35) cs in
  if (1 <=? length hashes) && (length hashes <=? 6) then
    match rest with
    | c :: _ =>
        if isSpace c
        then Some (str hashes,
                   str (takeWhile (fun x => negb (isLineTerminator x))
                                  (dropWhile isSpace rest)))
        else None
    | [] => None
    end
  else None.

(** The longest prefix made of digit runs separated by single dots,
    scanned after its first digit has been seen: a dot is taken only with
    a digit behind it. *)
Fixpoint outlinePrefix (l : list ascii) : list ascii :=
  match l with
  | [] => []
  | c :: r =>
      if isDigit c then c :: outlinePrefix r
      else if isChar 46 c then
        match r with
        | d :: _ => if isDigit d then c :: outlinePrefix r else []
        | [] => []
        end
      else []
  end.

(** ** The numbered-outline pattern: a dotted number at the start, then
    blanks, then the rest of the line; capture groups 1 (the number) and 3
    (the rest of the line).  Only the longest numeric prefix can be
    followed by a blank, so giving back never helps. *)
Definition matchNumbered (p : string) : option (string * string) :=
  let cs := chars p in
  match cs with
  | c :: _ =>
      if isDigit c then
        let num := outlinePrefix cs in
        let rest := skipn (length num) cs in
        match rest with
        | b :: _ =>
            if isSpace b
            then Some (str num,
                       str (takeWhile (fun x => negb (isLineTerminator x))
                                      (dropWhile isSpace rest)))
            else None
        | [] => None
        end
      else None
  | [] => None
  end.

(** ** The common-section pattern: one of eight section names at the
    start, case-insensitively. *)
Definition commonSectionNames : list string :=
  ["introduction"; "abstract"; "conclusion"; "references"; "appendix";
   "summary"; "overview"; "background"]%string.

Definition testCommonSections (p : string) : bool :=
  existsb (fun w => String.prefix w (toLowerCase p)) commonSectionNames.

(** ** The label pattern: an upper-case letter, then no [.], [!] or [?]
    up to the end of the string. *)
Definition testCapitalisedLabel (p : string) : bool :=
  match chars p with
  | c :: r =>
      isUpper c &&
      forallb (fun x => negb (isChar 46 x || isChar 33 x || isChar 63 x)) r
  | [] => false
  end.

(** Comparisons of numbers: [a <= b] and [a < b]. *)
Definition numLe (a b : Q) : bool := Qle_bool a b.
Definition numLt (a b : Q) : bool := negb (Qle_bool b a).

(** The sum of an array of numbers ([reduce((a, b) => a + b, 0)]). *)
Definition sumQ (l : list Q) : Q := fold_left Qplus l 0.

(** [Math.max(...l)] for a non-empty [l]; the callers guard the empty case. *)
Definition maxOf (l : list Q) : Q :=
  match l with
  | [] => 0
  | x :: r => fold_left Qmax r x
  end.

Definition quote : string := String "034"%char EmptyString.

(** How a call ends: it returns a value or it throws. *)
Inductive Completion (A : Type) : Type :=
| Returns (value : A)
| Throws (message : string).
Arguments Returns {A} value.
Arguments Throws {A} message.

(** Sequencing: a throw ends the evaluation. *)
Definition bind {A B} (c : Completion A) (k : A -> Completion B) : Completion B :=
  match c with
  | Returns value => k value
  | Throws message => Throws message
  end.

(** Reading a property of a value that may be [undefined]: the read of a
    property of [undefined] throws a [TypeError]. *)
Definition readObject {A} (v : option A) : Completion A :=
  match v with
  | Some object => Returns object
  | None => Throws "TypeError: Cannot read properties of undefined"
  end.

(** [array.map(callback)] with a callback that may throw: the first throw
    ends the call. *)
Fixpoint mapArray {A B} (callback : A -> Completion B) (array : list A)
  : Completion (list B) :=
  match array with
  | [] => Returns []
  | x :: rest =>
      bind (callback x) (fun y =>
      bind (mapArray callback rest) (fun ys => Returns (y :: ys)))
  end.

(** [while (continues(st)) st = step(st)]: the state after at most [n]
    turns, and the same with the bound in binary, which looks at the loop
    condition before the second half of its turns and so costs no more
    than the turns really taken. *)
Section While.
Variable State : Type.
Variable continues : State -> bool.
Variable step : State -> State.

Fixpoint stateAfter (n : nat) (st : State) : State :=
  match n with
  | O => st
  | S k => if continues st then stateAfter k (step st) else st
  end.

Fixpoint whileWithin (bound : positive) (st : State) : State :=
  match bound with
  | xH => if continues st then step st else st
  | xO p =>
      let st' := whileWithin p st in
      if continues st' then whileWithin p st' else st'
  | xI p =>
      if continues st then
        let st' := whileWithin p (step st) in
        if continues st' then whileWithin p st' else st'
      else st
  end.
End While.

(** [Array.prototype.sort(cmp)], stable; [before a b] is [cmp(a, b) <= 0]. *)
Section Sort.
Variable A : Type.
Variable before : A -> A -> bool.

Fixpoint insertSorted (x : A) (l : list A) : list A :=
  match l with
  | [] => [x]
  | y :: r => if before x y then x :: l else y :: insertSorted x r
  end.

Fixpoint sort (l : list A) : list A :=
  match l with
  | [] => []
  | x :: r => insertSorted x (sort r)
  end.
End Sort.

End Js.

(* ===================================================================== *)
(** * TreeGenerator: segmentation and hierarchy building *)
(* ===================================================================== *)

Module TreeGenerator.
Import Js.

Open Scope Z_scope.

(** A caller-supplied heading [RegExp], seen through
    [paragraph.match(pattern)]: [None] when it does not match, otherwise
    capture group 1 ([None] when the group is absent or did not take part). *)
Definition RegExp : Type := string -> option (option string).

(** [TreeGeneratorConfig], the options the generator reads. *)
Record TreeGeneratorConfig : Type := mkConfig {
  maxSummaryLength : nat;
  headingPatterns : list RegExp
}.

Definition DEFAULT_CONFIG : TreeGeneratorConfig :=
  {| maxSummaryLength := 200; headingPatterns := [] |}.

(** [TreeNode] (the optional [metadata] bag is never written here). *)
Inductive TreeNode : Type := mkTreeNode {
  title : string;
  nodeId : string;
  startIndex : Z;
  endIndex : Z;
  summary : string;
  text : option string;
  children : list TreeNode
}.

(** [DocumentNode]: a [TreeNode] under construction, with its raw
    paragraphs and its level; its [children] stay empty and are left out. *)
Record DocumentNode : Type := mkDocumentNode {
  sec_title : string;
  sec_nodeId : string;
  sec_startIndex : Z;
  sec_endIndex : Z;
  sec_summary : string;
  sec_content : list string;
  sec_text : string;
  sec_level : Z
}.

(** [TreeIndex] (the creation time stamp is left out). *)
Record TreeIndex : Type := mkTreeIndex {
  idx_title : string;
  idx_description : option string;
  nodes : list TreeNode;
  version : string;
  source_type : string
}.

(** The result of [analyzeParagraphForSection]. *)
Record SectionInfo : Type := mkSectionInfo {
  isHeading : bool;
  info_title : string;
  info_level : Z
}.

Definition blankLine : string := str ["010"%char; "010"%char].

Definition natToString (n : nat) : string :=
  DecimalString.NilEmpty.string_of_uint (Nat.to_uint n).

Section Generator.

Variable config : TreeGeneratorConfig.
(** The k-th identifier drawn by [generateNodeId]. *)
Variable genId : nat -> string.

Definition splitIntoParagraphs (content : string) : list string :=
  filter (fun p => (0 <? String.length p)%nat) (map trim (splitBlankLines content)).

Definition generateSummary (content : list string) : string :=
  let t := join " " content in
  let maxLen := maxSummaryLength config in
  if (String.length t <=? maxLen)%nat then t
  else (substring 0 (maxLen - 3) t ++ "...")%string.

(** The loop over [config.headingPatterns]: the title a first matching
    pattern gives ([match[1] || paragraph]). *)
Fixpoint matchCustomPatterns (patterns : list RegExp) (paragraph : string)
  : option string :=
  match patterns with
  | [] => None
  | pattern :: rest =>
      match pattern paragraph with
      | Some g1 =>
          Some match g1 with
               | Some t => if (t =? "")%string then paragraph else t
               | None => paragraph
               end
      | None => matchCustomPatterns rest paragraph
      end
  end.

(** The last detector: a short paragraph that looks like a label. *)
Definition looksLikeLabel (paragraph : string) : bool :=
  (String.length paragraph <? 100)%nat &&
  (length (splitWs paragraph) <=? 10)%nat &&
  (endsWithChar 58 paragraph
   || testCapitalisedLabel paragraph
   || (paragraph =? toUpperCase paragraph)%string).

Definition analyzeParagraphForSection (paragraph : string) : SectionInfo :=
  match matchCustomPatterns (headingPatterns config) paragraph with
  | Some t => mkSectionInfo true t 1
  | None =>
  match matchNumbered paragraph with
  | Some (num, rest) =>
      mkSectionInfo true rest
        (Z.min (Z.of_nat (length (splitChar 46 num))) 4)
  | None =>
  match matchMarkdown paragraph with
  | Some (hashes, rest) =>
      mkSectionInfo true rest (Z.min (Z.of_nat (String.length hashes)) 4)
  | None =>
  if testCommonSections paragraph && (String.length paragraph <? 50)%nat
  then mkSectionInfo true paragraph 1
  else if looksLikeLabel paragraph
  then mkSectionInfo true (stripTrailingColons paragraph) 1
  else mkSectionInfo false "" 0
  end end end.

(** The variables of [identifySections]'s loop, with the count of
    identifiers drawn so far. *)
Record SegState : Type := mkSegState {
  sections : list DocumentNode;
  currentSection : option DocumentNode;
  currentIndex : Z;
  idsDrawn : nat
}.

(** [currentSection.endIndex = currentIndex - 1; currentSection.text = ...]. *)
Definition closeSection (s : DocumentNode) (currentIndex : Z) : DocumentNode :=
  {| sec_title := sec_title s; sec_nodeId := sec_nodeId s;
     sec_startIndex := sec_startIndex s;
     sec_endIndex := currentIndex - 1;
     sec_summary := sec_summary s;
     sec_content := sec_content s;
     sec_text := join blankLine (sec_content s);
     sec_level := sec_level s |}.

(** [currentSection.content.push(paragraph)]. *)
Definition pushContent (s : DocumentNode) (paragraph : string) : DocumentNode :=
  {| sec_title := sec_title s; sec_nodeId := sec_nodeId s;
     sec_startIndex := sec_startIndex s;
     sec_endIndex := sec_endIndex s;
     sec_summary := sec_summary s;
     sec_content := sec_content s ++ [paragraph];
     sec_text := sec_text s;
     sec_level := sec_level s |}.

Definition newSection (title : string) (id : string) (index : Z)
    (paragraph : string) (level : Z) : DocumentNode :=
  {| sec_title := title; sec_nodeId := id;
     sec_startIndex := index; sec_endIndex := index;
     sec_summary := generateSummary [paragraph];
     sec_content := [paragraph];
     sec_text := paragraph;
     sec_level := level |}.

(** One turn of the loop of [identifySections]. *)
Definition identifyStep (st : SegState) (paragraph : string) : SegState :=
  let sectionInfo := analyzeParagraphForSection paragraph in
  if isHeading sectionInfo then
    let closed :=
      match currentSection st with
      | Some cur => sections st ++ [closeSection cur (currentIndex st)]
      | None => sections st
      end in
    {| sections := closed;
       currentSection :=
         Some (newSection (info_title sectionInfo) (genId (idsDrawn st))
                 (currentIndex st) paragraph (info_level sectionInfo));
       currentIndex := currentIndex st;
       idsDrawn := S (idsDrawn st) |}
  else
    match currentSection st with
    | Some cur =>
        {| sections := sections st;
           currentSection := Some (pushContent cur paragraph);
           currentIndex := currentIndex st + 1;
           idsDrawn := idsDrawn st |}
    | None =>
        let orphanSection :=
          newSection ("Section " ++ natToString (length (sections st) + 1))%string
            (genId (idsDrawn st)) (currentIndex st) paragraph 1 in
        {| sections := sections st ++ [orphanSection];
           currentSection := None;
           currentIndex := currentIndex st + 1;
           idsDrawn := S (idsDrawn st) |}
    end.

Definition initialSegState : SegState :=
  {| sections := []; currentSection := None; currentIndex := 0; idsDrawn := 0 |}.

(** The section still open when the loop ends is closed and pushed. *)
Definition finishSections (st : SegState) : list DocumentNode :=
  match currentSection st with
  | Some cur => sections st ++ [closeSection cur (currentIndex st)]
  | None => sections st
  end.

(** [identifySections] returns the sections and the identifiers drawn. *)
Definition identifySections (paragraphs : list string)
  : list DocumentNode * nat :=
  let st := fold_left identifyStep paragraphs initialSegState in
  (finishSections st, idsDrawn st).

(** [currentSection.level || minLevel]. *)
Definition effectiveLevel (s : DocumentNode) (minLevel : Z) : Z :=
  if sec_level s =? 0 then minLevel else sec_level s.

(** The inner [while] of [buildHierarchy]: the run of sections right
    after the current one whose level is above it. *)
Definition deeperThan (lvl : Z) (s : DocumentNode) : bool := lvl <? sec_level s.

Definition nodeOfSection (s : DocumentNode) (kids : list TreeNode) : TreeNode :=
  {| title := sec_title s; nodeId := sec_nodeId s;
     startIndex := sec_startIndex s; endIndex := sec_endIndex s;
     summary := sec_summary s;
     text := Some (if (sec_text s =? "")%string
                   then join blankLine (sec_content s) else sec_text s);
     children := kids |}.

Lemma takeWhile_shorter {A} (p : A -> bool) (l : list A) :
  (length (takeWhile p l) <= length l)%nat.
Proof. pose proof (take_drop_length p l). lia. Qed.

Lemma dropWhile_shorter {A} (p : A -> bool) (l : list A) :
  (length (dropWhile p l) <= length l)%nat.
Proof. pose proof (take_drop_length p l). lia. Qed.

(** [buildHierarchy]: the outer [while] takes [sections[i]], gives it the
    run of deeper sections behind it as children, and goes on behind them. *)
Equations buildHierarchy (sections : list DocumentNode) (minLevel : Z)
  : list TreeNode by wf (length sections) lt :=
buildHierarchy [] _ := [];
buildHierarchy (cur :: rest) minLevel :=
  nodeOfSection cur
    (buildHierarchy (takeWhile (deeperThan (effectiveLevel cur minLevel)) rest)
                    (minLevel + 1))
  :: buildHierarchy (dropWhile (deeperThan (effectiveLevel cur minLevel)) rest)
                    minLevel.
Next Obligation.
  pose proof (takeWhile_shorter (deeperThan (effectiveLevel cur minLevel)) rest).
  simpl. lia.
Qed.
Next Obligation.
  pose proof (dropWhile_shorter (deeperThan (effectiveLevel cur minLevel)) rest).
  simpl. lia.
Qed.

(** [buildNodes], drawing the root's identifier after [idsDrawn] others. *)
Definition buildNodes (sections : list DocumentNode) (idsDrawn : nat)
    (title : string) : list TreeNode :=
  match sections with
  | [] => []
  | _ :: _ =>
      let allContent := flat_map sec_content sections in
      [ {| title := title;
           nodeId := genId idsDrawn;
           startIndex := 0;
           endIndex := Z.of_nat (length sections) - 1;
           summary := generateSummary allContent;
           text := Some (join blankLine allContent);
           children := buildHierarchy sections 0 |} ]
  end.

Definition generateTree (content : string) (title : string)
    (description : option string) : TreeIndex :=
  let paragraphs := splitIntoParagraphs content in
  let '(sections, drawn) := identifySections paragraphs in
  {| idx_title := title;
     idx_description := description;
     nodes := buildNodes sections drawn title;
     version := "1.0.0";
     source_type := "text" |}.

End Generator.

(** [TreeGenerator.flattenTree]: the nodes in pre-order. *)
Fixpoint flattenNode (n : TreeNode) : list TreeNode :=
  n :: flat_map flattenNode (children n).

Definition flattenTree (nodes : list TreeNode) : list TreeNode :=
  flat_map flattenNode nodes.

Close Scope Z_scope.

End TreeGenerator.

(* ===================================================================== *)
(** * Graph types ([types/index.ts]) *)
(* ===================================================================== *)

Module GraphTypes.

Inductive NodeType : Type :=
  type_document | type_section | type_paragraph | type_reference.

Definition NodeType_eqb (a b : NodeType) : bool :=
  match a, b with
  | type_document, type_document | type_section, type_section
  | type_paragraph, type_paragraph | type_reference, type_reference => true
  | _, _ => false
  end.

Inductive EdgeType : Type := parent_child | semantic | reference_link | cross_link.

Definition EdgeType_eqb (a b : EdgeType) : bool :=
  match a, b with
  | parent_child, parent_child | semantic, semantic
  | reference_link, reference_link | cross_link, cross_link => true
  | _, _ => false
  end.

(** The optional fields of a node's [metadata] bag that the code names. *)
Record Metadata : Type := mkMetadata {
  level : option Z;
  keywords : option (list string);
  centrality : option Q
}.

(** [position: { start, end }]; [end] is spelled [stop] here. *)
Record Position : Type := mkPosition { start : Z; stop : Z }.

Record GraphNode : Type := mkGraphNode {
  nodeId : string;
  title : string;
  content : string;
  summary : string;
  type : NodeType;
  position : Position;
  metadata : option Metadata;
  relevanceScore : option Q
}.

Record GraphEdge : Type := mkGraphEdge {
  from : string;
  to : string;
  weight : Q;
  edgeType : EdgeType
}.

(** [GraphIndex] (the creation time stamp of its metadata is left out). *)
Record GraphIndex : Type := mkGraphIndex {
  graphTitle : string;
  description : option string;
  nodes : list GraphNode;
  edges : list GraphEdge;
  nodeCount : nat;
  edgeCount : nat
}.

Record PathResult : Type := mkPathResult {
  nodeIds : list string;
  distance : Q;
  pathScore : Q;
  reasoning : string
}.

(** [BMSSPOptions]: every field is optional. *)
Record BMSSPOptions : Type := mkOptions {
  opt_maxDepth : option Q;
  opt_maxResults : option nat;
  opt_minEdgeWeight : option Q
}.

(** [graph.nodes.find(n => n.nodeId === id)]. *)
Definition findNode (g : GraphIndex) (id : string) : option GraphNode :=
  find (fun n => (nodeId n =? id)%string) (nodes g).

(** [node.metadata?.keywords || []]. *)
Definition keywordsOf (n : GraphNode) : list string :=
  match metadata n with
  | Some m => match keywords m with Some k => k | None => [] end
  | None => []
  end.

(** [node.metadata?.centrality || 0.5]: an absent centrality and a
    centrality of 0 both give 0.5. *)
Definition centralityOrDefault (n : GraphNode) : Q :=
  match metadata n with
  | Some m =>
      match centrality m with
      | Some c => if Qeq_bool c 0 then 0.5 else c
      | None => 0.5
      end
  | None => 0.5
  end.

(** [[...new Set(l)]]: the distinct elements, first occurrences kept. *)
Fixpoint distinctFrom (seen : list string) (l : list string) : list string :=
  match l with
  | [] => []
  | x :: r =>
      if Js.mem x seen then distinctFrom seen r
      else x :: distinctFrom (x :: seen) r
  end.

Definition distinct (l : list string) : list string := distinctFrom [] l.

Definition ratio (a b : nat) : Q := inject_Z (Z.of_nat a) / inject_Z (Z.of_nat b).

End GraphTypes.

(* ===================================================================== *)
(** * GraphIndexer *)
(* ===================================================================== *)

Module GraphIndexer.
Import Js GraphTypes.

Record GraphIndexerConfig : Type := mkConfig {
  maxDepth : Q;
  maxResults : nat;
  enableCrossReferences : bool;
  precomputeRelationships : bool;
  minEdgeWeight : Q
}.

Definition DEFAULT_CONFIG : GraphIndexerConfig :=
  {| maxDepth := 3; maxResults := 10; enableCrossReferences := true;
     precomputeRelationships := true; minEdgeWeight := 0.1 |}.

(** The result of [analyzeParagraph]. *)
Record ParagraphInfo : Type := mkParagraphInfo {
  isSection : bool;
  info_title : string;
  info_level : Z
}.

(** The record [retrieveContent] builds for a node. *)
Record Retrieved : Type := mkRetrieved {
  r_nodeId : string;
  r_title : string;
  r_content : string;
  r_summary : string
}.

Definition analyzeParagraph (paragraph : string) : ParagraphInfo :=
  match matchMarkdown paragraph with
  | Some (hashes, rest) =>
      mkParagraphInfo true rest (Z.min (Z.of_nat (String.length hashes)) 4)
  | None =>
  match matchNumbered paragraph with
  | Some (num, rest) =>
      mkParagraphInfo true rest
        (Z.min (Z.of_nat (length (splitChar 46 num))) 4)
  | None =>
  if testCommonSections paragraph && (String.length paragraph <? 50)%nat
  then mkParagraphInfo true paragraph 1
  else mkParagraphInfo false "" 0
  end end.

Definition splitIntoParagraphs (content : string) : list string :=
  filter (fun p => (0 <? String.length p)%nat) (map trim (splitBlankLines content)).

Definition generateSummary (content : list string) : string :=
  let t := join " " content in
  let maxLen := 200%nat in
  if (String.length t <=? maxLen)%nat then t
  else (substring 0 (maxLen - 3) t ++ "...")%string.

Definition extractKeywords (text : string) : list string :=
  firstn 10
    (filter (fun word => (3 <? String.length word)%nat)
       (splitWs (blankPunctuation (toLowerCase text)))).

Definition calculateSemanticSimilarity (node1 node2 : GraphNode) : Q :=
  let keywords1 := keywordsOf node1 in
  let keywords2 := keywordsOf node2 in
  if (length keywords1 =? 0)%nat || (length keywords2 =? 0)%nat then 0
  else
    let intersection := filter (fun k => mem k keywords2) keywords1 in
    let union := distinct (keywords1 ++ keywords2) in
    ratio (length intersection) (length union).

Definition calculateNodeCentrality (nodeId : string) (edges : list GraphEdge) : Q :=
  let connections :=
    filter (fun e => (from e =? nodeId)%string || (to e =? nodeId)%string) edges in
  Qmin (inject_Z (Z.of_nat (length connections)) / 10) 1.

Section Indexer.

Variable config : GraphIndexerConfig.
(** The k-th identifier drawn by [generateNodeId], its ['node_'] prefix
    included. *)
Variable genId : nat -> string.

Definition blankLine : string := str ["010"%char; "010"%char].

(** The loop of [createGraphNodes] over the paragraphs: the section nodes,
    [currentIndex] counting every paragraph, [drawn] the identifiers drawn. *)
Fixpoint sectionNodes (paragraphs : list string) (currentIndex : Z) (drawn : nat)
  : list GraphNode :=
  match paragraphs with
  | [] => []
  | paragraph :: rest =>
      let sectionInfo := analyzeParagraph paragraph in
      if isSection sectionInfo then
        {| nodeId := genId drawn;
           title := info_title sectionInfo;
           content := paragraph;
           summary := generateSummary [paragraph];
           type := type_section;
           position := mkPosition currentIndex currentIndex;
           metadata := Some {| level := Some (info_level sectionInfo);
                               keywords := Some (extractKeywords paragraph);
                               centrality := None |};
           relevanceScore := None |}
        :: sectionNodes rest (currentIndex + 1)%Z (S drawn)
      else sectionNodes rest (currentIndex + 1)%Z drawn
  end.

Definition createGraphNodes (paragraphs : list string) (title : string)
  : list GraphNode :=
  let rootNode :=
    {| nodeId := genId 0;
       title := title;
       content := join blankLine paragraphs;
       summary := generateSummary paragraphs;
       type := type_document;
       position := mkPosition 0 (Z.of_nat (length paragraphs) - 1);
       metadata := Some {| level := Some 0%Z; keywords := None; centrality := None |};
       relevanceScore := None |} in
  rootNode :: sectionNodes paragraphs 0 1.

(** The first loop of [identifyRelationships]. *)
Definition parentChildEdges (parent : GraphNode) (others : list GraphNode)
  : list GraphEdge :=
  flat_map
    (fun child =>
       if NodeType_eqb (type child) type_section
       then [ {| from := nodeId parent; to := nodeId child;
                 weight := 0.8; edgeType := parent_child |} ]
       else [])
    others.

(** The second, nested loop: every pair [i < j] of the nodes after the root. *)
Fixpoint semanticEdges (others : list GraphNode) : list GraphEdge :=
  match others with
  | [] => []
  | a :: rest =>
      flat_map
        (fun b =>
           let w := calculateSemanticSimilarity a b in
           if numLt (minEdgeWeight config) w
           then [ {| from := nodeId a; to := nodeId b;
                     weight := w; edgeType := semantic |} ]
           else [])
        rest
      ++ semanticEdges rest
  end.

Definition identifyRelationships (nodes : list GraphNode) : list GraphEdge :=
  if negb (enableCrossReferences config) then []
  else
    match nodes with
    | [] => []
    | parent :: others => parentChildEdges parent others ++ semanticEdges others
    end.

(** [node.metadata = node.metadata || {}; node.metadata.centrality = ...]. *)
Definition withCentrality (c : Q) (n : GraphNode) : GraphNode :=
  {| nodeId := nodeId n; title := title n; content := content n;
     summary := summary n; type := type n; position := position n;
     metadata :=
       Some match metadata n with
            | Some m => {| level := level m; keywords := keywords m;
                           centrality := Some c |}
            | None => {| level := None; keywords := None; centrality := Some c |}
            end;
     relevanceScore := relevanceScore n |}.

Definition precomputeNodeRelationships (nodes : list GraphNode)
    (edges : list GraphEdge) : list GraphNode :=
  map (fun n => withCentrality (calculateNodeCentrality (nodeId n) edges) n) nodes.

Definition index (content : string) (title : string)
    (description : option string) : GraphIndex :=
  let paragraphs := splitIntoParagraphs content in
  let nodes := createGraphNodes paragraphs title in
  let edges := identifyRelationships nodes in
  let nodes' :=
    if precomputeRelationships config
    then precomputeNodeRelationships nodes edges else nodes in
  {| graphTitle := title; description := description;
     nodes := nodes'; edges := edges;
     nodeCount := length nodes'; edgeCount := length edges |}.

End Indexer.

(** [retrieveContent]: look every id up, drop the misses ([filter(Boolean)]),
    and build a record for each node found. *)
Definition retrieveContent (graph : GraphIndex) (nodeIds : list string)
  : list Retrieved :=
  map (fun node => mkRetrieved (nodeId node) (title node) (content node) (summary node))
    (flat_map
       (fun found => match found with Some node => [node] | None => [] end)
       (map (findNode graph) nodeIds)).

(** A call of [retrieveContent], with what can go wrong in it: [find]
    gives [undefined] for an id that names no node, [filter(Boolean)]
    drops the [undefined]s, and the last [map] reads four properties of
    every element it is given ([node!] is erased when the code is
    compiled, so the read of a property of [undefined] would throw). *)
Definition retrieveContent_call (graph : GraphIndex) (nodeIds : list string)
  : Completion (list Retrieved) :=
  let found := map (findNode graph) nodeIds in
  let kept :=
    filter (fun v => match v with Some _ => true | None => false end) found in
  mapArray
    (fun v =>
       bind (readObject v) (fun node =>
       Returns (mkRetrieved (nodeId node) (title node) (content node)
                  (summary node))))
    kept.

End GraphIndexer.

(* ===================================================================== *)
(** * BMSSP: the plain bounded multi-source search *)
(* ===================================================================== *)

(** What both variants share: the neighbour record, the universe of node
    ids an expansion can reach and the fuel that bounds the main loop. *)
Module Search.
Import Js GraphTypes.

Record Neighbor : Type := mkNeighbor { nb_nodeId : string; nb_weight : Q }.

(** Every id that stands at an end of an edge: an expansion only ever
    moves to one of these. *)
Definition universe (g : GraphIndex) : list string :=
  map from (edges g) ++ map to (edges g).

(** How many of them a path has not visited yet. *)
Definition remaining (g : GraphIndex) (visited : list string) : nat :=
  length (filter (fun u => negb (mem u visited)) (universe g)).

(** An expansion pushes at most two entries per edge. *)
Definition branching (g : GraphIndex) : N := 2 * N.of_nat (length (edges g)) + 1.

(** A bound on the loop turns a worklist entry can still cause. *)
Definition entryBudget (g : GraphIndex) (visited : list string) : N :=
  branching g ^ N.of_nat (remaining g visited).

Definition budget (g : GraphIndex) (visiteds : list (list string)) : N :=
  fold_right N.add 0%N (map (entryBudget g) visiteds).

(** The bound on the turns of the main loop for a worklist. *)
Definition turnBound (g : GraphIndex) (visiteds : list (list string)) : positive :=
  N.succ_pos (budget g visiteds).

(** The edge the path-score loop finds between two consecutive ids. *)
Definition findEdge (g : GraphIndex) (a b : string) : option GraphEdge :=
  find (fun e => ((from e =? a) && (to e =? b) || (from e =? b) && (to e =? a))%string)
       (edges g).

(** [edgeWeightSum] after the loop over the consecutive pairs of [path]. *)
Fixpoint edgeWeightSum (g : GraphIndex) (path : list string) : Q :=
  match path with
  | a :: ((b :: _) as rest) =>
      match findEdge g a b with
      | Some e => weight e
      | None => 0
      end + edgeWeightSum g rest
  | _ => 0
  end.

(** [path.map(nodeId => node ? (node.metadata?.centrality || 0.5) : 0)]. *)
Definition nodeScores (g : GraphIndex) (path : list string) : list Q :=
  map (fun id => match findNode g id with
                 | Some node => centralityOrDefault node
                 | None => 0
                 end) path.

Definition titleOf (g : GraphIndex) (id : string) : string :=
  match findNode g id with
  | Some node => title node
  | None => "Unknown"
  end.

Definition generatePathReasoning (path : list string) (g : GraphIndex) : string :=
  let nodeTitles := map (titleOf g) path in
  match nodeTitles with
  | [] => "No path found"
  | [t] => "Found relevant section: " ++ quote ++ t ++ quote
  | [t1; t2] =>
      "Connected related sections: " ++ quote ++ t1 ++ quote
      ++ " and " ++ quote ++ t2 ++ quote
  | _ => "Found connected path through sections: " ++ join " → " nodeTitles
  end%string.

(** [results.sort((a, b) => b.pathScore - a.pathScore).slice(0, maxResults)]. *)
Definition rankResults (maxResults : nat) (results : list PathResult)
  : list PathResult :=
  firstn maxResults
    (sort (fun a b => numLe (pathScore b) (pathScore a)) results).

End Search.

Module BMSSP.
Import Js GraphTypes Search.

Record QueueItem : Type := mkQueueItem {
  nodeId : string;
  distance : Q;
  path : list string;
  visited : list string
}.

Record SearchState : Type := mkState {
  queue : list QueueItem;
  results : list PathResult;
  visitedPaths : list string
}.

Definition getValidNeighbors (nodeId : string) (graph : GraphIndex)
    (visited : list string) (minWeight : Q) : list Neighbor :=
  flat_map
    (fun edge =>
       if (from edge =? nodeId)%string && negb (mem (to edge) visited)
          && numLe minWeight (weight edge)
       then [mkNeighbor (to edge) (weight edge)] else [])
    (edges graph)
  ++
  flat_map
    (fun edge =>
       if (to edge =? nodeId)%string && negb (mem (from edge) visited)
          && numLe minWeight (weight edge)
       then [mkNeighbor (from edge) (weight edge)] else [])
    (edges graph).

Definition calculatePathScore (path : list string) (graph : GraphIndex) : Q :=
  if (length path <? 2)%nat then 0
  else
    let scores := nodeScores graph path in
    let avgNodeScore := sumQ scores / inject_Z (Z.of_nat (length scores)) in
    let totalScore :=
      (edgeWeightSum graph path / inject_Z (Z.of_nat (length path - 1))) * 0.7
      + avgNodeScore * 0.3 in
    Qmin totalScore 1.

Section Loop.

Variable graph : GraphIndex.
Variable maxDepth : Q.
Variable maxResults : nat.
Variable minEdgeWeight : Q.

(** The seeds: one entry per source id that names a node of the graph. *)
Definition initialQueue (sourceNodeIds : list string) : list QueueItem :=
  flat_map
    (fun sourceId =>
       match findNode graph sourceId with
       | Some _ => [mkQueueItem sourceId 0 [sourceId] [sourceId]]
       | None => []
       end)
    sourceNodeIds.

(** The entries pushed for the neighbours of [current]. *)
Definition expand (current : QueueItem) : list QueueItem :=
  flat_map
    (fun neighbor =>
       if negb (mem (nb_nodeId neighbor) (visited current))
       then [mkQueueItem (nb_nodeId neighbor)
               (distance current + nb_weight neighbor)
               (path current ++ [nb_nodeId neighbor])
               (nb_nodeId neighbor :: visited current)]
       else [])
    (getValidNeighbors (nodeId current) graph (visited current) minEdgeWeight).

Definition byDistance (a b : QueueItem) : bool := numLe (distance a) (distance b).

(** One turn of the [while] loop, entered with a non-empty queue. *)
Definition step (st : SearchState) : SearchState :=
  match sort byDistance (queue st) with
  | [] => st
  | current :: rest =>
      if numLt maxDepth (distance current)
      then mkState rest (results st) (visitedPaths st)
      else
        let pathSignature := join "->" (path current) in
        if mem pathSignature (visitedPaths st)
        then mkState rest (results st) (visitedPaths st)
        else
          let results' :=
            if (1 <? length (path current))%nat
            then results st ++
                 [mkPathResult (path current) (distance current)
                    (calculatePathScore (path current) graph)
                    (generatePathReasoning (path current) graph)]
            else results st in
          mkState (rest ++ expand current) results'
                  (pathSignature :: visitedPaths st)
  end.

(** [queue.length > 0 && results.length < maxResults]. *)
Definition continues (st : SearchState) : bool :=
  (0 <? length (queue st))%nat && (length (results st) <? maxResults)%nat.

End Loop.

Definition initialState (graph : GraphIndex) (sourceNodeIds : list string)
  : SearchState :=
  mkState (initialQueue graph sourceNodeIds) [] [].

(** The state the main loop ends in; the loop cannot exhaust the bound. *)
Definition finalState (graph : GraphIndex) (sourceNodeIds : list string)
    (maxDepth : Q) (maxResults : nat) (minEdgeWeight : Q) : SearchState :=
  let st0 := initialState graph sourceNodeIds in
  whileWithin (continues maxResults) (step graph maxDepth minEdgeWeight)
    (turnBound graph (map visited (queue st0))) st0.

Definition findBoundedPaths (graph : GraphIndex) (sourceNodeIds : list string)
    (options : BMSSPOptions) : list PathResult :=
  let maxDepth := match opt_maxDepth options with Some d => d | None => 3 end in
  let maxResults := match opt_maxResults options with Some r => r | None => 10%nat end in
  let minEdgeWeight := match opt_minEdgeWeight options with Some w => w | None => 0.1 end in
  rankResults maxResults
    (results (finalState graph sourceNodeIds maxDepth maxResults minEdgeWeight)).

End BMSSP.

(* ===================================================================== *)
(** * OptimizedBMSSP: the search with selective activation *)
(* ===================================================================== *)

Module OptimizedBMSSP.
Import Js GraphTypes Search.

Record OptimizedQueueItem : Type := mkQueueItem {
  nodeId : string;
  distance : Q;
  path : list string;
  visited : list string;
  activationScore : Q;
  parentScore : Q
}.

Record SearchState : Type := mkState {
  queue : list OptimizedQueueItem;
  results : list PathResult;
  visitedPaths : list string;
  activatedNodes : list string
}.

(** The value [findBoundedPaths] resolves to. *)
Record SearchResult : Type := mkSearchResult {
  paths : list PathResult;
  activatedNodeCount : nat
}.

Definition calculateSemanticSimilarity (node1 node2 : GraphNode) : Q :=
  let keywords1 := keywordsOf node1 in
  let keywords2 := keywordsOf node2 in
  if (length keywords1 =? 0)%nat || (length keywords2 =? 0)%nat then 0
  else
    let intersection := filter (fun k => mem k keywords2) keywords1 in
    let union := distinct (keywords1 ++ keywords2) in
    ratio (length intersection) (Nat.max (length union) 1).

Definition calculateNodeActivationScore (node : GraphNode)
    (sourceNodeIds : list string) (graph : GraphIndex) : Q :=
  let centrality := centralityOrDefault node in
  let sourceNodes := filter (fun n => mem (GraphTypes.nodeId n) sourceNodeIds) (nodes graph) in
  let semanticSimilarity :=
    if (0 <? length sourceNodes)%nat
    then maxOf (map (fun source => calculateSemanticSimilarity node source) sourceNodes)
    else 0 in
  let keywordRelevance := if (length (keywordsOf node) =? 0)%nat then 0 else 0.4 in
  let typeWeight := if NodeType_eqb (type node) type_section then 0.8 else 0.3 in
  let positionWeight := Qmax 0.7 (1.0 - inject_Z (start (position node)) * 0.1) in
  let combinedScore :=
    (centrality * 0.25) + (semanticSimilarity * 0.3) + (keywordRelevance * 0.15)
    + (typeWeight * 0.15) + (positionWeight * 0.15) in
  Qmin combinedScore 1.0.

Definition getValidNeighborsWithSelectiveActivation (nodeId : string)
    (graph : GraphIndex) (visited : list string) (minWeight : Q)
    (parentActivationScore : Q) : list Neighbor :=
  let dynamicThreshold := Qmax minWeight (0.7 - (parentActivationScore * 0.4)) in
  let neighbors :=
    flat_map
      (fun edge =>
         if (from edge =? nodeId)%string && negb (mem (to edge) visited)
         then if numLe dynamicThreshold (weight edge)
              then [mkNeighbor (to edge) (weight edge)] else []
         else [])
      (edges graph)
    ++
    flat_map
      (fun edge =>
         if (to edge =? nodeId)%string && negb (mem (from edge) visited)
         then if numLe dynamicThreshold (weight edge)
              then [mkNeighbor (from edge) (weight edge)] else []
         else [])
      (edges graph) in
  sort (fun a b => numLe (nb_weight b) (nb_weight a)) neighbors.

Definition calculatePathScore (path : list string) (graph : GraphIndex) : Q :=
  if (length path <? 2)%nat then 0
  else
    let scores := nodeScores graph path in
    let avgNodeScore :=
      sumQ scores / inject_Z (Z.of_nat (Nat.max (length scores) 1)) in
    let totalScore :=
      (edgeWeightSum graph path
       / inject_Z (Z.of_nat (Nat.max (length path - 1) 1))) * 0.7
      + avgNodeScore * 0.3 in
    Qmin totalScore 1.

(** A call of [calculatePathScore], with what can go wrong in it: the
    loop reads [edge.weight] and the callback of [path.map] reads
    [node.metadata], and [find] gives [undefined] when no edge joins two
    ids or no node has an id; both reads stand behind a test ([if (edge)],
    [node ? ... : 0]).  [edgeWeight_call] is the body of the loop for one
    pair of ids, [nodeScore_call] the callback of [path.map]. *)
Definition edgeWeight_call (graph : GraphIndex) (a b : string) : Completion Q :=
  let edge := findEdge graph a b in
  match edge with
  | Some _ => bind (readObject edge) (fun e => Returns (weight e))
  | None => Returns 0
  end.

Fixpoint edgeWeightSum_call (graph : GraphIndex) (path : list string)
  : Completion Q :=
  match path with
  | a :: ((b :: _) as rest) =>
      bind (edgeWeight_call graph a b) (fun w =>
      bind (edgeWeightSum_call graph rest) (fun sum => Returns (w + sum)))
  | _ => Returns 0
  end.

Definition nodeScore_call (graph : GraphIndex) (id : string) : Completion Q :=
  let node := findNode graph id in
  match node with
  | Some _ => bind (readObject node) (fun n => Returns (centralityOrDefault n))
  | None => Returns 0
  end.

Definition calculatePathScore_call (path : list string) (graph : GraphIndex)
  : Completion Q :=
  if (length path <? 2)%nat then Returns 0
  else
    bind (edgeWeightSum_call graph path) (fun edgeWeightSum =>
    bind (mapArray (nodeScore_call graph) path) (fun scores =>
    let avgNodeScore :=
      sumQ scores / inject_Z (Z.of_nat (Nat.max (length scores) 1)) in
    let totalScore :=
      (edgeWeightSum / inject_Z (Z.of_nat (Nat.max (length path - 1) 1))) * 0.7
      + avgNodeScore * 0.3 in
    Returns (Qmin totalScore 1))).

(** [set.add(x)]. *)
Definition setAdd (x : string) (s : list string) : list string :=
  if mem x s then s else s ++ [x].

Section Loop.

Variable graph : GraphIndex.
Variable sourceNodeIds : list string.
Variable maxDepth : Q.
Variable maxResults : nat.
Variable minEdgeWeight : Q.

(** The seeds, each with its own activation score and parent score 1. *)
Definition initialQueue : list OptimizedQueueItem :=
  flat_map
    (fun sourceId =>
       match findNode graph sourceId with
       | Some sourceNode =>
           [mkQueueItem sourceId 0 [sourceId] [sourceId]
              (calculateNodeActivationScore sourceNode sourceNodeIds graph) 1.0]
       | None => []
       end)
    sourceNodeIds.

Definition initialActivated : list string :=
  fold_left
    (fun acc sourceId =>
       match findNode graph sourceId with
       | Some _ => setAdd sourceId acc
       | None => acc
       end)
    sourceNodeIds [].

(** [baseScore]: the neighbour's own score, 0.5 when the graph has no
    node of that id. *)
Definition baseScore (neighborId : string) : Q :=
  match findNode graph neighborId with
  | Some neighborNode => calculateNodeActivationScore neighborNode sourceNodeIds graph
  | None => 0.5
  end.

(** [baseScore * neighbor.weight * current.activationScore]. *)
Definition propagatedScore (current : OptimizedQueueItem) (neighbor : Neighbor) : Q :=
  baseScore (nb_nodeId neighbor) * nb_weight neighbor * activationScore current.

(** The entry pushed for one neighbour, when it is pushed. *)
Definition enqueueNeighbor (current : OptimizedQueueItem) (neighbor : Neighbor)
  : list OptimizedQueueItem :=
  if negb (mem (nb_nodeId neighbor) (visited current)) then
    if numLe 0.15 (propagatedScore current neighbor)
    then [mkQueueItem (nb_nodeId neighbor)
            (distance current + nb_weight neighbor)
            (path current ++ [nb_nodeId neighbor])
            (nb_nodeId neighbor :: visited current)
            (propagatedScore current neighbor)
            (activationScore current)]
    else []
  else [].

Definition neighborsOf (current : OptimizedQueueItem) : list Neighbor :=
  getValidNeighborsWithSelectiveActivation (nodeId current) graph
    (visited current) minEdgeWeight (activationScore current).

(** The entries pushed for the neighbours of [current]. *)
Definition expand (current : OptimizedQueueItem) : list OptimizedQueueItem :=
  flat_map (enqueueNeighbor current) (neighborsOf current).

(** The queue order: higher activation score first, then lower distance. *)
Definition byPriority (a b : OptimizedQueueItem) : bool :=
  if negb (Qeq_bool (activationScore b) (activationScore a))
  then numLe (activationScore b - activationScore a) 0
  else numLe (distance a - distance b) 0.

(** One turn of the [while] loop, entered with a non-empty queue. *)
Definition step (st : SearchState) : SearchState :=
  match sort byPriority (queue st) with
  | [] => st
  | current :: rest =>
      if numLt maxDepth (distance current) || numLt (activationScore current) 0.25
      then mkState rest (results st) (visitedPaths st) (activatedNodes st)
      else
        let pathSignature := join "->" (path current) in
        if mem pathSignature (visitedPaths st)
        then mkState rest (results st) (visitedPaths st) (activatedNodes st)
        else
          let results' :=
            if (1 <? length (path current))%nat
            then results st ++
                 [mkPathResult (path current) (distance current)
                    (calculatePathScore (path current) graph)
                    (generatePathReasoning (path current) graph)]
            else results st in
          let pushed := expand current in
          mkState (rest ++ pushed) results'
                  (pathSignature :: visitedPaths st)
                  (fold_left (fun acc item => setAdd (nodeId item) acc)
                             pushed (activatedNodes st))
  end.

Definition continues (st : SearchState) : bool :=
  (0 <? length (queue st))%nat && (length (results st) <? maxResults)%nat.

Definition initialState : SearchState :=
  mkState initialQueue [] [] initialActivated.

(** The state the main loop ends in; the loop cannot exhaust the bound. *)
Definition finalState : SearchState :=
  whileWithin continues step
    (turnBound graph (map visited (queue initialState))) initialState.

(** The state of the search after at most [n] turns of the main loop. *)
Definition stateAfterTurns (n : nat) : SearchState :=
  stateAfter continues step n initialState.

End Loop.

Definition findBoundedPaths (graph : GraphIndex) (sourceNodeIds : list string)
    (options : BMSSPOptions) : SearchResult :=
  let maxDepth := match opt_maxDepth options with Some d => d | None => 3 end in
  let maxResults := match opt_maxResults options with Some r => r | None => 10%nat end in
  let minEdgeWeight := match opt_minEdgeWeight options with Some w => w | None => 0.1 end in
  let st := finalState graph sourceNodeIds maxDepth maxResults minEdgeWeight in
  mkSearchResult (rankResults maxResults (results st))
                 (length (activatedNodes st)).

End OptimizedBMSSP.

(* ===================================================================== *)
(** * SimpleSearch: the keyword scorer *)
(* ===================================================================== *)

Module SimpleSearch.
Import Js TreeGenerator.

(** [TreeSearchConfig]: the scorer reads [maxResults] only. *)
Record TreeSearchConfig : Type := mkConfig { maxResults : nat }.

Definition DEFAULT_CONFIG : TreeSearchConfig := {| maxResults := 10 |}.

Record ScoredNode : Type := mkScored { node : TreeNode; score : Q }.

Definition tokenize (text : string) : list string :=
  filter (fun term => (1 <? String.length term)%nat)
    (splitWs (blankPunctuation (toLowerCase text))).

(** [terms.filter((t) => t === queryTerm).length]. *)
Definition occurrences (queryTerm : string) (terms : list string) : nat :=
  length (filter (fun t => (t =? queryTerm)%string) terms).

(** The body of the loop over the query terms: [score] before the turn,
    the result is [score] after it. *)
Definition scoreQueryTerm (node : TreeNode)
    (titleTerms summaryTerms textTerms : list string)
    (score : Q) (queryTerm : string) : Q :=
  let score := if mem queryTerm titleTerms then score + 10 else score in
  let score := if includes (toLowerCase (title node)) queryTerm
               then score + 5 else score in
  let summaryCount := occurrences queryTerm summaryTerms in
  let score := score + inject_Z (Z.of_nat summaryCount) * 2 in
  let textCount := occurrences queryTerm textTerms in
  score + Qmin (inject_Z (Z.of_nat textCount) * 0.5) 5.

Definition scoreNode (node : TreeNode) (queryTerms : list string) : Q :=
  let titleTerms := tokenize (title node) in
  let summaryTerms := tokenize (summary node) in
  let textTerms :=
    match text node with
    | Some t => if (t =? "")%string then [] else tokenize t
    | None => []
    end in
  let score :=
    fold_left (scoreQueryTerm node titleTerms summaryTerms textTerms) queryTerms 0 in
  let queryPhrase := join " " queryTerms in
  if includes (toLowerCase (title node)) queryPhrase then score + 15 else score.

(** [SimpleSearch.flattenTree] is the pre-order walk of the generator. *)
Definition flattenTree (nodes : list TreeNode) : list TreeNode :=
  TreeGenerator.flattenTree nodes.

(** [topNodes] of [search]. *)
Definition topNodes (config : TreeSearchConfig) (tree : TreeIndex)
    (query : string) : list ScoredNode :=
  let queryTerms := tokenize query in
  let allNodes := flattenTree (nodes tree) in
  let scoredNodes := map (fun n => mkScored n (scoreNode n queryTerms)) allNodes in
  firstn (maxResults config)
    (sort (fun a b => numLe (score b) (score a))
       (filter (fun s => numLt 0 (score s)) scoredNodes)).

(** [search], its [nodeList] (the [thinking] text and the timing are not
    modelled). *)
Definition search (config : TreeSearchConfig) (tree : TreeIndex)
    (query : string) : list string :=
  map (fun s => nodeId (node s)) (topNodes config tree query).

End SimpleSearch.

(* ===================================================================== *)
(** * The specification's wording of two formulas *)
(* ===================================================================== *)

Module Spec.
Import Js GraphTypes.

(** Jaccard similarity of two keyword sets: the size of the intersection
    over the size of the union, both counted without repetition. *)
Definition jaccard (a b : list string) : Q :=
  ratio (length (distinct (filter (fun k => mem k b) a)))
        (length (distinct (a ++ b))).

(** The largest Jaccard similarity of [node]'s keywords to a source
    node's; 0 when there is no source node. *)
Definition maxSourceSimilarity (node : GraphNode) (sourceNodeIds : list string)
    (graph : GraphIndex) : Q :=
  fold_right Qmax 0
    (map (fun s => jaccard (keywordsOf node) (keywordsOf s))
       (filter (fun n => mem (nodeId n) sourceNodeIds) (nodes graph))).

Definition clamp01 (x : Q) : Q := Qmax 0 (Qmin x 1).

(** The parent-child edges that arrive at the node [id]. *)
Definition incomingParentChild (g : GraphIndex) (id : string) : list GraphEdge :=
  filter (fun e => EdgeType_eqb (edgeType e) parent_child && (to e =? id)%string)
         (edges g).

(** An id names a node of the graph. *)
Definition present (g : GraphIndex) (id : string) : bool :=
  existsb (fun n => (nodeId n =? id)%string) (nodes g).

(** The pairs of neighbouring ids of a path. *)
Definition steps (path : list string) : list (string * string) :=
  combine path (tl path).

(** An edge joins two ids, in either direction. *)
Definition joinsIds (e : GraphEdge) (a b : string) : Prop :=
  from e = a /\ to e = b \/ from e = b /\ to e = a.

(** What an id of a path adds to the sum of the node scores: nothing when
    no node has the id, and otherwise the centrality, or 0.5 in its
    place, of the first node of the graph that has the id. *)
Definition nodeContribution (g : GraphIndex) (id : string) (sc : Q) : Prop :=
  (present g id = false -> sc = 0)
  /\ (forall n, findNode g id = Some n -> sc = centralityOrDefault n).

(** What a step of a path adds to the sum of the edge weights: nothing
    when no edge joins the two ids, and otherwise the weight of the first
    edge of the graph that joins them. *)
Definition edgeContribution (g : GraphIndex) (step : string * string) (w : Q)
  : Prop :=
  ((forall e, In e (edges g) -> ~ joinsIds e (fst step) (snd step)) -> w = 0)
  /\ (forall e, Search.findEdge g (fst step) (snd step) = Some e -> w = weight e).

(** The sum of a list of numbers. *)
Definition total (l : list Q) : Q := fold_right Qplus 0 l.

(** The path score made of the contributions of the steps and of the ids:
    0 for a path of fewer than two ids, otherwise seven tenths of the mean
    edge contribution plus three tenths of the mean node contribution,
    capped at 1. *)
Definition pathScoreOf (pathLength : nat) (edgeWeights nodeScores : list Q) : Q :=
  if (pathLength <? 2)%nat then 0
  else Qmin (total edgeWeights / inject_Z (Z.of_nat (pathLength - 1)) * 0.7
             + total nodeScores / inject_Z (Z.of_nat pathLength) * 0.3) 1.

(** The activation score as the specification words it, for a node that
    carries a centrality [c]. *)
Definition activationScore (c : Q) (node : GraphNode)
    (sourceNodeIds : list string) (graph : GraphIndex) : Q :=
  clamp01
    (c * 0.25
     + maxSourceSimilarity node sourceNodeIds graph * 0.30
     + (if (0 <? length (keywordsOf node))%nat then 0.4 else 0) * 0.15
     + (if NodeType_eqb (type node) type_section then 0.8 else 0.3) * 0.15
     + Qmax 0.7 (1 - inject_Z (start (position node)) * 0.1) * 0.15).

(** The bounds a search runs with: the options, or their defaults. *)
Definition maxDepthOf (options : BMSSPOptions) : Q :=
  match opt_maxDepth options with Some d => d | None => 3 end.

Definition maxResultsOf (options : BMSSPOptions) : nat :=
  match opt_maxResults options with Some r => r | None => 10%nat end.

Definition minEdgeWeightOf (options : BMSSPOptions) : Q :=
  match opt_minEdgeWeight options with Some w => w | None => 0.1 end.

(** What the specification promises of a returned path list: no two paths
    with the same node-id sequence, at least two ids per path, no distance
    above [maxDepth], path scores in non-increasing order, and at most
    [maxResults] paths. *)
Record boundedPathList (maxDepth : Q) (maxResults : nat)
    (found : list PathResult) : Prop := mkBoundedPathList {
  paths_distinct : NoDup (map nodeIds found);
  paths_long : Forall (fun r => (2 <= length (nodeIds r))%nat) found;
  paths_near : Forall (fun r => distance r <= maxDepth) found;
  paths_ranked : StronglySorted (fun a b => pathScore b <= pathScore a) found;
  paths_few : (length found <= maxResults)%nat
}.

(** Two index ranges do not overlap, the first lying before the second. *)
Definition endsBefore (a b : TreeGenerator.TreeNode) : Prop :=
  (TreeGenerator.endIndex a < TreeGenerator.startIndex b)%Z.

(** The range of [parent] contains the range of [child]. *)
Definition containsRange (parent child : TreeGenerator.TreeNode) : Prop :=
  (TreeGenerator.startIndex parent <= TreeGenerator.startIndex child)%Z
  /\ (TreeGenerator.endIndex child <= TreeGenerator.endIndex parent)%Z.

Definition countIf {A} (p : A -> bool) (l : list A) : nat := length (filter p l).

Definition sumOver {A} (f : A -> Q) (l : list A) : Q :=
  fold_right (fun x acc => f x + acc) 0 l.

(** ** The keyword score in the specification's words

    The letters, the digits and the underscore, spelled out. *)
Definition upperLetters : list ascii :=
  list_ascii_of_string "ABCDEFGHIJKLMNOPQRSTUVWXYZ".
Definition lowerLetters : list ascii :=
  list_ascii_of_string "abcdefghijklmnopqrstuvwxyz".
Definition digitsAndUnderscore : list ascii :=
  list_ascii_of_string "0123456789_".

(** The character that stands in [into] where [c] stands in [from]. *)
Fixpoint translate (c : ascii) (from into : list ascii) : option ascii :=
  match from, into with
  | f :: from', t :: into' =>
      if Ascii.eqb c f then Some t else translate c from' into'
  | _, _ => None
  end.

(** Lower-casing: an upper-case letter becomes its lower-case letter. *)
Definition lowerCased (c : ascii) : ascii :=
  match translate c upperLetters lowerLetters with
  | Some l => l
  | None => c
  end.

Definition lowerCase (s : string) : string :=
  string_of_list_ascii (map lowerCased (list_ascii_of_string s)).

(** A character of a token: a letter, a digit or the underscore; every
    other character, blank or punctuation, is stripped. *)
Definition isTokenChar (c : ascii) : bool :=
  existsb (Ascii.eqb c) (upperLetters ++ lowerLetters ++ digitsAndUnderscore).

(** The tokens of a text: the text lower-cased, its punctuation stripped,
    its tokens of more than one character.  A token is a maximal run of
    token characters; [cur] is the run being read, last character first. *)
Fixpoint wordRuns (cur : list ascii) (l : list ascii) : list string :=
  match l with
  | [] =>
      match cur with
      | [] => []
      | _ :: _ => [string_of_list_ascii (rev cur)]
      end
  | c :: r =>
      if isTokenChar c then wordRuns (lowerCased c :: cur) r
      else match cur with
           | [] => wordRuns [] r
           | _ :: _ => string_of_list_ascii (rev cur) :: wordRuns [] r
           end
  end.

Definition tokens (text : string) : list string :=
  filter (fun t => (2 <=? String.length t)%nat)
         (wordRuns [] (list_ascii_of_string text)).

(** How often a term occurs among tokens. *)
Definition occurrencesOf (term : string) (terms : list string) : nat :=
  count_occ string_dec terms term.

(** A text contains another as a substring: at some position. *)
Definition containsText (hay needle : string) : bool :=
  existsb (fun i => (substring i (String.length needle) hay =? needle)%string)
          (seq 0 (S (String.length hay))).

(** The keyword score of a node for a query: summed over the tokens of
    the query, 10 for a token that is a title token, 5 for a token the
    lower-cased title contains, 2 per occurrence among the summary tokens,
    0.5 per occurrence among the text tokens but at most 5; and 15 more
    when the lower-cased title contains the tokens of the query joined by
    spaces. *)
Definition keywordScore (node : TreeGenerator.TreeNode) (query : string) : Q :=
  let queryTerms := tokens query in
  let titleLower := lowerCase (TreeGenerator.title node) in
  let titleTerms := tokens (TreeGenerator.title node) in
  let summaryTerms := tokens (TreeGenerator.summary node) in
  let textTerms :=
    match TreeGenerator.text node with
    | Some t => tokens t
    | None => []
    end in
  sumOver (fun q => if in_dec string_dec q titleTerms then 10 else 0) queryTerms
  + sumOver (fun q => if containsText titleLower q then 5 else 0) queryTerms
  + sumOver (fun q => 2 * inject_Z (Z.of_nat (occurrencesOf q summaryTerms)))
      queryTerms
  + sumOver (fun q => Qmin (0.5 * inject_Z (Z.of_nat (occurrencesOf q textTerms))) 5)
      queryTerms
  + (if containsText titleLower (String.concat " " queryTerms) then 15 else 0).

End Spec.

(* ===================================================================== *)
(** * Concrete inputs used by the examples below *)
(* ===================================================================== *)

Module Samples.
Import Js GraphTypes.

Definition LF : string := str ["010"%char].

(** An identifier generator: [node_0], [node_1], ... *)
Definition sampleId (n : nat) : string :=
  ("node_" ++ TreeGenerator.natToString n)%string.

(** A short label: the paragraph the two classifiers disagree on. *)
Definition labelParagraph : string := "Notes:".

(** The text of the specification's scenario: two Markdown sections. *)
Definition twoSections : string :=
  ("# Intro" ++ LF ++ "Hello" ++ LF ++ LF ++ "# Setup" ++ LF ++ "Run install")%string.

(** A section with a subsection, each followed by a body paragraph. *)
Definition nestedSections : string :=
  ("# A" ++ LF ++ LF ++ "first body." ++ LF ++ LF
   ++ "## B" ++ LF ++ LF ++ "second body.")%string.

Definition blankText : string := ("  " ++ LF ++ LF ++ " ")%string.

(** The default indexer configuration with cross references switched off. *)
Definition noCrossReferences : GraphIndexer.GraphIndexerConfig :=
  GraphIndexer.mkConfig 3 10 false true 0.1.

(** A graph without nodes or edges. *)
Definition emptyGraph : GraphIndex := mkGraphIndex "empty" None [] [] 0 0.

(** A section node at position 0 with the given keywords and centrality. *)
Definition sectionNode (id : string) (kws : list string) (c : Q) : GraphNode :=
  mkGraphNode id id "" "" type_section (mkPosition 0 0)
    (Some (mkMetadata (Some 1%Z) (Some kws) (Some c))) None.

(** A node no edge touches: its centrality is 0. *)
Definition isolatedNode : GraphNode := sectionNode "lonely" [] 0.

Definition isolatedGraph : GraphIndex :=
  mkGraphIndex "isolated" None [isolatedNode] [] 1 0.

(** A node whose keyword list repeats a word, beside a source node. *)
Definition repeatingNode : GraphNode := sectionNode "twice" ["alpha"; "alpha"]%string 0.5.

Definition sourceNode : GraphNode := sectionNode "source" ["alpha"]%string 0.5.

Definition repeatingGraph : GraphIndex :=
  mkGraphIndex "repeating" None [sourceNode; repeatingNode] [] 2 0.

(** Two section nodes with keywords and one plain node, linked in a row:
    [hub] is the source of the searches below. *)
Definition hub : GraphNode := sectionNode "hub" ["install"; "guide"]%string 0.2.
Definition near : GraphNode := sectionNode "near" ["install"; "guide"]%string 0.2.
Definition far : GraphNode := sectionNode "far" [] 0.1.

Definition chainGraph : GraphIndex :=
  mkGraphIndex "chain" None [hub; near; far]
    [ mkGraphEdge "hub" "near" 0.8 semantic;
      mkGraphEdge "hub" "far" 0.8 semantic ] 3 2.

(** The seed entry of [hub] in a search of the chain from [hub], and the
    neighbour records of its two edges. *)
Definition hubSeed : OptimizedBMSSP.OptimizedQueueItem :=
  OptimizedBMSSP.mkQueueItem "hub" 0 ["hub"%string] ["hub"%string]
    (OptimizedBMSSP.calculateNodeActivationScore hub ["hub"%string] chainGraph) 1.0.

Definition nearNeighbor : Search.Neighbor := Search.mkNeighbor "near" 0.8.

(** The graph index of the two-section text. *)
Definition twoSectionGraph : GraphIndex :=
  GraphIndexer.index GraphIndexer.DEFAULT_CONFIG sampleId twoSections "Doc" None.

(** The tree index of the two-section text. *)
Definition twoSectionTree : TreeGenerator.TreeIndex :=
  TreeGenerator.generateTree TreeGenerator.DEFAULT_CONFIG sampleId twoSections
    "Doc" None.

End Samples.

(* ===================================================================== *)
(** * TreeGenerator: the static tree walks *)
(* ===================================================================== *)

Module TreeTools.
Import Js TreeGenerator.

(** [countNodes]: the body of the loop of [traverse] for one node, [count]
    being the counter before the turn and the result the counter after it. *)
Fixpoint countVisit (node : TreeNode) (count : nat) : nat :=
  let count := S count in
  if (0 <? length (children node))%nat
  then fold_left (fun c child => countVisit child c) (children node) count
  else count.

Definition countNodes (nodes : list TreeNode) : nat :=
  fold_left (fun c node => countVisit node c) nodes 0%nat.

(** [getMaxDepth]: [traverse(nodeList, depth)] raises [maxDepth] to
    [depth] and then visits the nodes; [visit] is the loop body. *)
Definition depthTraverse (visit : TreeNode -> nat -> nat -> nat)
    (nodeList : list TreeNode) (depth maxDepth : nat) : nat :=
  fold_left (fun m node => visit node depth m) nodeList
    (if (maxDepth <? depth)%nat then depth else maxDepth).

Fixpoint depthVisit (node : TreeNode) (depth maxDepth : nat) : nat :=
  if (0 <? length (children node))%nat
  then depthTraverse depthVisit (children node) (depth + 1) maxDepth
  else maxDepth.

Definition getMaxDepth (nodes : list TreeNode) : nat :=
  depthTraverse depthVisit nodes 1 0.

End TreeTools.

(* ===================================================================== *)
(** * GraphIndexer: query sources, search and retrieval *)
(* ===================================================================== *)

Module GraphSearch.
Import Js GraphTypes GraphIndexer.

(** The value [search] resolves to. *)
Record SearchResult : Type := mkSearchResult {
  paths : list PathResult;
  nodeList : list string
}.

(** The value [retrieve] resolves to (the elapsed time is left out). *)
Record RetrievalResult : Type := mkRetrievalResult {
  context : string;
  contents : list Retrieved;
  searchResult : SearchResult
}.

(** [query.toLowerCase().split(/\s+/)]. *)
Definition queryTermsOf (query : string) : list string :=
  splitWs (toLowerCase query).

(** [node.metadata?.keywords?.includes(term)], absent keywords being
    falsy. *)
Definition hasKeyword (node : GraphNode) (term : string) : bool :=
  match metadata node with
  | Some m => match keywords m with Some k => mem term k | None => false end
  | None => false
  end.

Definition matchCount (queryTerms : list string) (node : GraphNode) : nat :=
  let nodeText := toLowerCase (title node ++ " " ++ summary node) in
  length (filter (fun term => includes nodeText term || hasKeyword node term)
                 queryTerms).

(** [{ ...node, relevanceScore: matchCount }]. *)
Definition withRelevance (node : GraphNode) (matchCount : nat) : GraphNode :=
  {| nodeId := nodeId node; title := title node; content := content node;
     summary := summary node; type := type node; position := position node;
     metadata := metadata node;
     relevanceScore := Some (inject_Z (Z.of_nat matchCount)) |}.

(** [node.relevanceScore || 0]. *)
Definition relevanceOrZero (node : GraphNode) : Q :=
  match relevanceScore node with
  | Some r => r
  | None => 0
  end.

Definition findQuerySources (query : string) (nodes : list GraphNode)
  : list GraphNode :=
  let queryTerms := queryTermsOf query in
  let relevantNodes :=
    flat_map
      (fun node =>
         let count := matchCount queryTerms node in
         if (0 <? count)%nat then [withRelevance node count] else [])
      nodes in
  sort (fun a b => numLe (relevanceOrZero b) (relevanceOrZero a)) relevantNodes.

Definition search (config : GraphIndexerConfig) (graph : GraphIndex)
    (query : string) : SearchResult :=
  let sourceNodes := findQuerySources query (nodes graph) in
  if (length sourceNodes =? 0)%nat then mkSearchResult [] []
  else
    let paths :=
      BMSSP.findBoundedPaths graph (map nodeId sourceNodes)
        {| opt_maxDepth := Some (maxDepth config);
           opt_maxResults := Some (maxResults config);
           opt_minEdgeWeight := Some (minEdgeWeight config) |} in
    let nodeList := flat_map nodeIds paths in
    let uniqueNodeIds := distinct nodeList in
    mkSearchResult paths uniqueNodeIds.

Definition lineFeed : string := str ["010"%char].

Definition formatContext (contents : list Retrieved) : string :=
  if (length contents =? 0)%nat then EmptyString
  else join blankLine
         (map (fun c => "### " ++ r_title c ++ lineFeed ++ r_content c)%string
              contents).

Definition retrieve (config : GraphIndexerConfig) (graph : GraphIndex)
    (query : string) : RetrievalResult :=
  let searchResult := search config graph query in
  let contents := retrieveContent graph (nodeList searchResult) in
  let context := formatContext contents in
  mkRetrievalResult context contents searchResult.

End GraphSearch.

(* ===================================================================== *)
(** * SimpleSearch: the retrieval of node contents *)
(* ===================================================================== *)

Module TreeRetrieval.
Import Js TreeGenerator.

(** [RetrievedContent] (the optional relevance score is never written). *)
Record RetrievedContent : Type := mkRetrievedContent {
  rc_nodeId : string;
  rc_title : string;
  rc_text : string;
  rc_summary : string
}.

(** The value [retrieve] resolves to (the elapsed time is left out). *)
Record RetrievalResult : Type := mkRetrievalResult {
  context : string;
  contents : list RetrievedContent;
  nodeList : list string
}.

(** [node.text || node.summary]. *)
Definition textOrSummary (node : TreeNode) : string :=
  match text node with
  | Some t => if (t =? "")%string then summary node else t
  | None => summary node
  end.

(** The record both retrievers push for a node they found. *)
Definition contentOf (node : TreeNode) : RetrievedContent :=
  {| rc_nodeId := nodeId node; rc_title := title node;
     rc_text := textOrSummary node; rc_summary := summary node |}.

Definition lineFeed : string := str ["010"%char].

(** [formatContext], the same text in both classes. *)
Definition formatContext (contents : list RetrievedContent) : string :=
  if (length contents =? 0)%nat then EmptyString
  else join blankLine
         (map (fun c => "### " ++ rc_title c ++ lineFeed ++ rc_text c)%string
              contents).

(** [SimpleSearch.retrieveContent]: every id is looked up in the
    flattened tree. *)
Definition retrieveContent (tree : TreeIndex) (nodeIds : list string)
  : list RetrievedContent :=
  let allNodes := SimpleSearch.flattenTree (nodes tree) in
  flat_map
    (fun id =>
       match find (fun n => (nodeId n =? id)%string) allNodes with
       | Some node => [contentOf node]
       | None => []
       end)
    nodeIds.

(** [SimpleSearch.retrieve]. *)
Definition retrieve (config : SimpleSearch.TreeSearchConfig) (tree : TreeIndex)
    (query : string) : RetrievalResult :=
  let nodeList := SimpleSearch.search config tree query in
  let contents := retrieveContent tree nodeList in
  let context := formatContext contents in
  mkRetrievalResult context contents nodeList.

End TreeRetrieval.

(* ===================================================================== *)
(** * TreeSearch: the retrieval of node contents by id *)
(* ===================================================================== *)

Module TreeSearch.
Import Js TreeGenerator TreeRetrieval.

(** The loop of [findNodeById] over a node list, [visit] being its body:
    the first node for which the body returns. *)
Section FindNode.
Variable visit : TreeNode -> option TreeNode.

Fixpoint firstFound (nodes : list TreeNode) : option TreeNode :=
  match nodes with
  | [] => None
  | node :: rest =>
      match visit node with
      | Some found => Some found
      | None => firstFound rest
      end
  end.
End FindNode.

(** The body of the loop: the node itself when its id matches, otherwise
    what the search of its children finds. *)
Fixpoint visitNode (id : string) (node : TreeNode) : option TreeNode :=
  if (nodeId node =? id)%string then Some node
  else if (0 <? length (children node))%nat
       then firstFound (visitNode id) (children node)
       else None.

Definition findNodeById (nodes : list TreeNode) (id : string) : option TreeNode :=
  firstFound (visitNode id) nodes.

(** [TreeSearch.retrieveContent]: at most [maxResults] ids are looked up. *)
Definition retrieveContent (config : SimpleSearch.TreeSearchConfig)
    (tree : TreeIndex) (nodeIds : list string) : list RetrievedContent :=
  flat_map
    (fun id =>
       match findNodeById (nodes tree) id with
       | Some node => [contentOf node]
       | None => []
       end)
    (firstn (SimpleSearch.maxResults config) nodeIds).

End TreeSearch.

(* ===================================================================== *)
(** * TreeCache: the cache of tree indexes ([utils/cache.ts]) *)
(* ===================================================================== *)

Module TreeCache.
Import Js TreeGenerator.

Record CacheEntry : Type := mkCacheEntry {
  tree : TreeIndex;
  timestamp : Q;
  ttl : Q
}.

(** A JavaScript [Map] with string keys: its entries in insertion order,
    one entry per key. *)
Definition JsMap (V : Type) : Type := list (string * V).

Fixpoint mapGet {V} (key : string) (m : JsMap V) : option V :=
  match m with
  | [] => None
  | (k, v) :: rest => if (k =? key)%string then Some v else mapGet key rest
  end.

(** [m.set(key, v)]: a key already there keeps its place. *)
Fixpoint mapSet {V} (key : string) (v : V) (m : JsMap V) : JsMap V :=
  match m with
  | [] => [(key, v)]
  | (k, x) :: rest =>
      if (k =? key)%string then (key, v) :: rest else (k, x) :: mapSet key v rest
  end.

Definition mapHas {V} (key : string) (m : JsMap V) : bool :=
  match mapGet key m with Some _ => true | None => false end.

Definition mapDelete {V} (key : string) (m : JsMap V) : JsMap V :=
  filter (fun e => negb (fst e =? key)%string) m.

Definition mapKeys {V} (m : JsMap V) : list string := map fst m.

(** The object: its map and its default time to live. *)
Record TreeCache : Type := mkTreeCache {
  cache : JsMap CacheEntry;
  defaultTtl : Q
}.

(** [new TreeCache(defaultTtlMs)], one hour when the argument is absent. *)
Definition create (defaultTtlMs : option Q) : TreeCache :=
  {| cache := [];
     defaultTtl := match defaultTtlMs with Some t => t | None => 3600000 end |}.

(** [Date.now() - entry.timestamp > entry.ttl], [now] being the value
    [Date.now()] returns. *)
Definition expired (now : Q) (entry : CacheEntry) : bool :=
  numLt (ttl entry) (now - timestamp entry).

(** [ttlMs ?? this.defaultTtl]. *)
Definition ttlOr (c : TreeCache) (ttlMs : option Q) : Q :=
  match ttlMs with Some t => t | None => defaultTtl c end.

(** The methods take the object and the clock and return their result
    with the object as they leave it. *)
Definition set (c : TreeCache) (now : Q) (key : string) (t : TreeIndex)
    (ttlMs : option Q) : TreeCache :=
  {| cache := mapSet key (mkCacheEntry t now (ttlOr c ttlMs)) (cache c);
     defaultTtl := defaultTtl c |}.

Definition get (c : TreeCache) (now : Q) (key : string)
  : option TreeIndex * TreeCache :=
  match mapGet key (cache c) with
  | None => (None, c)
  | Some entry =>
      if expired now entry
      then (None, {| cache := mapDelete key (cache c); defaultTtl := defaultTtl c |})
      else (Some (tree entry), c)
  end.

Definition has (c : TreeCache) (now : Q) (key : string) : bool * TreeCache :=
  let (found, c') := get c now key in
  (match found with Some _ => true | None => false end, c').

Definition delete (c : TreeCache) (key : string) : bool * TreeCache :=
  (mapHas key (cache c),
   {| cache := mapDelete key (cache c); defaultTtl := defaultTtl c |}).

Definition clear (c : TreeCache) : TreeCache :=
  {| cache := []; defaultTtl := defaultTtl c |}.

Definition cleanup (c : TreeCache) (now : Q) : TreeCache :=
  {| cache := filter (fun e => negb (expired now (snd e))) (cache c);
     defaultTtl := defaultTtl c |}.

(** [stats()]: the size and the keys, and the object after the clean-up. *)
Definition stats (c : TreeCache) (now : Q) : (nat * list string) * TreeCache :=
  let c' := cleanup c now in
  ((length (cache c'), mapKeys (cache c')), c').

End TreeCache.

(* ===================================================================== *)
(** * GraphOfThought: the entry point ([GraphOfThought.ts]) *)
(* ===================================================================== *)

Module GraphOfThought.
Import Js GraphTypes.

Inductive IndexingMode : Type := graph_mode | tree_mode.

(** [hybridMode], the two options the class reads. *)
Record HybridMode : Type := mkHybridMode {
  autoSwitchThreshold : option Q;
  fallbackToTree : option bool
}.

(** [GoTConfig] after [mergeConfig]: the indexer options are complete
    (the cache and the debug switch do not bear on what is returned). *)
Record GoTConfig : Type := mkGoTConfig {
  indexer : GraphIndexer.GraphIndexerConfig;
  hybridMode : option HybridMode
}.

Definition DEFAULT_CONFIG : GoTConfig :=
  {| indexer := GraphIndexer.mkConfig 3 10 true true 0.1;
     hybridMode := Some {| autoSwitchThreshold := Some 0.2;
                           fallbackToTree := Some true |} |}.

(** [selectIndexingMode], which reads of its argument only
    [documentStats.complexityScore]: [None] when the argument has no such
    property, and a comparison with [undefined] is false. *)
Definition selectIndexingMode (config : GoTConfig) (complexityScore : option Q)
  : IndexingMode :=
  let threshold :=
    match hybridMode config with
    | Some h => match autoSwitchThreshold h with Some t => t | None => 0.2 end
    | None => 0.2
    end in
  if match complexityScore with
     | Some score => numLt threshold score
     | None => false
     end
  then graph_mode
  else if match hybridMode config with
          | Some h => match fallbackToTree h with Some b => b | None => false end
          | None => false
          end
       then tree_mode
       else graph_mode.

(** The section node [convertTreeToGraph] makes of a top-level tree node. *)
Definition sectionOfTreeNode (node : TreeGenerator.TreeNode) : GraphNode :=
  {| nodeId := TreeGenerator.nodeId node;
     title := TreeGenerator.title node;
     content := TreeRetrieval.textOrSummary node;
     summary := TreeGenerator.summary node;
     type := type_section;
     position := mkPosition (TreeGenerator.startIndex node)
                            (TreeGenerator.endIndex node);
     metadata := Some {| level := Some 1%Z; keywords := None; centrality := None |};
     relevanceScore := None |}.

(** [convertTreeToGraph]; [rootId] is the identifier drawn for the root. *)
Definition convertTreeToGraph (rootId : string)
    (treeIndex : TreeGenerator.TreeIndex) : GraphIndex :=
  let nodes := map sectionOfTreeNode (TreeGenerator.nodes treeIndex) in
  let rootNode :=
    {| nodeId := rootId;
       title := TreeGenerator.idx_title treeIndex;
       content := join TreeGenerator.blankLine (map content nodes);
       summary := "Root document node";
       type := type_document;
       position := mkPosition 0 (Z.of_nat (length nodes) - 1);
       metadata := Some {| level := Some 0%Z; keywords := None; centrality := None |};
       relevanceScore := None |} in
  let nodes := rootNode :: nodes in
  let edges :=
    map (fun node => {| from := nodeId rootNode; to := nodeId node;
                        weight := 0.8; edgeType := parent_child |})
        (skipn 1 nodes) in
  {| graphTitle := TreeGenerator.idx_title treeIndex;
     description := TreeGenerator.idx_description treeIndex;
     nodes := nodes; edges := edges;
     nodeCount := length nodes; edgeCount := length edges |}.

(** [index].  The identifiers come from three generators: the graph
    indexer's, the tree generator's and the one of [convertTreeToGraph].
    Without a forced mode, [documentStats] is the promise that
    [analyzeDocument], an [async] method, returned and that [index] does
    not await: an object without a [complexityScore]. *)
Definition index (config : GoTConfig) (genId treeGenId : nat -> string)
    (rootId : string) (content title : string) (description : option string)
    (forceMode : option IndexingMode) : GraphIndex :=
  let graphIndex :=
    GraphIndexer.index (indexer config) genId content title description in
  let treeIndex :=
    TreeGenerator.generateTree TreeGenerator.DEFAULT_CONFIG treeGenId
      content title description in
  match forceMode with
  | Some graph_mode => graphIndex
  | Some tree_mode => convertTreeToGraph rootId treeIndex
  | None =>
      match selectIndexingMode config None with
      | graph_mode => graphIndex
      | tree_mode => convertTreeToGraph rootId treeIndex
      end
  end.

(** The value [getIndexStats] returns. *)
Record IndexStats : Type := mkIndexStats {
  stat_nodeCount : nat;
  stat_edgeCount : nat;
  averageDegree : Q;
  density : Q;
  stat_title : string
}.

Definition getIndexStats (index : GraphIndex) : IndexStats :=
  let nodeCount := length (nodes index) in
  let edgeCount := length (edges index) in
  let averageDegree :=
    if (0 <? nodeCount)%nat
    then (2 * inject_Z (Z.of_nat edgeCount)) / inject_Z (Z.of_nat nodeCount)
    else 0 in
  let maxEdges :=
    inject_Z (Z.of_nat nodeCount) * (inject_Z (Z.of_nat nodeCount) - 1) / 2 in
  let density :=
    if numLt 0 maxEdges then inject_Z (Z.of_nat edgeCount) / maxEdges else 0 in
  {| stat_nodeCount := nodeCount; stat_edgeCount := edgeCount;
     averageDegree := averageDegree; density := density;
     stat_title := graphTitle index |}.

End GraphOfThought.

(* ===================================================================== *)
(** * Facts about loops, sorting and lists *)
(* ===================================================================== *)

Module JsFacts.
Import Js.

Section WhileFacts.
Variable State : Type.
Variable continues : State -> bool.
Variable step : State -> State.

Lemma stateAfter_stopped (n : nat) (st : State) :
  continues st = false -> stateAfter continues step n st = st.
Proof. intros H. destruct n; simpl; [|rewrite H]; reflexivity. Qed.

Lemma stateAfter_add (n m : nat) (st : State) :
  stateAfter continues step (n + m) st
  = stateAfter continues step m (stateAfter continues step n st).
Proof.
  revert st; induction n as [|n IH]; intros st; simpl; [reflexivity|].
  destruct (continues st) eqn:E; [apply IH|].
  symmetry; apply stateAfter_stopped; exact E.
Qed.

(** The binary bound runs the same turns as the unary one. *)
Lemma whileWithin_stateAfter (p : positive) (st : State) :
  whileWithin continues step p st = stateAfter continues step (Pos.to_nat p) st.
Proof.
  revert st; induction p as [p IH|p IH|]; intros st.
  - rewrite Pos2Nat.inj_xI. simpl whileWithin.
    change (S (2 * Pos.to_nat p)) with (S (Pos.to_nat p + (Pos.to_nat p + 0))).
    rewrite Nat.add_0_r. simpl stateAfter.
    destruct (continues st); [|reflexivity].
    rewrite stateAfter_add, !IH.
    destruct (continues (stateAfter continues step (Pos.to_nat p) (step st))) eqn:E.
    + reflexivity.
    + symmetry; apply stateAfter_stopped; exact E.
  - rewrite Pos2Nat.inj_xO. simpl whileWithin.
    change (2 * Pos.to_nat p)%nat with (Pos.to_nat p + (Pos.to_nat p + 0))%nat.
    rewrite Nat.add_0_r, stateAfter_add, !IH.
    destruct (continues (stateAfter continues step (Pos.to_nat p) st)) eqn:E.
    + reflexivity.
    + symmetry; apply stateAfter_stopped; exact E.
  - reflexivity.
Qed.

(** A property the loop body keeps holds after any number of turns. *)
Lemma stateAfter_invariant (Inv : State -> Prop) :
  (forall st, Inv st -> continues st = true -> Inv (step st)) ->
  forall n st, Inv st -> Inv (stateAfter continues step n st).
Proof.
  intros Hstep n; induction n as [|n IH]; intros st Hst; simpl; [exact Hst|].
  destruct (continues st) eqn:E; [|exact Hst].
  apply IH, Hstep; assumption.
Qed.

(** A measure the loop body decreases bounds the number of turns. *)
Lemma stateAfter_terminates (measure : State -> nat) :
  (forall st, continues st = true -> (measure (step st) < measure st)%nat) ->
  forall n st, (measure st <= n)%nat ->
  continues (stateAfter continues step n st) = false.
Proof.
  intros Hdec n; induction n as [|n IH]; intros st Hn; simpl.
  - destruct (continues st) eqn:E; [|reflexivity].
    specialize (Hdec st E). lia.
  - destruct (continues st) eqn:E; [|exact E].
    apply IH. specialize (Hdec st E). lia.
Qed.

End WhileFacts.

Section SortFacts.
Variable A : Type.
Variable before : A -> A -> bool.

Lemma insertSorted_perm (x : A) (l : list A) :
  Permutation (x :: l) (insertSorted before x l).
Proof.
  induction l as [|y r IH]; simpl; [reflexivity|].
  destruct (before x y); [reflexivity|].
  rewrite perm_swap. constructor. exact IH.
Qed.

Lemma sort_perm (l : list A) : Permutation l (sort before l).
Proof.
  induction l as [|x r IH]; simpl; [constructor|].
  rewrite <- insertSorted_perm. constructor. exact IH.
Qed.

Lemma sort_length (l : list A) : length (sort before l) = length l.
Proof. symmetry. apply Permutation_length, sort_perm. Qed.

Lemma sort_In (x : A) (l : list A) : In x (sort before l) <-> In x l.
Proof.
  split; apply Permutation_in; [symmetry|]; apply sort_perm.
Qed.

Variable R : A -> A -> Prop.
Hypothesis before_R : forall a b, before a b = true -> R a b.
Hypothesis R_total : forall a b, before a b = false -> R b a.
Hypothesis R_trans : forall a b c, R a b -> R b c -> R a c.

Lemma insertSorted_sorted (x : A) (l : list A) :
  StronglySorted R l -> StronglySorted R (insertSorted before x l).
Proof.
  induction 1 as [|y r Hs IH Hy]; simpl.
  - constructor; constructor.
  - destruct (before x y) eqn:E.
    + constructor; [constructor; assumption|].
      constructor; [apply before_R; exact E|].
      apply before_R in E.
      eapply Forall_impl; [|exact Hy]. intros z Hz. eapply R_trans; eassumption.
    + constructor; [exact IH|].
      apply R_total in E.
      eapply Permutation_Forall; [apply insertSorted_perm|].
      constructor; assumption.
Qed.

Lemma sort_sorted (l : list A) : StronglySorted R (sort before l).
Proof.
  induction l as [|x r IH]; simpl; [constructor|].
  apply insertSorted_sorted, IH.
Qed.

End SortFacts.

Lemma In_firstn {A} (x : A) (n : nat) (l : list A) :
  In x (firstn n l) -> In x l.
Proof.
  intros H. rewrite <- (firstn_skipn n l). apply in_or_app. left; exact H.
Qed.

Lemma StronglySorted_firstn {A} (R : A -> A -> Prop) (n : nat) (l : list A) :
  StronglySorted R l -> StronglySorted R (firstn n l).
Proof.
  intros H; revert n; induction H as [|x r Hs IH Hx]; intros [|n]; simpl;
    try constructor.
  - apply IH.
  - rewrite Forall_forall in *. intros y Hy. apply Hx.
    eapply In_firstn. exact Hy.
Qed.

Lemma NoDup_firstn {A} (n : nat) (l : list A) : NoDup l -> NoDup (firstn n l).
Proof.
  intros H. rewrite <- (firstn_skipn n l) in H.
  eapply NoDup_app_remove_r; exact H.
Qed.

Lemma Forall_firstn {A} (P : A -> Prop) (n : nat) (l : list A) :
  Forall P l -> Forall P (firstn n l).
Proof.
  rewrite !Forall_forall. intros H x Hx. apply H. eapply In_firstn; exact Hx.
Qed.

Lemma mem_In (x : string) (l : list string) : mem x l = true <-> In x l.
Proof.
  unfold mem. rewrite existsb_exists. split.
  - intros [y [Hy E]]. apply String.eqb_eq in E. subst; assumption.
  - intros H. exists x. split; [assumption|apply String.eqb_refl].
Qed.

Lemma mem_false (x : string) (l : list string) : mem x l = false <-> ~ In x l.
Proof.
  rewrite <- mem_In. destruct (mem x l); split; congruence.
Qed.

Lemma numLe_spec (a b : Q) : numLe a b = true <-> a <= b.
Proof. apply Qle_bool_iff. Qed.

Lemma numLt_spec (a b : Q) : numLt a b = true <-> a < b.
Proof.
  unfold numLt. rewrite negb_true_iff. split.
  - intros H. apply Qnot_le_lt. intros Hle. apply Qle_bool_iff in Hle. congruence.
  - intros H. destruct (Qle_bool b a) eqn:E; [|reflexivity].
    apply Qle_bool_iff in E. exfalso. eapply Qlt_not_le; eassumption.
Qed.

Lemma numLt_false (a b : Q) : numLt a b = false <-> b <= a.
Proof.
  unfold numLt. rewrite negb_false_iff. apply Qle_bool_iff.
Qed.

Lemma numLe_false (a b : Q) : numLe a b = false <-> b < a.
Proof.
  rewrite <- numLt_spec. unfold numLt, numLe.
  destruct (Qle_bool a b); simpl; split; congruence.
Qed.

End JsFacts.

(* ===================================================================== *)
(** * The two heading classifiers *)
(* ===================================================================== *)

Module ClassifierFacts.
Import Js.

Lemma matchMarkdown_starts (p : string) (m : string * string) :
  matchMarkdown p = Some m ->
  exists c r, chars p = c :: r /\ isChar 35 c = true.
Proof.
  unfold matchMarkdown. destruct (chars p) as [|c r]; simpl; [discriminate|].
  destruct (isChar 35 c) eqn:E; simpl; [|discriminate].
  intros _. exists c, r. split; [reflexivity|exact E].
Qed.

Lemma matchNumbered_starts (p : string) (m : string * string) :
  matchNumbered p = Some m ->
  exists c r, chars p = c :: r /\ isDigit c = true.
Proof.
  unfold matchNumbered. destruct (chars p) as [|c r]; [discriminate|].
  destruct (isDigit c) eqn:E; [|discriminate].
  intros _. exists c, r. split; [reflexivity|exact E].
Qed.

Lemma hash_not_digit (c : ascii) : isChar 35 c = true -> isDigit c = false.
Proof.
  unfold isChar, isDigit. intros H. apply Nat.eqb_eq in H. rewrite H. reflexivity.
Qed.

(** A paragraph cannot match both the Markdown and the numbered pattern:
    the order in which the two classifiers try them does not matter. *)
Lemma markdown_numbered_exclusive (p : string) (m n : string * string) :
  matchMarkdown p = Some m -> matchNumbered p = Some n -> False.
Proof.
  intros Hm Hn.
  apply matchMarkdown_starts in Hm. destruct Hm as [c [r [E Hc]]].
  apply matchNumbered_starts in Hn. destruct Hn as [d [r' [E' Hd]]].
  rewrite E in E'. injection E' as <- <-.
  apply hash_not_digit in Hc. congruence.
Qed.

(** C9, counterexample: the Segmenter takes the short label ["Notes:"] for
    a heading, the GraphIndexer's classifier takes it for body text. *)
Lemma classifiers_disagree_on_label :
  TreeGenerator.isHeading
    (TreeGenerator.analyzeParagraphForSection TreeGenerator.DEFAULT_CONFIG
       Samples.labelParagraph) = true
  /\ GraphIndexer.isSection (GraphIndexer.analyzeParagraph Samples.labelParagraph) = false.
Proof. split; reflexivity. Qed.

(** C9, amended: with no custom patterns the Segmenter's classifier agrees
    with the GraphIndexer's on every paragraph the GraphIndexer calls a
    heading (same title, same level); on the others it still calls the
    label-like paragraphs headings of level 1, their trailing colons
    stripped, and only the rest body text. *)
Theorem segmenter_extends_graph_classifier
    (config : TreeGenerator.TreeGeneratorConfig) (paragraph : string) :
  TreeGenerator.headingPatterns config = [] ->
  TreeGenerator.analyzeParagraphForSection config paragraph
  = let g := GraphIndexer.analyzeParagraph paragraph in
    if GraphIndexer.isSection g
    then TreeGenerator.mkSectionInfo true
           (GraphIndexer.info_title g) (GraphIndexer.info_level g)
    else if TreeGenerator.looksLikeLabel paragraph
    then TreeGenerator.mkSectionInfo true (stripTrailingColons paragraph) 1
    else TreeGenerator.mkSectionInfo false "" 0.
Proof.
  intros Hcfg.
  unfold TreeGenerator.analyzeParagraphForSection, GraphIndexer.analyzeParagraph.
  rewrite Hcfg. simpl TreeGenerator.matchCustomPatterns.
  destruct (matchMarkdown paragraph) as [[hashes rest]|] eqn:Hm;
    destruct (matchNumbered paragraph) as [[num rest']|] eqn:Hn.
  - exfalso. eapply markdown_numbered_exclusive; eassumption.
  - reflexivity.
  - reflexivity.
  - cbv zeta.
    destruct (testCommonSections paragraph && (String.length paragraph <? 50)%nat);
      reflexivity.
Qed.

(** The theorem at the default configuration and the label paragraph. *)
Lemma segmenter_extends_graph_classifier_witness :
  TreeGenerator.analyzeParagraphForSection TreeGenerator.DEFAULT_CONFIG Samples.labelParagraph
  = TreeGenerator.mkSectionInfo true "Notes" 1.
Proof.
  rewrite (segmenter_extends_graph_classifier TreeGenerator.DEFAULT_CONFIG
             Samples.labelParagraph eq_refl).
  reflexivity.
Defined.

End ClassifierFacts.

(* ===================================================================== *)
(** * Paragraph splitting *)
(* ===================================================================== *)

Module ParagraphFacts.
Import Js JsFacts.

Definition blankChars (l : list ascii) : Prop := Forall (fun c => isSpace c = true) l.

Lemma chars_str (l : list ascii) : chars (str l) = l.
Proof. apply list_ascii_of_string_of_list_ascii. Qed.

Lemma dropWhile_incl {A} (p : A -> bool) (l : list A) (x : A) :
  In x (dropWhile p l) -> In x l.
Proof.
  induction l as [|y r IH]; simpl; [tauto|].
  destruct (p y); [right; apply IH; assumption | tauto].
Qed.

Lemma takeWhile_incl {A} (p : A -> bool) (l : list A) (x : A) :
  In x (takeWhile p l) -> In x l.
Proof.
  induction l as [|y r IH]; simpl; [tauto|].
  destruct (p y); simpl; [intros [H|H]; [left|right; apply IH]; assumption | tauto].
Qed.

Lemma afterLastLf_incl (run t : list ascii) (x : ascii) :
  afterLastLf run = Some t -> In x t -> In x run.
Proof.
  revert t; induction run as [|c r IH]; intros t; simpl; [discriminate|].
  destruct (afterLastLf r) as [t'|].
  - intros [= <-] H. right. eapply IH; [reflexivity|exact H].
  - destruct (isChar 10 c); [intros [= <-] H; right; exact H | discriminate].
Qed.

Lemma matchSeparator_incl (l t : list ascii) (x : ascii) :
  matchSeparator l = Some t -> In x t -> In x l.
Proof.
  unfold matchSeparator.
  destruct (afterLastLf (takeWhile isSpace l)) as [u|] eqn:E; [|discriminate].
  intros [= <-] H. apply in_app_or in H. destruct H as [H|H].
  - eapply takeWhile_incl, afterLastLf_incl; eassumption.
  - eapply dropWhile_incl; eassumption.
Qed.

Lemma separatorAt_incl (l : list ascii) (t : list ascii)
    (H : (length t < length l)%nat) (x : ascii) :
  separatorAt l = Some (exist _ t H) -> In x t -> In x l.
Proof.
  unfold separatorAt.
  generalize (@matchSeparator_length l).
  generalize (@matchSeparator_incl l).
  destruct (matchSeparator l) as [u|]; intros Hincl Hlen; [|discriminate].
  intros [= <-]. apply Hincl. reflexivity.
Qed.

(** Splitting a text of blanks gives pieces of blanks. *)
Lemma splitParagraphsFrom_blank (cur l : list ascii) :
  blankChars cur -> blankChars l ->
  Forall (fun s => blankChars (chars s)) (splitParagraphsFrom cur l).
Proof.
  unfold blankChars.
  funelim (splitParagraphsFrom cur l); intros Hcur Hl.
  - constructor; [|constructor]. rewrite chars_str.
    apply Forall_rev. exact Hcur.
  - apply H; [|inversion Hl; assumption].
    constructor; [inversion Hl|]; assumption.
  - constructor.
    + rewrite chars_str. apply Forall_rev. exact Hcur.
    + apply H; [constructor|].
      rewrite Forall_forall. intros x Hx.
      inversion Hl as [|? ? _ Hr]; subst.
      rewrite Forall_forall in Hr. apply Hr.
      eapply separatorAt_incl; eassumption.
  - apply H; [|inversion Hl; assumption].
    constructor; [inversion Hl|]; assumption.
Qed.

Lemma dropWhile_all {A} (p : A -> bool) (l : list A) :
  Forall (fun x => p x = true) l -> dropWhile p l = [].
Proof.
  induction 1 as [|x r Hx _ IH]; simpl; [reflexivity|].
  rewrite Hx. exact IH.
Qed.

Lemma trim_blank (s : string) : blankChars (chars s) -> trim s = EmptyString.
Proof.
  intros H. unfold trim, trimChars.
  rewrite (@dropWhile_all _ isSpace _ H). reflexivity.
Qed.

(** A text made of blanks only has no paragraph. *)
Lemma no_paragraph_in_blank_text (content : string) :
  forallb isSpace (chars content) = true ->
  filter (fun p => (0 <? String.length p)%nat) (map trim (splitBlankLines content)) = [].
Proof.
  intros H. rewrite forallb_forall in H.
  assert (Hb : blankChars (chars content))
    by (apply Forall_forall; exact H).
  pose proof (@splitParagraphsFrom_blank [] (chars content) (Forall_nil _) Hb) as Hp.
  unfold splitBlankLines.
  induction Hp as [|s r Hs _ IH]; simpl; [reflexivity|].
  rewrite (@trim_blank s Hs). simpl. exact IH.
Qed.

End ParagraphFacts.

(* ===================================================================== *)
(** * The graph index *)
(* ===================================================================== *)

Module GraphIndexFacts.
Import Js JsFacts GraphTypes GraphIndexer.

Section Indexer.
Variable config : GraphIndexerConfig.
Variable genId : nat -> string.

Lemma sectionNodes_type (paragraphs : list string) (i : Z) (drawn : nat) :
  Forall (fun n => type n = type_section) (sectionNodes genId paragraphs i drawn).
Proof.
  revert i drawn; induction paragraphs as [|p r IH]; intros i drawn; simpl.
  - constructor.
  - destruct (isSection (analyzeParagraph p)); [constructor; [reflexivity|]|]; apply IH.
Qed.

(** Every section node gets its parent-child edge from the root. *)
Lemma parentChildEdges_sections (parent : GraphNode) (others : list GraphNode) :
  Forall (fun n => type n = type_section) others ->
  parentChildEdges parent others
  = map (fun child => mkGraphEdge (nodeId parent) (nodeId child) 0.8 parent_child)
        others.
Proof.
  induction 1 as [|n r Hn _ IH]; simpl; [reflexivity|].
  rewrite Hn. simpl. f_equal. exact IH.
Qed.

Lemma semanticEdges_type (others : list GraphNode) :
  Forall (fun e => edgeType e = semantic) (semanticEdges config others).
Proof.
  induction others as [|a r IH]; simpl; [constructor|].
  apply Forall_app. split; [|exact IH].
  rewrite Forall_forall. intros e He. apply in_flat_map in He.
  destruct He as [b [_ He]].
  destruct (numLt (minEdgeWeight config) (calculateSemanticSimilarity a b));
    simpl in He; [destruct He as [<-|[]]; reflexivity | contradiction].
Qed.

Lemma precompute_ids (nodes : list GraphNode) (edges : list GraphEdge) :
  map nodeId (precomputeNodeRelationships nodes edges) = map nodeId nodes.
Proof.
  unfold precomputeNodeRelationships. rewrite map_map. reflexivity.
Qed.

Lemma precompute_types (nodes : list GraphNode) (edges : list GraphEdge) :
  map type (precomputeNodeRelationships nodes edges) = map type nodes.
Proof.
  unfold precomputeNodeRelationships. rewrite map_map. reflexivity.
Qed.

(** The ids and types of the indexed nodes are those [createGraphNodes]
    gave them. *)
Lemma index_ids (content title : string) (description : option string) :
  map nodeId (nodes (index config genId content title description))
  = map nodeId (createGraphNodes genId (splitIntoParagraphs content) title).
Proof.
  unfold index. cbv zeta. cbn [nodes].
  destruct (precomputeRelationships config); [apply precompute_ids|reflexivity].
Qed.

Lemma index_types (content title : string) (description : option string) :
  map type (nodes (index config genId content title description))
  = map type (createGraphNodes genId (splitIntoParagraphs content) title).
Proof.
  unfold index. cbv zeta. cbn [nodes].
  destruct (precomputeRelationships config); [apply precompute_types|reflexivity].
Qed.

Lemma index_edges (content title : string) (description : option string) :
  edges (index config genId content title description)
  = identifyRelationships config
      (createGraphNodes genId (splitIntoParagraphs content) title).
Proof. reflexivity. Qed.

End Indexer.

(** Among nodes of distinct ids, exactly one edge of a family indexed by
    the nodes arrives at a given node. *)
Lemma one_edge_per_node (mk : GraphNode -> GraphEdge) (l : list GraphNode)
    (id : string) :
  (forall n, edgeType (mk n) = parent_child /\ to (mk n) = nodeId n) ->
  NoDup (map nodeId l) ->
  forall n, In n l -> nodeId n = id ->
  filter (fun e => EdgeType_eqb (edgeType e) parent_child && (to e =? id)%string)
         (map mk l) = [mk n].
Proof.
  intros Hmk. induction l as [|x r IH]; intros Hnd n Hin Hid; [contradiction|].
  simpl in Hnd. inversion Hnd as [|? ? Hx Hr]; subst.
  simpl. destruct (Hmk x) as [Ht Hto]. rewrite Ht, Hto. simpl.
  destruct Hin as [->|Hin].
  - rewrite String.eqb_refl. f_equal.
    clear IH Hnd Hr Ht Hto. induction r as [|y r IH]; simpl; [reflexivity|].
    destruct (Hmk y) as [Ht Hto]. rewrite Ht, Hto. simpl.
    destruct (String.eqb_spec (nodeId y) (nodeId n)) as [E|_].
    + exfalso. apply Hx. left. exact E.
    + apply IH. intros H. apply Hx. right. exact H.
  - destruct (String.eqb_spec (nodeId x) (nodeId n)) as [E|_].
    + exfalso. apply Hx. rewrite E. apply in_map. exact Hin.
    + apply IH; [assumption..|reflexivity].
Qed.

Lemma no_semantic_incoming (l : list GraphEdge) (id : string) :
  Forall (fun e => edgeType e = semantic) l ->
  filter (fun e => EdgeType_eqb (edgeType e) parent_child && (to e =? id)%string) l
  = [].
Proof.
  induction 1 as [|e r He _ IH]; simpl; [reflexivity|].
  rewrite He. simpl. exact IH.
Qed.

(** C3, the code at the failing input: with [enableCrossReferences] off,
    the section node of a one-section text has no incoming parent-child
    edge at all.  The guard of [identifyRelationships] returns before the
    loop of the parent-child edges, not only before the loop of the cross
    references that the option is documented to switch. *)
Lemma no_parent_edge_without_cross_references :
  let g := index Samples.noCrossReferences Samples.sampleId "# Intro" "Doc" None in
  map nodeId (nodes g) = ["node_0"; "node_1"]%string
  /\ map type (nodes g) = [type_document; type_section]
  /\ Spec.incomingParentChild g "node_1" = [].
Proof. vm_compute. repeat split. Qed.

(** What [index] gives on either side of the guard.  With
    [enableCrossReferences] on and node ids distinct, every node behind
    the document root has exactly one incoming parent-child edge, from the
    root and of weight 0.8; with the option off the early
    return leaves the index without any edge. *)
Theorem parent_child_edges_follow_the_flag
    (config : GraphIndexerConfig) (genId : nat -> string)
    (content title : string) (description : option string) :
  let g := index config genId content title description in
  NoDup (map nodeId (nodes g)) ->
  exists root others,
    nodes g = root :: others
    /\ type root = type_document
    /\ Forall (fun n => type n = type_section) others
    /\ (enableCrossReferences config = false -> edges g = [])
    /\ (enableCrossReferences config = true ->
        forall n, In n others ->
        Spec.incomingParentChild g (nodeId n)
        = [mkGraphEdge (nodeId root) (nodeId n) 0.8 parent_child]).
Proof.
  intros g Hnd.
  pose proof (index_ids config genId content title description) as Hids.
  pose proof (index_types config genId content title description) as Htys.
  pose proof (index_edges config genId content title description) as Hedges.
  fold g in Hids, Htys, Hedges.
  set (paragraphs := splitIntoParagraphs content) in *.
  unfold createGraphNodes in Hids, Htys, Hedges.
  set (raw := sectionNodes genId paragraphs 0 1) in *.
  destruct (nodes g) as [|root others] eqn:Hg; [discriminate|].
  simpl in Hids, Htys. injection Hids as Hroot Hothers.
  injection Htys as Htroot Htothers.
  exists root, others. split; [reflexivity|]. split; [exact Htroot|].
  assert (Hsec : Forall (fun n => type n = type_section) others).
  { pose proof (sectionNodes_type genId paragraphs 0 1) as H. fold raw in H.
    rewrite Forall_forall. intros n Hn.
    apply (in_map type) in Hn. rewrite Htothers in Hn.
    apply in_map_iff in Hn. destruct Hn as [m [Hm Hin]].
    rewrite Forall_forall in H. rewrite <- Hm. apply H. exact Hin. }
  split; [exact Hsec|].
  unfold identifyRelationships in Hedges.
  split.
  - intros Hoff. rewrite Hedges, Hoff. reflexivity.
  - intros Hon n Hn. unfold Spec.incomingParentChild.
    rewrite Hedges, Hon. simpl negb. cbv iota.
    rewrite filter_app.
    rewrite (no_semantic_incoming (nodeId n) (semanticEdges_type config raw)).
    rewrite app_nil_r.
    rewrite parentChildEdges_sections by apply sectionNodes_type.
    apply (in_map nodeId) in Hn. rewrite Hothers in Hn.
    apply in_map_iff in Hn. destruct Hn as [m [Hm Hin]].
    simpl in Hnd. inversion Hnd as [|? ? _ Hnd']; subst.
    rewrite Hothers in Hnd'.
    erewrite one_edge_per_node;
      [ | intros; split; reflexivity | exact Hnd' | exact Hin | exact Hm ].
    cbn [nodeId]. rewrite Hm, Hroot. reflexivity.
Qed.

(** The theorem at the scenario text: the first section hangs under the
    root by one edge. *)
Lemma parent_child_edges_follow_the_flag_witness :
  Spec.incomingParentChild
    (index DEFAULT_CONFIG Samples.sampleId Samples.twoSections "Doc" None)
    "node_1"
  = [mkGraphEdge "node_0" "node_1" 0.8 parent_child].
Proof.
  destruct (@parent_child_edges_follow_the_flag DEFAULT_CONFIG Samples.sampleId
              Samples.twoSections "Doc" None)
    as [root [others [Hn [_ [_ [_ H]]]]]].
  - vm_compute. repeat constructor; simpl; intuition discriminate.
  - vm_compute in Hn. injection Hn as <- <-.
    exact (H eq_refl _ (or_introl eq_refl)).
Defined.

(** C5, counterexample: the graph index of the empty text is not empty,
    it holds the document root. *)
Lemma graph_index_of_empty_text_has_a_node :
  length (nodes (index DEFAULT_CONFIG Samples.sampleId "" "Doc" None)) <> 0%nat.
Proof. vm_compute. discriminate. Qed.

(** C5, amended: for a text of blanks only (the empty text included)
    [generateTree] returns no node, and [GraphIndexer.index] returns
    exactly one node, the document root, and no edge. *)
Theorem blank_text_indexes
    (treeConfig : TreeGenerator.TreeGeneratorConfig) (treeId : nat -> string)
    (config : GraphIndexerConfig) (genId : nat -> string)
    (content title : string) (description : option string) :
  forallb isSpace (chars content) = true ->
  TreeGenerator.nodes
    (TreeGenerator.generateTree treeConfig treeId content title description) = []
  /\ (exists root,
        nodes (index config genId content title description) = [root]
        /\ type root = type_document)
  /\ edges (index config genId content title description) = [].
Proof.
  intros Hblank.
  pose proof (ParagraphFacts.no_paragraph_in_blank_text content Hblank) as Hp.
  split; [|split].
  - unfold TreeGenerator.generateTree, TreeGenerator.splitIntoParagraphs.
    rewrite Hp. reflexivity.
  - unfold index, splitIntoParagraphs. rewrite Hp. cbv zeta. cbn [nodes].
    destruct (precomputeRelationships config); eexists; split; reflexivity.
  - rewrite index_edges. unfold splitIntoParagraphs. rewrite Hp.
    unfold identifyRelationships.
    destruct (enableCrossReferences config); reflexivity.
Qed.

(** The theorem at a text of blanks and line feeds. *)
Lemma blank_text_indexes_witness :
  TreeGenerator.nodes
    (TreeGenerator.generateTree TreeGenerator.DEFAULT_CONFIG Samples.sampleId
       Samples.blankText "Doc" None) = []
  /\ (exists root,
        nodes (index DEFAULT_CONFIG Samples.sampleId Samples.blankText "Doc" None)
        = [root]
        /\ type root = type_document)
  /\ edges (index DEFAULT_CONFIG Samples.sampleId Samples.blankText "Doc" None) = [].
Proof.
  apply (@blank_text_indexes TreeGenerator.DEFAULT_CONFIG Samples.sampleId
           DEFAULT_CONFIG Samples.sampleId Samples.blankText "Doc" None).
  reflexivity.
Defined.

Lemma findNode_id (g : GraphIndex) (id : string) (n : GraphNode) :
  findNode g id = Some n -> nodeId n = id.
Proof.
  unfold findNode. intros H. apply find_some in H. destruct H as [_ H].
  apply String.eqb_eq. exact H.
Qed.

Lemma findNode_present (g : GraphIndex) (id : string) :
  Spec.present g id = match findNode g id with Some _ => true | None => false end.
Proof.
  unfold Spec.present, findNode.
  induction (nodes g) as [|n r IH]; simpl; [reflexivity|].
  destruct (nodeId n =? id)%string; [reflexivity|exact IH].
Qed.

(** [retrieveContent] keeps the ids that name a node, in their order. *)
Lemma retrieveContent_ids (g : GraphIndex) (ids : list string) :
  map r_nodeId (retrieveContent g ids) = filter (Spec.present g) ids.
Proof.
  unfold retrieveContent.
  induction ids as [|id r IH]; simpl; [reflexivity|].
  rewrite findNode_present.
  destruct (findNode g id) as [n|] eqn:E; simpl; [|exact IH].
  rewrite (findNode_id _ _ E). f_equal. exact IH.
Qed.

Lemma nodeScores_missing (g : GraphIndex) (path : list string) :
  Forall2 (fun id s => Spec.present g id = false -> s = 0)
          path (Search.nodeScores g path).
Proof.
  unfold Search.nodeScores.
  induction path as [|id r IH]; simpl; constructor; [|exact IH].
  rewrite findNode_present. destruct (findNode g id); [discriminate|reflexivity].
Qed.

(** C8, counterexample: an id that names no node makes neither operation
    throw; retrieval returns an empty list and the path score is 0. *)
Lemma missing_id_does_not_throw :
  Spec.present Samples.emptyGraph "ghost" = false
  /\ retrieveContent_call Samples.emptyGraph ["ghost"%string] = Returns []
  /\ exists s,
       OptimizedBMSSP.calculatePathScore_call
         ["ghost"; "phantom"]%string Samples.emptyGraph = Returns s
       /\ s == 0.
Proof.
  split; [reflexivity|]. split; [reflexivity|].
  eexists. split; [reflexivity|]. vm_compute. reflexivity.
Qed.

(** The last [map] of [retrieveContent] is only given nodes that are
    there: the call returns, with the value of [retrieveContent]. *)
Lemma retrieveContent_call_returns (g : GraphIndex) (nodeIds : list string) :
  retrieveContent_call g nodeIds = Returns (retrieveContent g nodeIds).
Proof.
  unfold retrieveContent_call, retrieveContent. cbv zeta.
  induction nodeIds as [|id r IH]; [reflexivity|].
  cbn [map]. destruct (findNode g id) as [n|].
  - cbn [filter flat_map app map mapArray readObject bind].
    rewrite IH. reflexivity.
  - cbn [filter flat_map app]. exact IH.
Qed.

Lemma edgeWeightSum_call_returns (g : GraphIndex) (path : list string) :
  OptimizedBMSSP.edgeWeightSum_call g path = Returns (Search.edgeWeightSum g path).
Proof.
  induction path as [|a [|b rest] IH]; try reflexivity.
  change (bind (OptimizedBMSSP.edgeWeight_call g a b) (fun w =>
          bind (OptimizedBMSSP.edgeWeightSum_call g (b :: rest))
               (fun sum => Returns (w + sum)))
          = Returns (match Search.findEdge g a b with
                     | Some e => weight e
                     | None => 0
                     end + Search.edgeWeightSum g (b :: rest))).
  rewrite IH. unfold OptimizedBMSSP.edgeWeight_call.
  destruct (Search.findEdge g a b); reflexivity.
Qed.

Lemma nodeScores_call_returns (g : GraphIndex) (path : list string) :
  mapArray (OptimizedBMSSP.nodeScore_call g) path = Returns (Search.nodeScores g path).
Proof.
  unfold Search.nodeScores.
  induction path as [|id r IH]; [reflexivity|].
  cbn [mapArray map]. rewrite IH. unfold OptimizedBMSSP.nodeScore_call.
  destruct (findNode g id); reflexivity.
Qed.

(** Both reads of [calculatePathScore] stand behind their test: the call
    returns, with the value of [calculatePathScore]. *)
Lemma calculatePathScore_call_returns (path : list string) (g : GraphIndex) :
  OptimizedBMSSP.calculatePathScore_call path g
  = Returns (OptimizedBMSSP.calculatePathScore path g).
Proof.
  unfold OptimizedBMSSP.calculatePathScore_call, OptimizedBMSSP.calculatePathScore.
  destruct (length path <? 2)%nat; [reflexivity|].
  rewrite edgeWeightSum_call_returns, nodeScores_call_returns. reflexivity.
Qed.

Lemma findEdge_none (g : GraphIndex) (a b : string) :
  (forall e, In e (edges g) -> ~ Spec.joinsIds e a b) ->
  Search.findEdge g a b = None.
Proof.
  intros H. unfold Search.findEdge.
  destruct (find _ (edges g)) as [e|] eqn:E; [|reflexivity].
  apply find_some in E. destruct E as [Hin Hj]. exfalso. apply (H e Hin).
  unfold Spec.joinsIds. apply orb_true_iff in Hj.
  destruct Hj as [Hj|Hj]; apply andb_true_iff in Hj; destruct Hj as [H1 H2];
    apply String.eqb_eq in H1, H2; [left|right]; split; assumption.
Qed.

(** The edge weights the loop adds and the node scores [path.map] gives
    are the contributions of the steps and of the ids of the path. *)
Lemma edgeWeightSum_contributions (g : GraphIndex) (path : list string) :
  exists edgeWeights,
    Forall2 (Spec.edgeContribution g) (Spec.steps path) edgeWeights
    /\ Search.edgeWeightSum g path = Spec.total edgeWeights.
Proof.
  induction path as [|a [|b rest] IH].
  - exists []. split; [constructor|reflexivity].
  - exists []. split; [constructor|reflexivity].
  - destruct IH as [ws [Hws Esum]].
    exists (match Search.findEdge g a b with Some e => weight e | None => 0 end :: ws).
    split.
    + unfold Spec.steps. cbn [tl combine]. constructor; [|exact Hws].
      split; cbn [fst snd].
      * intros Hno. rewrite (@findEdge_none g a b Hno). reflexivity.
      * intros e He. rewrite He. reflexivity.
    + change (match Search.findEdge g a b with
              | Some e => weight e
              | None => 0
              end + Search.edgeWeightSum g (b :: rest)
              = match Search.findEdge g a b with
                | Some e => weight e
                | None => 0
                end + Spec.total ws).
      rewrite Esum. reflexivity.
Qed.

Lemma nodeScores_contributions (g : GraphIndex) (path : list string) :
  Forall2 (Spec.nodeContribution g) path (Search.nodeScores g path).
Proof.
  unfold Search.nodeScores.
  induction path as [|id r IH]; simpl; constructor; [|exact IH].
  split.
  - rewrite findNode_present. destruct (findNode g id); [discriminate|reflexivity].
  - intros n Hn. rewrite Hn. reflexivity.
Qed.

Lemma sumQ_total (l : list Q) : sumQ l == Spec.total l.
Proof.
  unfold sumQ.
  assert (H : forall a, fold_left Qplus l a == a + Spec.total l).
  { induction l as [|x r IH]; intros a; simpl; [ring|]. rewrite IH. ring. }
  rewrite H. ring.
Qed.

(** C8, amended: retrieval and path scoring return on every graph and
    every id list.  Retrieval skips the ids that name no node and keeps
    the others in order.  The path score returned is the score made of
    the contributions of the steps and of the ids of the path, where an
    id that names no node contributes 0 to the node scores and a step
    that no edge joins contributes 0 to the edge weights. *)
Theorem missing_ids_are_skipped
    (g : GraphIndex) (nodeIds path : list string) :
  (exists records,
     retrieveContent_call g nodeIds = Returns records
     /\ map r_nodeId records = filter (Spec.present g) nodeIds)
  /\ (exists s edgeWeights nodeScores,
        OptimizedBMSSP.calculatePathScore_call path g = Returns s
        /\ Forall2 (Spec.edgeContribution g) (Spec.steps path) edgeWeights
        /\ Forall2 (Spec.nodeContribution g) path nodeScores
        /\ s == Spec.pathScoreOf (length path) edgeWeights nodeScores).
Proof.
  split.
  - exists (retrieveContent g nodeIds).
    split; [apply retrieveContent_call_returns|apply retrieveContent_ids].
  - destruct (edgeWeightSum_contributions g path) as [ws [Hws Esum]].
    exists (OptimizedBMSSP.calculatePathScore path g), ws, (Search.nodeScores g path).
    split; [apply calculatePathScore_call_returns|].
    split; [exact Hws|]. split; [apply nodeScores_contributions|].
    unfold OptimizedBMSSP.calculatePathScore, Spec.pathScoreOf.
    destruct (length path <? 2)%nat eqn:E; [reflexivity|].
    apply Nat.ltb_ge in E. cbv zeta.
    assert (El : length (Search.nodeScores g path) = length path)
      by (unfold Search.nodeScores; apply length_map).
    rewrite El, !Nat.max_l by lia.
    rewrite Esum, sumQ_total. reflexivity.
Qed.

End GraphIndexFacts.

(* ===================================================================== *)
(** * The section tree *)
(* ===================================================================== *)

Module TreeFacts.
Import Js JsFacts TreeGenerator.

Open Scope Z_scope.

Definition secBefore (a b : DocumentNode) : Prop :=
  sec_endIndex a < sec_startIndex b.

(** Where the next section will start: at the open section, or at the
    current index when none is open. *)
Definition frontier (st : SegState) : Z :=
  match currentSection st with
  | Some cur => sec_startIndex cur
  | None => currentIndex st
  end.

(** What the loop of [identifySections] keeps: the closed sections lie one
    before the other, all before the frontier, and the open section does
    not start behind the current index. *)
Record segInvariant (st : SegState) : Prop := mkSegInvariant {
  closed_ordered : ForallOrdPairs secBefore (sections st);
  closed_before_frontier :
    Forall (fun s => sec_endIndex s < frontier st) (sections st);
  open_started :
    forall cur, currentSection st = Some cur -> sec_startIndex cur <= currentIndex st
}.

Lemma ForallOrdPairs_snoc {A} (R : A -> A -> Prop) (l : list A) (x : A) :
  ForallOrdPairs R l -> Forall (fun y => R y x) l -> ForallOrdPairs R (l ++ [x]).
Proof.
  induction 1 as [|a r Ha Hr IH]; intros Hx; simpl.
  - constructor; constructor.
  - inversion Hx as [|? ? Hax Hrx]; subst.
    constructor; [|apply IH; exact Hrx].
    apply Forall_app. split; [exact Ha|]. constructor; [exact Hax|constructor].
Qed.

Section Generator.
Variable config : TreeGeneratorConfig.
Variable genId : nat -> string.

Lemma identifyStep_invariant (st : SegState) (paragraph : string) :
  segInvariant st -> segInvariant (identifyStep config genId st paragraph).
Proof.
  intros [Hord Hfr Hopen]. unfold identifyStep.
  unfold frontier in Hfr.
  destruct (isHeading (analyzeParagraphForSection config paragraph));
    destruct (currentSection st) as [cur|] eqn:Hcur;
    try specialize (Hopen cur eq_refl);
    constructor; unfold frontier; simpl;
    try (intros c [= <-]; simpl; lia); try discriminate; try assumption.
  - apply ForallOrdPairs_snoc; [exact Hord|].
    eapply Forall_impl; [|exact Hfr]. intros s Hs. exact Hs.
  - apply Forall_app. split.
    + eapply Forall_impl; [|exact Hfr]. simpl. intros s Hs. lia.
    + constructor; [simpl; lia|constructor].
  - apply ForallOrdPairs_snoc; [exact Hord|].
    eapply Forall_impl; [|exact Hfr]. intros s Hs. exact Hs.
  - apply Forall_app. split.
    + eapply Forall_impl; [|exact Hfr]. simpl. intros s Hs. lia.
    + constructor; [simpl; lia|constructor].
Qed.

Lemma identifyLoop_invariant (paragraphs : list string) (st : SegState) :
  segInvariant st ->
  segInvariant (fold_left (identifyStep config genId) paragraphs st).
Proof.
  revert st; induction paragraphs as [|p r IH]; intros st Hst; simpl.
  - exact Hst.
  - apply IH, identifyStep_invariant, Hst.
Qed.

(** The sections [identifySections] returns lie one before the other. *)
Lemma identifySections_ordered (paragraphs : list string) :
  ForallOrdPairs secBefore (fst (identifySections config genId paragraphs)).
Proof.
  unfold identifySections. simpl fst.
  assert (H0 : segInvariant initialSegState).
  { constructor; simpl; [constructor|constructor|discriminate]. }
  pose proof (identifyLoop_invariant paragraphs H0) as [Hord Hfr Hopen].
  unfold finishSections. unfold frontier in Hfr.
  destruct (currentSection _) as [cur|]; [|exact Hord].
  apply ForallOrdPairs_snoc; [exact Hord|].
  eapply Forall_impl; [|exact Hfr]. intros s Hs. exact Hs.
Qed.

End Generator.

Lemma ForallOrdPairs_takeWhile {A} (R : A -> A -> Prop) (p : A -> bool) (l : list A) :
  ForallOrdPairs R l -> ForallOrdPairs R (takeWhile p l).
Proof.
  induction 1 as [|a r Ha Hr IH]; simpl; [constructor|].
  destruct (p a); constructor; [|exact IH].
  rewrite Forall_forall in *. intros x Hx. apply Ha.
  eapply ParagraphFacts.takeWhile_incl. exact Hx.
Qed.

Lemma ForallOrdPairs_dropWhile {A} (R : A -> A -> Prop) (p : A -> bool) (l : list A) :
  ForallOrdPairs R l -> ForallOrdPairs R (dropWhile p l).
Proof.
  induction 1 as [|a r Ha Hr IH]; simpl; [constructor|].
  destruct (p a); [exact IH|]. constructor; assumption.
Qed.

(** A node of the hierarchy carries the range of one of the sections. *)
Definition rangeFrom (l : list DocumentNode) (t : TreeNode) : Prop :=
  exists s, In s l /\ startIndex t = sec_startIndex s /\ endIndex t = sec_endIndex s.

Lemma rangeFrom_incl (l l' : list DocumentNode) (t : TreeNode) :
  (forall s, In s l -> In s l') -> rangeFrom l t -> rangeFrom l' t.
Proof. intros H [s [Hs E]]. exists s. split; [apply H; exact Hs|exact E]. Qed.

(** The roots [buildHierarchy] returns lie one before the other and carry
    ranges of the sections given. *)
Lemma buildHierarchy_roots (l : list DocumentNode) (minLevel : Z) :
  ForallOrdPairs secBefore l ->
  ForallOrdPairs Spec.endsBefore (buildHierarchy l minLevel)
  /\ Forall (rangeFrom l) (buildHierarchy l minLevel).
Proof.
  funelim (buildHierarchy l minLevel); intros Hord.
  - split; constructor.
  - inversion Hord as [|? ? Hcur Hrest]; subst.
    destruct (H0 (ForallOrdPairs_dropWhile _ Hrest)) as [Hsibs Hfrom].
    split.
    + constructor; [|exact Hsibs].
      rewrite Forall_forall in *. intros t Ht.
      destruct (Hfrom t Ht) as [s [Hs [Es _]]].
      unfold Spec.endsBefore. simpl. rewrite Es.
      apply Hcur. eapply ParagraphFacts.dropWhile_incl. exact Hs.
    + constructor.
      * exists cur. split; [left; reflexivity|split; reflexivity].
      * eapply Forall_impl; [|exact Hfrom]. intros t.
        apply rangeFrom_incl. intros s Hs. right.
        eapply ParagraphFacts.dropWhile_incl. exact Hs.
Qed.

(** In the hierarchy siblings lie one before the other, and the children
    of a node start behind the node's own range. *)
Lemma buildHierarchy_nodes (l : list DocumentNode) (minLevel : Z) :
  ForallOrdPairs secBefore l ->
  forall p, In p (flattenTree (buildHierarchy l minLevel)) ->
  ForallOrdPairs Spec.endsBefore (children p)
  /\ Forall (fun c => endIndex p < startIndex c) (children p).
Proof.
  funelim (buildHierarchy l minLevel); intros Hord p Hp.
  - contradiction.
  - inversion Hord as [|? ? Hcur Hrest]; subst.
    unfold flattenTree in Hp. simpl in Hp.
    destruct Hp as [<-|Hp].
    + simpl.
      destruct (buildHierarchy_roots (minLevel + 1)
                  (ForallOrdPairs_takeWhile
                     (deeperThan (effectiveLevel cur minLevel)) Hrest))
        as [Hkids Hfrom].
      split; [exact Hkids|].
      rewrite Forall_forall in *. intros t Ht.
      destruct (Hfrom t Ht) as [s [Hs [Es _]]]. rewrite Es.
      apply Hcur. eapply ParagraphFacts.takeWhile_incl. exact Hs.
    + apply in_app_or in Hp. destruct Hp as [Hp|Hp].
      * apply H; [apply ForallOrdPairs_takeWhile; exact Hrest|exact Hp].
      * apply H0; [apply ForallOrdPairs_dropWhile; exact Hrest|exact Hp].
Qed.

(** C4, counterexample: in the tree of a section with a subsection, the
    section [A] has the range 0..0 and its child [B] the range 1..1. *)
Lemma child_range_outside_parent :
  let tree := generateTree DEFAULT_CONFIG Samples.sampleId
                Samples.nestedSections "Doc" None in
  exists parent child,
    In parent (flattenTree (nodes tree))
    /\ In child (children parent)
    /\ ~ Spec.containsRange parent child.
Proof.
  vm_compute. eexists. eexists.
  split; [right; left; reflexivity|].
  split; [left; reflexivity|].
  simpl. intros [_ H]. apply H. reflexivity.
Qed.

(** C4, amended: in the tree [generateTree] returns, any two siblings have
    ranges that do not overlap, the earlier one ending before the later
    one starts; and below the root a node's range does not contain its
    children's: every child starts behind its parent's [endIndex]. *)
Theorem sibling_ranges_are_disjoint
    (config : TreeGeneratorConfig) (genId : nat -> string)
    (content title : string) (description : option string) :
  let tree := generateTree config genId content title description in
  (forall p, In p (flattenTree (nodes tree)) ->
     ForallOrdPairs Spec.endsBefore (children p))
  /\ (forall root p, In root (nodes tree) -> In p (flattenTree (children root)) ->
        Forall (fun c => endIndex p < startIndex c) (children p)).
Proof.
  unfold generateTree.
  pose proof (identifySections_ordered config genId (splitIntoParagraphs content))
    as Hord.
  destruct (identifySections config genId (splitIntoParagraphs content))
    as [secs drawn].
  simpl fst in Hord. cbv zeta. cbn [nodes].
  unfold buildNodes. destruct secs as [|s0 secs']; [split; intros; contradiction|].
  set (secs := s0 :: secs') in *.
  split.
  - intros p Hp. unfold flattenTree in Hp. simpl in Hp.
    rewrite app_nil_r in Hp. destruct Hp as [<-|Hp].
    + simpl. apply (buildHierarchy_roots 0 Hord).
    + apply (buildHierarchy_nodes 0 Hord p Hp).
  - intros root p [<-|[]] Hp. simpl in Hp.
    apply (buildHierarchy_nodes 0 Hord p Hp).
Qed.

(** The theorem at the tree of a section with a subsection: the section
    [A] has a child, and the child starts behind the end of [A]. *)
Lemma sibling_ranges_are_disjoint_witness :
  let tree := generateTree DEFAULT_CONFIG Samples.sampleId
                Samples.nestedSections "Doc" None in
  exists p,
    In p (flattenTree (nodes tree))
    /\ children p <> []
    /\ ForallOrdPairs Spec.endsBefore (children p)
    /\ Forall (fun c => endIndex p < startIndex c) (children p).
Proof.
  intros tree.
  destruct (@sibling_ranges_are_disjoint DEFAULT_CONFIG Samples.sampleId
              Samples.nestedSections "Doc" None) as [Hsib Hchild].
  fold tree in Hsib, Hchild.
  set (none := mkTreeNode "" "" 0 0 "" None []).
  set (root := hd none (nodes tree)).
  set (a := hd none (children root)).
  exists a. split; [vm_compute; right; left; reflexivity|].
  split; [vm_compute; discriminate|]. split.
  - apply Hsib. vm_compute. right; left; reflexivity.
  - apply (Hchild root a); vm_compute; left; reflexivity.
Defined.

Close Scope Z_scope.

End TreeFacts.

(* ===================================================================== *)
(** * The keyword scorer *)
(* ===================================================================== *)

Module ScorerFacts.
Import Js JsFacts TreeGenerator SimpleSearch.

Lemma inject_nat_succ (n : nat) :
  inject_Z (Z.of_nat (S n)) == inject_Z (Z.of_nat n) + 1.
Proof. rewrite Nat2Z.inj_succ, <- Z.add_1_r, inject_Z_plus. reflexivity. Qed.

Lemma fold_left_Qeq {A} (f : Q -> A -> Q) (l : list A) (a b : Q) :
  (forall x y z, x == y -> f x z == f y z) ->
  a == b -> fold_left f l a == fold_left f l b.
Proof.
  intros Hf. revert a b; induction l as [|x r IH]; intros a b Hab; simpl.
  - exact Hab.
  - apply IH, Hf, Hab.
Qed.

Section Node.
Variable node : TreeNode.
Variables titleTerms summaryTerms textTerms : list string.

Let turn := scoreQueryTerm node titleTerms summaryTerms textTerms.

(** What one query term adds to the score. *)
Definition termGain (q : string) : Q :=
  (if mem q titleTerms then 10 else 0)
  + (if includes (toLowerCase (title node)) q then 5 else 0)
  + 2 * inject_Z (Z.of_nat (occurrences q summaryTerms))
  + Qmin (0.5 * inject_Z (Z.of_nat (occurrences q textTerms))) 5.

Lemma turn_gain (score : Q) (q : string) : turn score q == score + termGain q.
Proof.
  unfold turn, scoreQueryTerm, termGain.
  assert (E : inject_Z (Z.of_nat (occurrences q textTerms)) * 0.5
              == 0.5 * inject_Z (Z.of_nat (occurrences q textTerms))) by ring.
  rewrite E.
  destruct (mem q titleTerms); destruct (includes (toLowerCase (title node)) q); ring.
Qed.

Lemma turn_compat (x y : Q) (q : string) : x == y -> turn x q == turn y q.
Proof. intros H. rewrite !turn_gain, H. reflexivity. Qed.

Lemma loop_gain (queryTerms : list string) (score : Q) :
  fold_left turn queryTerms score
  == score + Spec.sumOver termGain queryTerms.
Proof.
  revert score; induction queryTerms as [|q r IH]; intros score; simpl.
  - ring.
  - rewrite IH, turn_gain. ring.
Qed.

(** The gains of the terms, sorted out by component. *)
Lemma gains_by_component (queryTerms : list string) :
  Spec.sumOver termGain queryTerms
  == Spec.sumOver (fun q => if mem q titleTerms then 10 else 0) queryTerms
     + Spec.sumOver
         (fun q => if includes (toLowerCase (title node)) q then 5 else 0) queryTerms
     + Spec.sumOver (fun q => 2 * inject_Z (Z.of_nat (occurrences q summaryTerms)))
         queryTerms
     + Spec.sumOver
         (fun q => Qmin (0.5 * inject_Z (Z.of_nat (occurrences q textTerms))) 5)
         queryTerms.
Proof.
  induction queryTerms as [|q r IH]; simpl.
  - ring.
  - rewrite IH. unfold termGain. ring.
Qed.

End Node.

Lemma tokenize_empty : tokenize "" = [].
Proof. reflexivity. Qed.

(** ** The tokenizer, the counter and the string primitives against the
    specification's words *)

Lemma lowerChar_lowerCased (c : ascii) : lowerChar c = Spec.lowerCased c.
Proof. destruct c as [[] [] [] [] [] [] [] []]; reflexivity. Qed.

Lemma isWord_isTokenChar (c : ascii) : isWord c = Spec.isTokenChar c.
Proof. destruct c as [[] [] [] [] [] [] [] []]; reflexivity. Qed.

Lemma toLowerCase_lowerCase (s : string) : toLowerCase s = Spec.lowerCase s.
Proof.
  unfold toLowerCase, Spec.lowerCase, str, chars. f_equal.
  apply map_ext. exact lowerChar_lowerCased.
Qed.

Lemma prefix_substring (needle hay : string) :
  String.prefix needle hay
  = (substring 0 (String.length needle) hay =? needle)%string.
Proof.
  destruct (String.prefix needle hay) eqn:E.
  - apply prefix_correct in E. rewrite E. symmetry. apply String.eqb_refl.
  - symmetry. apply String.eqb_neq. intros H.
    apply prefix_correct in H. congruence.
Qed.

Lemma existsb_shift (f : nat -> bool) (n : nat) :
  existsb f (seq 1 n) = existsb (fun i => f (S i)) (seq 0 n).
Proof.
  rewrite <- seq_shift. induction (seq 0 n) as [|x r IH]; simpl; [reflexivity|].
  rewrite IH. reflexivity.
Qed.

(** [hay.includes(needle)]: the needle stands at some position of [hay]. *)
Lemma includes_containsText (hay needle : string) :
  includes hay needle = Spec.containsText hay needle.
Proof.
  unfold Spec.containsText.
  induction hay as [|c h IH].
  - cbn [includes String.length seq existsb]. rewrite prefix_substring.
    rewrite !orb_false_r. reflexivity.
  - cbn [includes]. rewrite IH, prefix_substring.
    change (seq 0 (S (String.length (String c h))))
      with (0%nat :: seq 1 (S (String.length h))).
    cbn [existsb]. rewrite existsb_shift. reflexivity.
Qed.

(** What [toLowerCase] and the replacement of punctuation make of a
    character. *)
Definition normalisedChar (c : ascii) : ascii :=
  if isWord (lowerChar c) || isSpace (lowerChar c) then lowerChar c else " "%char.

Lemma normalisedChar_word (c : ascii) :
  Spec.isTokenChar c = true ->
  normalisedChar c = Spec.lowerCased c /\ isSpace (normalisedChar c) = false.
Proof.
  destruct c as [[] [] [] [] [] [] [] []]; intros H;
    first [discriminate H | split; reflexivity].
Qed.

Lemma normalisedChar_other (c : ascii) :
  Spec.isTokenChar c = false -> isSpace (normalisedChar c) = true.
Proof.
  destruct c as [[] [] [] [] [] [] [] []]; intros H;
    first [discriminate H | reflexivity].
Qed.

Lemma normalised_text (text : string) :
  chars (blankPunctuation (toLowerCase text)) = map normalisedChar (chars text).
Proof.
  unfold blankPunctuation, toLowerCase.
  rewrite !ParagraphFacts.chars_str, map_map. reflexivity.
Qed.

(** Splitting at runs of blanks gives the word runs, and empty pieces
    besides, which the length filter drops. *)
Lemma splitWsFrom_wordRuns (l cur : list ascii) (inSep : bool) :
  (inSep = true -> cur = []) ->
  filter (fun t => (1 <? String.length t)%nat)
         (splitWsFrom cur inSep (map normalisedChar l))
  = filter (fun t => (1 <? String.length t)%nat) (Spec.wordRuns cur l).
Proof.
  revert cur inSep. induction l as [|c r IH]; intros cur inSep Hsep.
  - destruct cur; reflexivity.
  - cbn [map splitWsFrom Spec.wordRuns].
    destruct (Spec.isTokenChar c) eqn:Ew.
    + destruct (normalisedChar_word c Ew) as [En Es]. rewrite Es, En.
      apply IH. discriminate.
    + rewrite (normalisedChar_other c Ew).
      destruct inSep.
      * rewrite (Hsep eq_refl). apply IH. reflexivity.
      * destruct cur as [|x cur'].
        -- cbn [filter rev str string_of_list_ascii String.length Nat.ltb Nat.leb].
           apply IH. reflexivity.
        -- cbn [filter]. unfold str at 1 2.
           rewrite (IH [] true (fun _ => eq_refl)). reflexivity.
Qed.

(** [tokenize] gives the tokens the specification words. *)
Lemma tokenize_tokens (text : string) : tokenize text = Spec.tokens text.
Proof.
  unfold tokenize, Spec.tokens, splitWs. rewrite normalised_text.
  apply splitWsFrom_wordRuns. discriminate.
Qed.

(** [terms.filter((t) => t === queryTerm).length] counts the occurrences
    of the term. *)
Lemma occurrences_count (q : string) (terms : list string) :
  occurrences q terms = Spec.occurrencesOf q terms.
Proof.
  unfold occurrences, Spec.occurrencesOf.
  induction terms as [|t r IH]; simpl; [reflexivity|].
  destruct (String.eqb_spec t q) as [E|E]; destruct (string_dec t q) as [D|D];
    try contradiction; simpl; rewrite IH; reflexivity.
Qed.

Lemma mem_in_dec {A} (q : string) (l : list string) (x y : A) :
  (if mem q l then x else y) = (if in_dec string_dec q l then x else y).
Proof.
  destruct (in_dec string_dec q l) as [H|H].
  - apply mem_In in H. rewrite H. reflexivity.
  - apply mem_false in H. rewrite H. reflexivity.
Qed.

Lemma sumOver_ext {A} (f g : A -> Q) (l : list A) :
  (forall x, f x = g x) -> Spec.sumOver f l = Spec.sumOver g l.
Proof.
  intros H. induction l as [|x r IH]; simpl; [reflexivity|].
  rewrite H, IH. reflexivity.
Qed.

(** The scorer's loop computes the score the specification words. *)
Lemma scoreNode_formula (node : TreeNode) (query : string) :
  scoreNode node (tokenize query) == Spec.keywordScore node query.
Proof.
  unfold scoreNode, Spec.keywordScore. cbv zeta.
  set (textTerms := match text node with
                    | Some t => if (t =? "")%string then [] else tokenize t
                    | None => []
                    end).
  assert (Et : textTerms = match text node with Some t => Spec.tokens t | None => [] end).
  { unfold textTerms. destruct (text node) as [t|]; [|reflexivity].
    destruct (String.eqb_spec t ""); [subst; reflexivity|apply tokenize_tokens]. }
  rewrite <- Et. rewrite <- !tokenize_tokens, <- toLowerCase_lowerCase.
  rewrite (sumOver_ext
             (fun q => if in_dec string_dec q (tokenize (title node)) then 10 else 0)
             (fun q => if mem q (tokenize (title node)) then 10 else 0));
    [|intros q; symmetry; apply mem_in_dec].
  rewrite (sumOver_ext
             (fun q => if Spec.containsText (toLowerCase (title node)) q then 5 else 0)
             (fun q => if includes (toLowerCase (title node)) q then 5 else 0));
    [|intros q; rewrite includes_containsText; reflexivity].
  rewrite (sumOver_ext
             (fun q => 2 * inject_Z (Z.of_nat
                            (Spec.occurrencesOf q (tokenize (summary node)))))
             (fun q => 2 * inject_Z (Z.of_nat
                            (occurrences q (tokenize (summary node))))));
    [|intros q; rewrite occurrences_count; reflexivity].
  rewrite (sumOver_ext
             (fun q => Qmin (0.5 * inject_Z (Z.of_nat (Spec.occurrencesOf q textTerms))) 5)
             (fun q => Qmin (0.5 * inject_Z (Z.of_nat (occurrences q textTerms))) 5));
    [|intros q; rewrite occurrences_count; reflexivity].
  rewrite <- includes_containsText.
  change (String.concat " " (tokenize query)) with (join " " (tokenize query)).
  destruct (includes (toLowerCase (title node)) (join " " (tokenize query)));
    rewrite loop_gain, gains_by_component; ring.
Qed.

Definition scoreOrder (a b : ScoredNode) : Prop := score b <= score a.

Lemma byScore_sorted (l : list ScoredNode) :
  StronglySorted scoreOrder (sort (fun a b => numLe (score b) (score a)) l).
Proof.
  apply sort_sorted; unfold scoreOrder.
  - intros a b H. apply numLe_spec. exact H.
  - intros a b H. apply numLe_false in H. apply Qlt_le_weak. exact H.
  - intros a b c Hab Hbc. eapply Qle_trans; eassumption.
Qed.

(** C7: the score of a node is the sum the specification words, 10 per
    query term among the title tokens, 5 per query term inside the
    lower-cased title, 2 per occurrence among the summary tokens, 0.5 per
    occurrence among the text tokens capped at 5 per query term, and 15
    when the lower-cased title contains the joined query, the tokens being
    the specification's; and the search returns the ids of the nodes of
    positive score, highest score first, cut to [maxResults]. *)
Theorem keyword_search_ranks_positive_scores
    (config : TreeSearchConfig) (tree : TreeIndex) (query : string) :
  let queryTerms := tokenize query in
  let allNodes := flattenTree (nodes tree) in
  (forall n, scoreNode n queryTerms == Spec.keywordScore n query)
  /\ exists ranked,
       Permutation ranked
         (filter (fun s => numLt 0 (score s))
            (map (fun n => mkScored n (scoreNode n queryTerms)) allNodes))
       /\ Forall (fun s => In (node s) allNodes
                           /\ score s == Spec.keywordScore (node s) query
                           /\ 0 < Spec.keywordScore (node s) query) ranked
       /\ (forall n, In n allNodes -> 0 < Spec.keywordScore n query ->
                     exists s, In s ranked /\ node s = n)
       /\ StronglySorted scoreOrder ranked
       /\ search config tree query
          = map (fun s => nodeId (node s)) (firstn (maxResults config) ranked)
       /\ (length (search config tree query) <= maxResults config)%nat.
Proof.
  intros queryTerms allNodes.
  split; [intros n; apply scoreNode_formula|].
  set (positive := filter (fun s => numLt 0 (score s))
                     (map (fun n => mkScored n (scoreNode n queryTerms)) allNodes)).
  exists (sort (fun a b => numLe (score b) (score a)) positive).
  split; [symmetry; apply sort_perm|].
  split.
  { rewrite Forall_forall. intros s Hs. apply sort_In in Hs.
    unfold positive in Hs. apply filter_In in Hs. destruct Hs as [Hs Hpos].
    apply in_map_iff in Hs. destruct Hs as [n [<- Hn]]. simpl in *.
    apply numLt_spec in Hpos.
    split; [exact Hn|]. split; [apply scoreNode_formula|].
    rewrite <- scoreNode_formula. exact Hpos. }
  split.
  { intros n Hn Hpos. exists (mkScored n (scoreNode n queryTerms)).
    split; [|reflexivity]. apply sort_In. unfold positive.
    apply filter_In. split.
    - apply in_map_iff. exists n. split; [reflexivity|exact Hn].
    - simpl. apply numLt_spec. unfold queryTerms. rewrite scoreNode_formula.
      exact Hpos. }
  split; [apply byScore_sorted|].
  split; [reflexivity|].
  unfold search. rewrite length_map. unfold topNodes. apply firstn_le_length.
Qed.

(** The scenario of the specification: for the query ["install"] the tree
    of the two-section text ranks the root and the section [Setup], both
    of score 2.5, and leaves out the section [Intro], of score 0. *)
Example keyword_search_scenario :
  let tree := generateTree TreeGenerator.DEFAULT_CONFIG Samples.sampleId
                Samples.twoSections "Doc" None in
  map (fun n => (title n, Qred (scoreNode n ["install"%string])))
      (flattenTree (nodes tree))
  = [("Doc", 5 # 2); ("Intro", 0); ("Setup", 5 # 2)]%string
  /\ search DEFAULT_CONFIG tree "install" = ["node_2"; "node_1"]%string.
Proof. vm_compute. split; reflexivity. Qed.

(** The theorem at that scenario: the section [Setup] of the two-section
    text has one occurrence of the query term in its summary and one in
    its text, so the score 2 + 0.5 by the specification's words; it is
    the score the scorer gives, and the section is ranked. *)
Lemma keyword_search_ranks_positive_scores_witness :
  exists n,
    In n (flattenTree (nodes Samples.twoSectionTree))
    /\ title n = "Setup"%string
    /\ Spec.keywordScore n "install" == 5 # 2
    /\ scoreNode n (tokenize "install") == 5 # 2
    /\ In (nodeId n) (search DEFAULT_CONFIG Samples.twoSectionTree "install").
Proof.
  destruct (@keyword_search_ranks_positive_scores DEFAULT_CONFIG
              Samples.twoSectionTree "install")
    as [Hscore [ranked [_ [_ [_ [_ [_ _]]]]]]].
  exists (nth 2 (flattenTree (nodes Samples.twoSectionTree))
            (mkTreeNode "" "" 0 0 "" None [])).
  split; [apply nth_In; vm_compute; lia|].
  split; [vm_compute; reflexivity|].
  assert (Hspec : Spec.keywordScore
                    (nth 2 (flattenTree (nodes Samples.twoSectionTree))
                       (mkTreeNode "" "" 0 0 "" None [])) "install" == 5 # 2)
    by (vm_compute; reflexivity).
  split; [exact Hspec|].
  split; [rewrite Hscore; exact Hspec|].
  vm_compute. right. left. reflexivity.
Defined.

End ScorerFacts.

(* ===================================================================== *)
(** * The activation score *)
(* ===================================================================== *)

Module ActivationFacts.
Import Js JsFacts GraphTypes Search OptimizedBMSSP.

Lemma ratio_nonneg (a b : nat) : 0 <= ratio a b.
Proof.
  unfold ratio, Qdiv.
  apply Qmult_le_0_compat.
  - change 0 with (inject_Z 0). rewrite <- Zle_Qle. lia.
  - apply Qinv_le_0_compat. change 0 with (inject_Z 0). rewrite <- Zle_Qle. lia.
Qed.

Lemma ratio_zero (b : nat) : ratio 0 b == 0.
Proof. unfold ratio, Qdiv. simpl. ring. Qed.

Lemma distinctFrom_NoDup (seen l : list string) :
  NoDup l -> (forall x, In x l -> ~ In x seen) -> distinctFrom seen l = l.
Proof.
  revert seen; induction l as [|x r IH]; intros seen Hnd Hseen; simpl; [reflexivity|].
  inversion Hnd as [|? ? Hx Hr]; subst.
  destruct (mem x seen) eqn:E.
  - apply mem_In in E. exfalso. exact (Hseen x (or_introl eq_refl) E).
  - f_equal. apply IH; [exact Hr|].
    intros y Hy [<-|Hin]; [exact (Hx Hy)|].
    exact (Hseen y (or_intror Hy) Hin).
Qed.

Lemma distinct_NoDup (l : list string) : NoDup l -> distinct l = l.
Proof. intros H. apply distinctFrom_NoDup; [exact H|intros x _ []]. Qed.

Lemma filter_NoDup {A} (p : A -> bool) (l : list A) : NoDup l -> NoDup (filter p l).
Proof.
  induction 1 as [|x r Hx _ IH]; simpl; [constructor|].
  destruct (p x); [constructor; [|exact IH]|exact IH].
  intros H. apply filter_In in H. exact (Hx (proj1 H)).
Qed.

Lemma calculateSemanticSimilarity_nonneg (a b : GraphNode) :
  0 <= calculateSemanticSimilarity a b.
Proof.
  unfold calculateSemanticSimilarity.
  destruct ((length (keywordsOf a) =? 0)%nat || (length (keywordsOf b) =? 0)%nat).
  - apply Qle_refl.
  - apply ratio_nonneg.
Qed.

(** For a keyword list without repetition the similarity the code computes
    is the Jaccard similarity of the two keyword sets. *)
Lemma similarity_is_jaccard (a b : GraphNode) :
  NoDup (keywordsOf a) ->
  calculateSemanticSimilarity a b == Spec.jaccard (keywordsOf a) (keywordsOf b).
Proof.
  intros Hnd. unfold calculateSemanticSimilarity, Spec.jaccard.
  destruct (keywordsOf a) as [|k ka] eqn:Ea.
  - simpl. rewrite ratio_zero. reflexivity.
  - destruct (keywordsOf b) as [|k' kb] eqn:Eb.
    + simpl orb. cbv iota.
      assert (E : filter (fun x => mem x []) (k :: ka) = []).
      { clear. induction (k :: ka) as [|x r IH]; simpl; [reflexivity|exact IH]. }
      rewrite E. simpl. rewrite ratio_zero. reflexivity.
    + simpl orb. cbv iota.
      rewrite (distinct_NoDup (filter_NoDup _ Hnd)).
      assert (E : Nat.max (length (distinct ((k :: ka) ++ k' :: kb))) 1
                  = length (distinct ((k :: ka) ++ k' :: kb))).
      { unfold distinct. simpl. lia. }
      rewrite E. reflexivity.
Qed.

Lemma fold_max_from (f g : GraphNode -> Q) (l : list GraphNode) (x : Q) :
  (forall s, f s == g s) -> 0 <= x ->
  fold_left Qmax (map f l) x == Qmax x (fold_right Qmax 0 (map g l)).
Proof.
  intros Hfg. revert x; induction l as [|s r IH]; intros x Hx; simpl.
  - symmetry. apply Q.max_l. exact Hx.
  - rewrite IH.
    + rewrite (Hfg s). symmetry. apply Q.max_assoc.
    + eapply Qle_trans; [exact Hx|apply Q.le_max_l].
Qed.

(** [Math.max] over the similarities, guarded by the length test, is the
    largest similarity, 0 when there is none. *)
Lemma guarded_max (f g : GraphNode -> Q) (l : list GraphNode) :
  (forall s, f s == g s) -> (forall s, 0 <= f s) ->
  (if (0 <? length l)%nat then maxOf (map f l) else 0)
  == fold_right Qmax 0 (map g l).
Proof.
  intros Hfg Hf. destruct l as [|s r]; simpl; [reflexivity|].
  rewrite (fold_max_from f g r Hfg (Hf s)). rewrite (Hfg s). reflexivity.
Qed.

(** C6, the code at two failing inputs: for a node of centrality 0,
    [centrality || 0.5] counts a centrality of 0.5, and for a keyword list
    that repeats a word the intersection counts the repetitions while the
    union does not; in both cases the score is not the one of the formula. *)
Lemma activation_score_deviates :
  ~ (calculateNodeActivationScore Samples.isolatedNode [] Samples.isolatedGraph
     == Spec.activationScore 0 Samples.isolatedNode [] Samples.isolatedGraph)
  /\ ~ (calculateNodeActivationScore Samples.repeatingNode ["source"%string]
          Samples.repeatingGraph
        == Spec.activationScore 0.5 Samples.repeatingNode ["source"%string]
             Samples.repeatingGraph).
Proof. split; vm_compute; discriminate. Qed.

(** Where neither defect strikes the code computes the weighted sum:
    for a node whose metadata carries a centrality [c] with [0 < c <= 1]
    and a keyword list without repetition, the activation score is
    [c * 0.25 + j * 0.30 + k * 0.15 + t * 0.15 + p * 0.15] clamped to
    [0, 1], where [j] is the largest Jaccard similarity of its keyword set
    to a source node's, [k] is 0.4 for a non-empty keyword list and 0
    otherwise, [t] is 0.8 for a section and 0.3 otherwise, and [p] is
    [max(0.7, 1 - start * 0.1)]. *)
Theorem activation_score_formula
    (node : GraphNode) (sourceNodeIds : list string) (graph : GraphIndex)
    (c : Q) (kws : list string) (lvl : option Z) :
  metadata node = Some (mkMetadata lvl (Some kws) (Some c)) ->
  0 < c -> c <= 1 -> NoDup kws ->
  calculateNodeActivationScore node sourceNodeIds graph
  == Spec.activationScore c node sourceNodeIds graph.
Proof.
  intros Hmeta Hpos Hle Hnd.
  assert (Hkw : keywordsOf node = kws) by (unfold keywordsOf; rewrite Hmeta; reflexivity).
  assert (Hc : centralityOrDefault node = c).
  { unfold centralityOrDefault. rewrite Hmeta. simpl.
    destruct (Qeq_bool c 0) eqn:E; [|reflexivity].
    apply Qeq_bool_iff in E. lra. }
  unfold calculateNodeActivationScore, Spec.activationScore, Spec.clamp01,
    Spec.maxSourceSimilarity.
  rewrite Hc.
  set (sources := filter (fun n => mem (GraphTypes.nodeId n) sourceNodeIds) (nodes graph)).
  pose proof (guarded_max
                (fun source => calculateSemanticSimilarity node source)
                (fun s => Spec.jaccard (keywordsOf node) (keywordsOf s))
                sources) as Hmax.
  rewrite Hkw in *.
  assert (Hsim : forall s, calculateSemanticSimilarity node s
                           == Spec.jaccard kws (keywordsOf s)).
  { intros s. rewrite <- Hkw. apply similarity_is_jaccard. rewrite Hkw. exact Hnd. }
  specialize (Hmax Hsim (calculateSemanticSimilarity_nonneg node)).
  set (j := fold_right Qmax 0 (map (fun s => Spec.jaccard kws (keywordsOf s)) sources)) in *.
  assert (Hj : 0 <= j).
  { unfold j. destruct sources as [|s r]; simpl; [apply Qle_refl|].
    eapply Qle_trans; [|apply Q.le_max_l].
    unfold Spec.jaccard. apply ratio_nonneg. }
  set (m := if (0 <? length sources)%nat
            then maxOf (map (fun source => calculateSemanticSimilarity node source) sources)
            else 0) in *.
  set (p := Qmax 0.7 (1.0 - inject_Z (start (position node)) * 0.1)).
  assert (Hp : p == Qmax 0.7 (1 - inject_Z (start (position node)) * 0.1)).
  { unfold p. apply Q.max_compat; [reflexivity|]. ring. }
  assert (Hp7 : 0.7 <= p) by apply Q.le_max_l.
  rewrite <- Hp.
  set (k := if (length kws =? 0)%nat then 0 else 0.4).
  assert (Hk : (if (0 <? length kws)%nat then 0.4 else 0) = k).
  { unfold k. destruct kws; reflexivity. }
  rewrite Hk.
  assert (Hk0 : 0 <= k) by (unfold k; destruct (length kws =? 0)%nat; lra).
  set (t := if NodeType_eqb (type node) type_section then 0.8 else 0.3).
  assert (Ht0 : 0 <= t) by (unfold t; destruct (NodeType_eqb _ _); lra).
  set (x := c * 0.25 + m * 0.3 + k * 0.15 + t * 0.15 + p * 0.15).
  set (y := c * 0.25 + j * 0.30 + k * 0.15 + t * 0.15 + p * 0.15).
  assert (Hxy : x == y) by (unfold x, y; rewrite Hmax; ring).
  assert (Hy0 : 0 <= y) by (unfold y; nra).
  rewrite Q.max_r.
  - apply Q.min_compat; [exact Hxy|reflexivity].
  - apply Q.min_glb; [exact Hy0|lra].
Qed.

(** The theorem at the source node of the sample chain. *)
Lemma activation_score_formula_witness :
  calculateNodeActivationScore Samples.hub ["hub"%string] Samples.chainGraph
  == Spec.activationScore 0.2 Samples.hub ["hub"%string] Samples.chainGraph.
Proof.
  apply (@activation_score_formula Samples.hub ["hub"%string] Samples.chainGraph
           0.2 ["install"; "guide"]%string (Some 1%Z)).
  - reflexivity.
  - reflexivity.
  - discriminate.
  - repeat constructor; simpl; intuition discriminate.
Defined.

End ActivationFacts.

(* ===================================================================== *)
(** * The search loops: termination *)
(* ===================================================================== *)

Module SearchFacts.
Import Js JsFacts GraphTypes Search.

Lemma filter_length_le {A} (p q : A -> bool) (l : list A) :
  (forall y, q y = true -> p y = true) ->
  (length (filter q l) <= length (filter p l))%nat.
Proof.
  intros Hqp. induction l as [|y r IH]; simpl; [lia|].
  destruct (q y) eqn:Eq.
  - rewrite (Hqp y Eq). simpl. lia.
  - destruct (p y); simpl; lia.
Qed.

Lemma filter_length_lt {A} (p q : A -> bool) (l : list A) (x : A) :
  (forall y, q y = true -> p y = true) ->
  In x l -> p x = true -> q x = false ->
  (length (filter q l) < length (filter p l))%nat.
Proof.
  intros Hqp. induction l as [|y r IH]; intros Hin Hp Hq; [contradiction|].
  simpl. destruct Hin as [->|Hin].
  - rewrite Hp, Hq. simpl.
    pose proof (filter_length_le p q r Hqp). lia.
  - specialize (IH Hin Hp Hq).
    destruct (q y) eqn:Eq.
    + rewrite (Hqp y Eq). simpl. lia.
    + destruct (p y); simpl; lia.
Qed.

Lemma flat_map_length_le {A B} (f : A -> list B) (l : list A) :
  (forall x, (length (f x) <= 1)%nat) ->
  (length (flat_map f l) <= length l)%nat.
Proof.
  intros Hf. induction l as [|x r IH]; simpl; [lia|].
  rewrite length_app. specialize (Hf x). lia.
Qed.

Section Budget.
Variable g : GraphIndex.

(** Visiting one more node of the universe leaves fewer to visit. *)
Lemma remaining_decreases (n : string) (v : list string) :
  In n (universe g) -> mem n v = false ->
  (remaining g (n :: v) < remaining g v)%nat.
Proof.
  intros Hin Hn. unfold remaining.
  apply (filter_length_lt _ _ _ n).
  - intros y. simpl. rewrite negb_orb. intros H.
    apply andb_true_iff in H. apply H.
  - exact Hin.
  - rewrite Hn. reflexivity.
  - simpl. rewrite String.eqb_refl. reflexivity.
Qed.

Lemma branching_pos : (1 <= branching g)%N.
Proof. unfold branching. lia. Qed.

Lemma entryBudget_pos (v : list string) : (1 <= entryBudget g v)%N.
Proof.
  unfold entryBudget.
  assert (H : (branching g ^ N.of_nat (remaining g v) <> 0)%N).
  { apply N.pow_nonzero. pose proof branching_pos. lia. }
  lia.
Qed.

(** An entry pushed by an expansion costs a [branching]-th of its parent. *)
Lemma entryBudget_child (n : string) (v : list string) :
  In n (universe g) -> mem n v = false ->
  (branching g * entryBudget g (n :: v) <= entryBudget g v)%N.
Proof.
  intros Hin Hn. unfold entryBudget.
  pose proof (remaining_decreases n v Hin Hn) as Hlt.
  rewrite <- N.pow_succ_r'.
  apply N.pow_le_mono_r; [pose proof branching_pos; lia|lia].
Qed.

Lemma budget_app (a b : list (list string)) :
  budget g (a ++ b) = (budget g a + budget g b)%N.
Proof.
  unfold budget. induction a as [|x r IH]; cbn [fold_right map app]; [reflexivity|].
  rewrite IH. lia.
Qed.

Lemma budget_perm (a b : list (list string)) :
  Permutation a b -> budget g a = budget g b.
Proof.
  unfold budget. induction 1; cbn [fold_right map]; lia.
Qed.

(** The entries an expansion may push: one more visited node, taken from
    the universe and new to the path. *)
Definition extends (v v' : list string) : Prop :=
  exists n, v' = n :: v /\ In n (universe g) /\ mem n v = false.

Lemma children_budget (v : list string) (news : list (list string)) :
  Forall (extends v) news ->
  (branching g * budget g news <= N.of_nat (length news) * entryBudget g v)%N.
Proof.
  induction 1 as [|v' r [n [-> [Hin Hn]]] _ IH].
  - unfold budget. cbn [map fold_right length]. lia.
  - pose proof (entryBudget_child n v Hin Hn) as Hc.
    change (budget g ((n :: v) :: r))
      with (entryBudget g (n :: v) + budget g r)%N.
    cbn [length]. lia.
Qed.

(** Dropping the entry a turn pops lowers the budget. *)
Lemma pop_budget (q : list (list string)) (cur : list string)
    (rest : list (list string)) :
  Permutation q (cur :: rest) ->
  (N.to_nat (budget g rest) < N.to_nat (budget g q))%nat.
Proof.
  intros Hp. rewrite (budget_perm Hp).
  change (budget g (cur :: rest)) with (entryBudget g cur + budget g rest)%N.
  pose proof (entryBudget_pos cur). lia.
Qed.

(** Replacing the popped entry by the entries of its expansion lowers the
    budget as well. *)
Lemma expand_budget (q : list (list string)) (cur : list string)
    (rest news : list (list string)) :
  Permutation q (cur :: rest) ->
  Forall (extends cur) news ->
  (length news <= 2 * length (edges g))%nat ->
  (N.to_nat (budget g (rest ++ news)) < N.to_nat (budget g q))%nat.
Proof.
  intros Hp Hnews Hlen. rewrite (budget_perm Hp), budget_app.
  change (budget g (cur :: rest)) with (entryBudget g cur + budget g rest)%N.
  pose proof (entryBudget_pos cur) as Hpos.
  pose proof (children_budget Hnews) as Hc.
  assert (Hk : (N.of_nat (length news) + 1 <= branching g)%N)
    by (unfold branching; lia).
  assert (Hlt : (budget g news < entryBudget g cur)%N) by nia.
  lia.
Qed.

Lemma turnBound_enough (visiteds : list (list string)) :
  (N.to_nat (budget g visiteds) <= Pos.to_nat (turnBound g visiteds))%nat.
Proof.
  unfold turnBound.
  pose proof (N.succ_pos_spec (budget g visiteds)) as H.
  assert (E : Pos.to_nat (N.succ_pos (budget g visiteds))
              = N.to_nat (N.pos (N.succ_pos (budget g visiteds)))) by reflexivity.
  rewrite E, H. lia.
Qed.

End Budget.

(** What both loops keep of their results: every result has at least two
    ids and a distance within [maxDepth], no two results have the same
    path, and the signature of every result's path has been recorded. *)
Record resultsInvariant (maxDepth : Q) (results : list PathResult)
    (visitedPaths : list string) : Prop := mkResultsInvariant {
  inv_long : Forall (fun r => (2 <= length (nodeIds r))%nat) results;
  inv_near : Forall (fun r => distance r <= maxDepth) results;
  inv_distinct : NoDup (map nodeIds results);
  inv_seen : Forall (fun r => In (join "->" (nodeIds r)) visitedPaths) results
}.

Lemma resultsInvariant_empty (maxDepth : Q) : resultsInvariant maxDepth [] [].
Proof. constructor; constructor. Qed.

(** The accepting branch of a turn: the signature is recorded, and the
    path becomes a result when it has more than one id. *)
Lemma resultsInvariant_accept (maxDepth : Q) (results : list PathResult)
    (visitedPaths : list string) (path : list string) (dist score : Q)
    (reason : string) :
  resultsInvariant maxDepth results visitedPaths ->
  numLt maxDepth dist = false ->
  mem (join "->" path) visitedPaths = false ->
  resultsInvariant maxDepth
    (if (1 <? length path)%nat
     then results ++ [mkPathResult path dist score reason]
     else results)
    (join "->" path :: visitedPaths).
Proof.
  intros [Hlong Hnear Hdist Hseen] Hd Hnew.
  assert (Hseen' : Forall (fun r => In (join "->" (nodeIds r))
                                       (join "->" path :: visitedPaths)) results).
  { eapply Forall_impl; [|exact Hseen]. intros r Hr. right. exact Hr. }
  destruct (1 <? length path)%nat eqn:El.
  - apply Nat.ltb_lt in El. apply numLt_false in Hd.
    constructor.
    + apply Forall_app. split; [exact Hlong|]. constructor; [simpl; lia|constructor].
    + apply Forall_app. split; [exact Hnear|]. constructor; [exact Hd|constructor].
    + rewrite map_app. apply NoDup_app; [exact Hdist|repeat constructor; intros []|].
      intros p Hp [<-|[]]. simpl in Hp.
      apply in_map_iff in Hp. destruct Hp as [r [Er Hr]].
      rewrite Forall_forall in Hseen. specialize (Hseen r Hr).
      rewrite Er in Hseen. apply mem_false in Hnew. exact (Hnew Hseen).
    + apply Forall_app. split; [exact Hseen'|].
      constructor; [left; reflexivity|constructor].
  - constructor; assumption.
Qed.

Lemma pathScore_order_sorted (results : list PathResult) :
  StronglySorted (fun a b => pathScore b <= pathScore a)
    (sort (fun a b => numLe (pathScore b) (pathScore a)) results).
Proof.
  apply sort_sorted.
  - intros a b H. apply numLe_spec. exact H.
  - intros a b H. apply numLe_false in H. apply Qlt_le_weak. exact H.
  - intros a b c Hab Hbc. eapply Qle_trans; eassumption.
Qed.

(** Ranking the results of a loop that kept the invariant gives a path
    list with everything the specification promises. *)
Lemma rankResults_bounded (maxDepth : Q) (maxResults : nat)
    (results : list PathResult) (visitedPaths : list string) :
  resultsInvariant maxDepth results visitedPaths ->
  Spec.boundedPathList maxDepth maxResults (rankResults maxResults results).
Proof.
  intros [Hlong Hnear Hdist Hseen]. unfold rankResults.
  set (before := fun a b => numLe (pathScore b) (pathScore a)).
  pose proof (sort_perm before results) as Hp.
  constructor.
  - rewrite <- firstn_map. apply NoDup_firstn.
    eapply Permutation_NoDup; [apply Permutation_map; exact Hp|exact Hdist].
  - apply Forall_firstn. eapply Permutation_Forall; [exact Hp|exact Hlong].
  - apply Forall_firstn. eapply Permutation_Forall; [exact Hp|exact Hnear].
  - apply StronglySorted_firstn, pathScore_order_sorted.
  - apply firstn_le_length.
Qed.

End SearchFacts.

(* ===================================================================== *)
(** * The plain search *)
(* ===================================================================== *)

Module PlainFacts.
Import Js JsFacts GraphTypes Search SearchFacts BMSSP.

Section Loop.
Variable graph : GraphIndex.
Variable maxDepth : Q.
Variable maxResults : nat.
Variable minEdgeWeight : Q.

Lemma getValidNeighbors_universe (id : string) (v : list string) (nb : Neighbor) :
  In nb (getValidNeighbors id graph v minEdgeWeight) ->
  In (nb_nodeId nb) (universe graph) /\ mem (nb_nodeId nb) v = false.
Proof.
  unfold getValidNeighbors, universe. intros H.
  apply in_app_or in H. destruct H as [H|H];
    apply in_flat_map in H; destruct H as [e [He H]].
  - destruct ((from e =? id)%string) ; simpl in H; [|contradiction].
    destruct (mem (to e) v) eqn:Em; simpl in H; [contradiction|].
    destruct (numLe minEdgeWeight (weight e)); simpl in H; [|contradiction].
    destruct H as [<-|[]]. simpl. split; [|exact Em].
    apply in_or_app. right. apply in_map. exact He.
  - destruct ((to e =? id)%string) ; simpl in H; [|contradiction].
    destruct (mem (from e) v) eqn:Em; simpl in H; [contradiction|].
    destruct (numLe minEdgeWeight (weight e)); simpl in H; [|contradiction].
    destruct H as [<-|[]]. simpl. split; [|exact Em].
    apply in_or_app. left. apply in_map. exact He.
Qed.

Lemma getValidNeighbors_length (id : string) (v : list string) :
  (length (getValidNeighbors id graph v minEdgeWeight) <= 2 * length (edges graph))%nat.
Proof.
  unfold getValidNeighbors. rewrite length_app.
  pose proof (flat_map_length_le
    (fun edge =>
       if (from edge =? id)%string && negb (mem (to edge) v)
          && numLe minEdgeWeight (weight edge)
       then [mkNeighbor (to edge) (weight edge)] else []) (edges graph)) as H1.
  pose proof (flat_map_length_le
    (fun edge =>
       if (to edge =? id)%string && negb (mem (from edge) v)
          && numLe minEdgeWeight (weight edge)
       then [mkNeighbor (from edge) (weight edge)] else []) (edges graph)) as H2.
  assert (forall b (x : Neighbor), (length (if b : bool then [x] else []) <= 1)%nat)
    as Hb by (intros [] x; simpl; lia).
  specialize (H1 (fun e => Hb _ _)). specialize (H2 (fun e => Hb _ _)). lia.
Qed.

Lemma plain_expand_extends (current : QueueItem) :
  Forall (extends graph (visited current))
         (map visited (expand graph minEdgeWeight current)).
Proof.
  rewrite Forall_forall. intros v Hv.
  apply in_map_iff in Hv. destruct Hv as [item [<- Hitem]].
  unfold expand in Hitem. apply in_flat_map in Hitem.
  destruct Hitem as [nb [Hnb Hitem]].
  apply getValidNeighbors_universe in Hnb. destruct Hnb as [Hu Hm].
  rewrite Hm in Hitem. simpl in Hitem. destruct Hitem as [<-|[]].
  exists (nb_nodeId nb). simpl. repeat split; assumption.
Qed.

Lemma plain_expand_length (current : QueueItem) :
  (length (expand graph minEdgeWeight current) <= 2 * length (edges graph))%nat.
Proof.
  unfold expand.
  etransitivity; [apply flat_map_length_le|apply getValidNeighbors_length].
  intros nb. destruct (negb _); simpl; lia.
Qed.

Definition plainMeasure (st : SearchState) : nat :=
  N.to_nat (budget graph (map visited (queue st))).

Lemma plain_continues_queue (st : SearchState) :
  continues maxResults st = true ->
  exists current rest, sort byDistance (queue st) = current :: rest.
Proof.
  unfold continues. intros H. apply andb_true_iff in H. destruct H as [H _].
  apply Nat.ltb_lt in H. rewrite <- (sort_length byDistance) in H.
  destruct (sort byDistance (queue st)) as [|c r]; [simpl in H; lia|].
  exists c, r. reflexivity.
Qed.

(** Every turn of the loop lowers the budget of the worklist. *)
Lemma plain_step_decreases (st : SearchState) :
  continues maxResults st = true ->
  (plainMeasure (step graph maxDepth minEdgeWeight st) < plainMeasure st)%nat.
Proof.
  intros Hc. destruct (plain_continues_queue st Hc) as [current [rest Hs]].
  assert (Hp : Permutation (map visited (queue st))
                 (visited current :: map visited rest)).
  { change (visited current :: map visited rest)
      with (map visited (current :: rest)).
    rewrite <- Hs. apply Permutation_map, sort_perm. }
  unfold plainMeasure, step. rewrite Hs.
  destruct (numLt maxDepth (distance current));
    [eapply pop_budget; exact Hp|].
  destruct (mem _ (visitedPaths st)); [eapply pop_budget; exact Hp|].
  cbn [queue]. rewrite map_app.
  eapply expand_budget; [exact Hp|apply plain_expand_extends|].
  rewrite length_map. apply plain_expand_length.
Qed.

(** The loop keeps the results invariant. *)
Lemma plain_step_invariant (st : SearchState) :
  resultsInvariant maxDepth (results st) (visitedPaths st) ->
  resultsInvariant maxDepth
    (results (step graph maxDepth minEdgeWeight st))
    (visitedPaths (step graph maxDepth minEdgeWeight st)).
Proof.
  intros Hinv. unfold step.
  destruct (sort byDistance (queue st)) as [|current rest]; [exact Hinv|].
  destruct (numLt maxDepth (distance current)) eqn:Ed; [exact Hinv|].
  destruct (mem (join "->" (path current)) (visitedPaths st)) eqn:Em; [exact Hinv|].
  cbn [results visitedPaths].
  apply resultsInvariant_accept; assumption.
Qed.

End Loop.

Lemma plain_finalState_invariant (graph : GraphIndex) (sourceNodeIds : list string)
    (maxDepth : Q) (maxResults : nat) (minEdgeWeight : Q) :
  let st := finalState graph sourceNodeIds maxDepth maxResults minEdgeWeight in
  resultsInvariant maxDepth (results st) (visitedPaths st).
Proof.
  unfold finalState. rewrite whileWithin_stateAfter.
  apply (stateAfter_invariant (continues maxResults)
           (step graph maxDepth minEdgeWeight)
           (fun st => resultsInvariant maxDepth (results st) (visitedPaths st))).
  - intros st Hst _. apply plain_step_invariant. exact Hst.
  - apply resultsInvariant_empty.
Qed.

(** The main loop ends within the turn bound: [finalState] is the state
    in which the loop condition fails. *)
Lemma plain_finalState_stops (graph : GraphIndex) (sourceNodeIds : list string)
    (maxDepth : Q) (maxResults : nat) (minEdgeWeight : Q) :
  continues maxResults
    (finalState graph sourceNodeIds maxDepth maxResults minEdgeWeight) = false.
Proof.
  unfold finalState. rewrite whileWithin_stateAfter.
  apply (stateAfter_terminates (continues maxResults)
           (step graph maxDepth minEdgeWeight) (plainMeasure graph)).
  - intros st. apply plain_step_decreases.
  - apply turnBound_enough.
Qed.

End PlainFacts.

(* ===================================================================== *)
(** * The search with selective activation *)
(* ===================================================================== *)

Module SelectiveFacts.
Import Js JsFacts GraphTypes Search SearchFacts OptimizedBMSSP.

Section Loop.
Variable graph : GraphIndex.
Variable sourceNodeIds : list string.
Variable maxDepth : Q.
Variable maxResults : nat.
Variable minEdgeWeight : Q.

Lemma selective_neighbors_universe (id : string) (v : list string)
    (parentActivationScore : Q) (nb : Neighbor) :
  In nb (getValidNeighborsWithSelectiveActivation id graph v minEdgeWeight
           parentActivationScore) ->
  In (nb_nodeId nb) (universe graph) /\ mem (nb_nodeId nb) v = false.
Proof.
  unfold getValidNeighborsWithSelectiveActivation, universe. intros H.
  apply sort_In in H.
  apply in_app_or in H. destruct H as [H|H];
    apply in_flat_map in H; destruct H as [e [He H]].
  - destruct ((from e =? id)%string) ; simpl in H; [|contradiction].
    destruct (mem (to e) v) eqn:Em; simpl in H; [contradiction|].
    destruct (numLe _ (weight e)); simpl in H; [|contradiction].
    destruct H as [<-|[]]. simpl. split; [|exact Em].
    apply in_or_app. right. apply in_map. exact He.
  - destruct ((to e =? id)%string) ; simpl in H; [|contradiction].
    destruct (mem (from e) v) eqn:Em; simpl in H; [contradiction|].
    destruct (numLe _ (weight e)); simpl in H; [|contradiction].
    destruct H as [<-|[]]. simpl. split; [|exact Em].
    apply in_or_app. left. apply in_map. exact He.
Qed.

Lemma selective_neighbors_length (id : string) (v : list string)
    (parentActivationScore : Q) :
  (length (getValidNeighborsWithSelectiveActivation id graph v minEdgeWeight
             parentActivationScore)
   <= 2 * length (edges graph))%nat.
Proof.
  unfold getValidNeighborsWithSelectiveActivation.
  rewrite sort_length, length_app.
  set (threshold := Qmax minEdgeWeight (0.7 - parentActivationScore * 0.4)).
  pose proof (flat_map_length_le
    (fun edge =>
       if (from edge =? id)%string && negb (mem (to edge) v)
       then if numLe threshold (weight edge)
            then [mkNeighbor (to edge) (weight edge)] else []
       else []) (edges graph)) as H1.
  pose proof (flat_map_length_le
    (fun edge =>
       if (to edge =? id)%string && negb (mem (from edge) v)
       then if numLe threshold (weight edge)
            then [mkNeighbor (from edge) (weight edge)] else []
       else []) (edges graph)) as H2.
  assert (forall b c (x : Neighbor),
            (length (if b : bool then if c : bool then [x] else [] else []) <= 1)%nat)
    as Hb by (intros [] [] x; simpl; lia).
  specialize (H1 (fun e => Hb _ _ _)). specialize (H2 (fun e => Hb _ _ _)). lia.
Qed.

(** What [enqueueNeighbor] pushes, when it pushes. *)
Lemma enqueueNeighbor_item (current : OptimizedQueueItem) (nb : Neighbor)
    (item : OptimizedQueueItem) :
  In item (enqueueNeighbor graph sourceNodeIds current nb) ->
  mem (nb_nodeId nb) (visited current) = false
  /\ numLe 0.15 (propagatedScore graph sourceNodeIds current nb) = true
  /\ item = mkQueueItem (nb_nodeId nb)
              (distance current + nb_weight nb)
              (path current ++ [nb_nodeId nb])
              (nb_nodeId nb :: visited current)
              (propagatedScore graph sourceNodeIds current nb)
              (activationScore current).
Proof.
  unfold enqueueNeighbor.
  destruct (mem (nb_nodeId nb) (visited current)); simpl; [contradiction|].
  destruct (numLe 0.15 _); simpl; [|contradiction].
  intros [<-|[]]. repeat split.
Qed.

Lemma selective_expand_extends (current : OptimizedQueueItem) :
  Forall (extends graph (visited current))
         (map visited (expand graph sourceNodeIds minEdgeWeight current)).
Proof.
  rewrite Forall_forall. intros v Hv.
  apply in_map_iff in Hv. destruct Hv as [item [<- Hitem]].
  unfold expand in Hitem. apply in_flat_map in Hitem.
  destruct Hitem as [nb [Hnb Hitem]].
  apply selective_neighbors_universe in Hnb. destruct Hnb as [Hu Hm].
  apply enqueueNeighbor_item in Hitem. destruct Hitem as [_ [_ ->]].
  exists (nb_nodeId nb). simpl. repeat split; assumption.
Qed.

Lemma selective_expand_length (current : OptimizedQueueItem) :
  (length (expand graph sourceNodeIds minEdgeWeight current)
   <= 2 * length (edges graph))%nat.
Proof.
  unfold expand.
  etransitivity; [apply flat_map_length_le|apply selective_neighbors_length].
  intros nb. unfold enqueueNeighbor.
  destruct (negb _); [destruct (numLe _ _)|]; simpl; lia.
Qed.

Definition selectiveMeasure (st : SearchState) : nat :=
  N.to_nat (budget graph (map visited (queue st))).

Lemma selective_continues_queue (st : SearchState) :
  continues maxResults st = true ->
  exists current rest, sort byPriority (queue st) = current :: rest.
Proof.
  unfold continues. intros H. apply andb_true_iff in H. destruct H as [H _].
  apply Nat.ltb_lt in H. rewrite <- (sort_length byPriority) in H.
  destruct (sort byPriority (queue st)) as [|c r]; [simpl in H; lia|].
  exists c, r. reflexivity.
Qed.

Lemma selective_step_decreases (st : SearchState) :
  continues maxResults st = true ->
  (selectiveMeasure (step graph sourceNodeIds maxDepth minEdgeWeight st)
   < selectiveMeasure st)%nat.
Proof.
  intros Hc. destruct (selective_continues_queue st Hc) as [current [rest Hs]].
  assert (Hp : Permutation (map visited (queue st))
                 (visited current :: map visited rest)).
  { change (visited current :: map visited rest)
      with (map visited (current :: rest)).
    rewrite <- Hs. apply Permutation_map, sort_perm. }
  unfold selectiveMeasure, step. rewrite Hs.
  destruct (numLt maxDepth (distance current) || numLt (activationScore current) 0.25);
    [eapply pop_budget; exact Hp|].
  destruct (mem _ (visitedPaths st)); [eapply pop_budget; exact Hp|].
  cbn [queue]. rewrite map_app.
  eapply expand_budget; [exact Hp|apply selective_expand_extends|].
  rewrite length_map. apply selective_expand_length.
Qed.

Lemma selective_step_invariant (st : SearchState) :
  resultsInvariant maxDepth (results st) (visitedPaths st) ->
  resultsInvariant maxDepth
    (results (step graph sourceNodeIds maxDepth minEdgeWeight st))
    (visitedPaths (step graph sourceNodeIds maxDepth minEdgeWeight st)).
Proof.
  intros Hinv. unfold step.
  destruct (sort byPriority (queue st)) as [|current rest]; [exact Hinv|].
  destruct (numLt maxDepth (distance current)) eqn:Ed; [exact Hinv|].
  destruct (numLt (activationScore current) 0.25) eqn:Ea; [exact Hinv|].
  simpl orb. cbv iota.
  destruct (mem (join "->" (path current)) (visitedPaths st)) eqn:Em; [exact Hinv|].
  cbn [results visitedPaths].
  apply resultsInvariant_accept; assumption.
Qed.

Lemma selective_finalState_invariant :
  let st := finalState graph sourceNodeIds maxDepth maxResults minEdgeWeight in
  resultsInvariant maxDepth (results st) (visitedPaths st).
Proof.
  unfold finalState. rewrite whileWithin_stateAfter.
  apply (stateAfter_invariant (continues maxResults)
           (step graph sourceNodeIds maxDepth minEdgeWeight)
           (fun st => resultsInvariant maxDepth (results st) (visitedPaths st))).
  - intros st Hst _. apply selective_step_invariant. exact Hst.
  - apply resultsInvariant_empty.
Qed.

Lemma selective_finalState_stops :
  continues maxResults
    (finalState graph sourceNodeIds maxDepth maxResults minEdgeWeight) = false.
Proof.
  unfold finalState. rewrite whileWithin_stateAfter.
  apply (stateAfter_terminates (continues maxResults)
           (step graph sourceNodeIds maxDepth minEdgeWeight) selectiveMeasure).
  - intros st. apply selective_step_decreases.
  - apply turnBound_enough.
Qed.

End Loop.
End SelectiveFacts.

(* ===================================================================== *)
(** * The returned path lists *)
(* ===================================================================== *)

Module PathListFacts.
Import Js JsFacts GraphTypes Search SearchFacts.

(** C1: for every graph, every list of source ids and every options
    record, both searches end (the state their result is read from is one
    in which the loop condition fails), and the path list each returns has
    no two paths with the same node-id sequence, at least two ids in every
    path, no distance above [maxDepth], path scores in non-increasing
    order, and at most [maxResults] entries. *)
Theorem findBoundedPaths_returns_bounded_paths
    (graph : GraphIndex) (sourceNodeIds : list string) (options : BMSSPOptions) :
  let maxDepth := Spec.maxDepthOf options in
  let maxResults := Spec.maxResultsOf options in
  let minEdgeWeight := Spec.minEdgeWeightOf options in
  (BMSSP.continues maxResults
     (BMSSP.finalState graph sourceNodeIds maxDepth maxResults minEdgeWeight) = false
   /\ Spec.boundedPathList maxDepth maxResults
        (BMSSP.findBoundedPaths graph sourceNodeIds options))
  /\ (OptimizedBMSSP.continues maxResults
        (OptimizedBMSSP.finalState graph sourceNodeIds maxDepth maxResults
           minEdgeWeight) = false
      /\ Spec.boundedPathList maxDepth maxResults
           (OptimizedBMSSP.paths
              (OptimizedBMSSP.findBoundedPaths graph sourceNodeIds options))).
Proof.
  intros maxDepth maxResults minEdgeWeight. split; split.
  - apply PlainFacts.plain_finalState_stops.
  - unfold BMSSP.findBoundedPaths.
    eapply rankResults_bounded.
    apply PlainFacts.plain_finalState_invariant.
  - apply SelectiveFacts.selective_finalState_stops.
  - unfold OptimizedBMSSP.findBoundedPaths. cbn [OptimizedBMSSP.paths].
    eapply rankResults_bounded.
    apply SelectiveFacts.selective_finalState_invariant.
Qed.

(** Both searches run on the sample chain from [hub]: the plain search
    returns both two-node paths, the selective one drops the path to
    [far], whose propagated score is below the activation floor. *)
Example findBoundedPaths_on_chain :
  map nodeIds
    (BMSSP.findBoundedPaths Samples.chainGraph ["hub"%string]
       (mkOptions None None None))
  = [["hub"; "near"]; ["hub"; "far"]]%string
  /\ map nodeIds
       (OptimizedBMSSP.paths
          (OptimizedBMSSP.findBoundedPaths Samples.chainGraph ["hub"%string]
             (mkOptions None None None)))
     = [["hub"; "near"]]%string.
Proof. vm_compute. split; reflexivity. Qed.

End PathListFacts.

(* ===================================================================== *)
(** * Activation scores along the selective search *)
(* ===================================================================== *)

Module ActivationOrderFacts.
Import Js JsFacts GraphTypes Search SearchFacts OptimizedBMSSP SelectiveFacts.

Lemma calculateNodeActivationScore_le_1 (node : GraphNode)
    (sourceNodeIds : list string) (graph : GraphIndex) :
  calculateNodeActivationScore node sourceNodeIds graph <= 1.
Proof.
  unfold calculateNodeActivationScore.
  eapply Qle_trans; [apply Q.le_min_r|]. lra.
Qed.

Section Loop.
Variable graph : GraphIndex.
Variable sourceNodeIds : list string.
Variable maxDepth : Q.
Variable maxResults : nat.
Variable minEdgeWeight : Q.

Lemma baseScore_le_1 (id : string) : baseScore graph sourceNodeIds id <= 1.
Proof.
  unfold baseScore. destruct (findNode graph id).
  - apply calculateNodeActivationScore_le_1.
  - lra.
Qed.

(** The score handed to a neighbour over an edge of weight in [0, 1] does
    not exceed the score of an entry that passed the activation floor. *)
Lemma propagatedScore_le_parent (current : OptimizedQueueItem) (nb : Neighbor) :
  numLt (activationScore current) 0.25 = false ->
  0 <= nb_weight nb -> nb_weight nb <= 1 ->
  propagatedScore graph sourceNodeIds current nb <= activationScore current.
Proof.
  intros Hfloor Hw0 Hw1. apply numLt_false in Hfloor.
  unfold propagatedScore.
  pose proof (baseScore_le_1 (nb_nodeId nb)) as Hb.
  set (b := baseScore graph sourceNodeIds (nb_nodeId nb)) in *.
  set (w := nb_weight nb) in *. set (a := activationScore current) in *.
  assert (Hbw : b * w <= 1).
  { destruct (Qlt_le_dec b 0) as [Hneg|Hpos]; nra. }
  nra.
Qed.

(** The weight of a neighbour is the weight of an edge of the graph. *)
Lemma neighbor_weight (current : OptimizedQueueItem) (nb : Neighbor) :
  In nb (neighborsOf graph minEdgeWeight current) ->
  exists e, In e (edges graph) /\ nb_weight nb = weight e.
Proof.
  unfold neighborsOf, getValidNeighborsWithSelectiveActivation. intros H.
  apply sort_In in H.
  apply in_app_or in H. destruct H as [H|H];
    apply in_flat_map in H; destruct H as [e [He H]]; exists e; split; try exact He.
  - destruct ((from e =? nodeId current)%string && negb (mem (to e) (visited current)));
      [|contradiction].
    destruct (numLe _ (weight e)); simpl in H; [|contradiction].
    destruct H as [<-|[]]. reflexivity.
  - destruct ((to e =? nodeId current)%string && negb (mem (from e) (visited current)));
      [|contradiction].
    destruct (numLe _ (weight e)); simpl in H; [|contradiction].
    destruct H as [<-|[]]. reflexivity.
Qed.

(** The entries of the worklist after a turn: those left of the sorted
    queue, and, when the popped entry was expanded, what its neighbours
    pushed. *)
Lemma step_queue (st : SearchState) (item : OptimizedQueueItem) :
  In item (queue (step graph sourceNodeIds maxDepth minEdgeWeight st)) ->
  In item (queue st)
  \/ exists current nb,
       In current (queue st)
       /\ numLt (activationScore current) 0.25 = false
       /\ In nb (neighborsOf graph minEdgeWeight current)
       /\ In item (enqueueNeighbor graph sourceNodeIds current nb).
Proof.
  unfold step.
  destruct (sort byPriority (queue st)) as [|current rest] eqn:Hs; [tauto|].
  assert (Hrest : forall x, In x (current :: rest) -> In x (queue st)).
  { intros x Hx. rewrite <- Hs in Hx. apply sort_In in Hx. exact Hx. }
  destruct (numLt maxDepth (distance current)); simpl orb; cbv iota.
  { intros H. left. apply Hrest. right. exact H. }
  destruct (numLt (activationScore current) 0.25) eqn:Ea.
  { intros H. left. apply Hrest. right. exact H. }
  destruct (mem _ (visitedPaths st)).
  { intros H. left. apply Hrest. right. exact H. }
  cbn [queue]. intros H. apply in_app_or in H. destruct H as [H|H].
  - left. apply Hrest. right. exact H.
  - right. unfold expand in H. apply in_flat_map in H.
    destruct H as [nb [Hnb Hitem]].
    exists current, nb. repeat split; try assumption.
    apply Hrest. left. reflexivity.
Qed.

(** A property of worklist entries that the seeds have and that every
    pushed entry has holds of every entry the worklist ever holds. *)
Lemma run_entries (P : OptimizedQueueItem -> Prop) :
  (forall item, In item (initialQueue graph sourceNodeIds) -> P item) ->
  (forall current nb item,
     numLt (activationScore current) 0.25 = false ->
     In nb (neighborsOf graph minEdgeWeight current) ->
     In item (enqueueNeighbor graph sourceNodeIds current nb) -> P item) ->
  forall n item,
    In item (queue (stateAfterTurns graph sourceNodeIds maxDepth maxResults
                      minEdgeWeight n)) ->
    P item.
Proof.
  intros Hseed Hpush n.
  assert (H : Forall P (queue (stateAfterTurns graph sourceNodeIds maxDepth
                                maxResults minEdgeWeight n))).
  { unfold stateAfterTurns.
    apply (stateAfter_invariant (continues maxResults)
             (step graph sourceNodeIds maxDepth minEdgeWeight)
             (fun st => Forall P (queue st))).
    - intros st Hst _. rewrite Forall_forall in *. intros item Hitem.
      apply step_queue in Hitem.
      destruct Hitem as [Hold|[current [nb [_ [Hfloor [Hnb Hitem]]]]]].
      + apply Hst. exact Hold.
      + eapply Hpush; eassumption.
    - rewrite Forall_forall. exact Hseed. }
  rewrite Forall_forall in H. exact H.
Qed.

End Loop.

(** C2: in the selective search, an entry that is expanded hands to every
    neighbour it enqueues over an edge of weight in [0, 1] the score base
    score x edge weight x its own score, which is at most its own score,
    and records its own score as the neighbour's parent score; hence, in a
    graph whose edge weights lie in [0, 1], every entry the worklist ever
    holds has an activation score at most its parent score. *)
Theorem activation_scores_do_not_increase
    (graph : GraphIndex) (sourceNodeIds : list string)
    (maxDepth : Q) (maxResults : nat) (minEdgeWeight : Q) :
  (forall current nb item,
     numLt (activationScore current) 0.25 = false ->
     0 <= nb_weight nb -> nb_weight nb <= 1 ->
     In item (enqueueNeighbor graph sourceNodeIds current nb) ->
     activationScore item
     = baseScore graph sourceNodeIds (nb_nodeId nb) * nb_weight nb
       * activationScore current
     /\ parentScore item = activationScore current
     /\ activationScore item <= activationScore current)
  /\ ((forall e, In e (edges graph) -> 0 <= weight e /\ weight e <= 1) ->
      forall n item,
        In item (queue (stateAfterTurns graph sourceNodeIds maxDepth maxResults
                          minEdgeWeight n)) ->
        activationScore item <= parentScore item).
Proof.
  split.
  - intros current nb item Hfloor Hw0 Hw1 Hitem.
    apply enqueueNeighbor_item in Hitem. destruct Hitem as [_ [_ ->]].
    cbn [activationScore parentScore].
    split; [reflexivity|]. split; [reflexivity|].
    apply propagatedScore_le_parent; assumption.
  - intros Hweights.
    apply (@run_entries graph sourceNodeIds maxDepth maxResults minEdgeWeight
             (fun item => activationScore item <= parentScore item)).
    + intros item Hitem. unfold initialQueue in Hitem.
      apply in_flat_map in Hitem. destruct Hitem as [id [_ Hitem]].
      destruct (findNode graph id) as [node|]; [|contradiction].
      destruct Hitem as [<-|[]]. cbn [activationScore parentScore].
      eapply Qle_trans; [apply calculateNodeActivationScore_le_1|]. lra.
    + intros current nb item Hfloor Hnb Hitem.
      destruct (neighbor_weight _ _ _ _ Hnb) as [e [He Hw]].
      destruct (Hweights e He) as [Hw0 Hw1]. rewrite <- Hw in Hw0, Hw1.
      apply enqueueNeighbor_item in Hitem. destruct Hitem as [_ [_ ->]].
      cbn [activationScore parentScore].
      apply propagatedScore_le_parent; assumption.
Qed.

(** The theorem at the seed of the sample chain and its edge to [near]. *)
Lemma activation_scores_do_not_increase_witness :
  enqueueNeighbor Samples.chainGraph ["hub"%string] Samples.hubSeed
    Samples.nearNeighbor <> []
  /\ Forall (fun item => activationScore item <= activationScore Samples.hubSeed)
       (enqueueNeighbor Samples.chainGraph ["hub"%string] Samples.hubSeed
          Samples.nearNeighbor).
Proof.
  split; [vm_compute; discriminate|].
  rewrite Forall_forall. intros item Hitem.
  destruct (@activation_scores_do_not_increase Samples.chainGraph ["hub"%string]
              3 10%nat 0.1) as [H _].
  apply (H Samples.hubSeed Samples.nearNeighbor item).
  - vm_compute. reflexivity.
  - vm_compute. discriminate.
  - vm_compute. discriminate.
  - exact Hitem.
Defined.

(** C10: in the selective search every entry the worklist ever holds is a
    seed or has an activation score of at least 0.15, so a neighbour whose
    propagated score is below 0.15 is never enqueued; and an entry whose
    score is below the floor of 0.25 is dropped when it is popped: the
    turn leaves the results, the recorded signatures and the activated
    nodes as they were and pushes nothing. *)
Theorem enqueue_threshold_below_floor
    (graph : GraphIndex) (sourceNodeIds : list string)
    (maxDepth : Q) (maxResults : nat) (minEdgeWeight : Q) :
  (forall n item,
     In item (queue (stateAfterTurns graph sourceNodeIds maxDepth maxResults
                       minEdgeWeight n)) ->
     In item (initialQueue graph sourceNodeIds) \/ 0.15 <= activationScore item)
  /\ (forall nb current,
        propagatedScore graph sourceNodeIds current nb < 0.15 ->
        enqueueNeighbor graph sourceNodeIds current nb = [])
  /\ (forall st current rest,
        sort byPriority (queue st) = current :: rest ->
        activationScore current < 0.25 ->
        step graph sourceNodeIds maxDepth minEdgeWeight st
        = mkState rest (results st) (visitedPaths st) (activatedNodes st)).
Proof.
  split; [|split].
  - apply (@run_entries graph sourceNodeIds maxDepth maxResults minEdgeWeight
             (fun item => In item (initialQueue graph sourceNodeIds)
                          \/ 0.15 <= activationScore item)).
    + intros item Hitem. left. exact Hitem.
    + intros current nb item _ _ Hitem. right.
      apply enqueueNeighbor_item in Hitem. destruct Hitem as [_ [Hs ->]].
      cbn [activationScore]. apply numLe_spec. exact Hs.
  - intros nb current Hlow. unfold enqueueNeighbor.
    apply numLe_false in Hlow. rewrite Hlow.
    destruct (negb _); reflexivity.
  - intros st current rest Hs Hlow. unfold step. rewrite Hs.
    apply numLt_spec in Hlow. rewrite Hlow, orb_true_r. reflexivity.
Qed.

(** The theorem at the sample chain: after two turns the worklist holds
    the entry of [far] alone, enqueued with a score between 0.15 and 0.25,
    and the third turn drops it. *)
Lemma enqueue_threshold_below_floor_witness :
  let st := stateAfterTurns Samples.chainGraph ["hub"%string] 3 10 0.1 2 in
  Forall (fun item => 0.15 <= activationScore item /\ activationScore item < 0.25)
         (queue st)
  /\ length (queue st) = 1%nat
  /\ step Samples.chainGraph ["hub"%string] 3 0.1 st
     = mkState [] (results st) (visitedPaths st) (activatedNodes st).
Proof.
  intros st.
  destruct (@enqueue_threshold_below_floor Samples.chainGraph ["hub"%string]
              3 10%nat 0.1) as [Hin [_ Hdrop]].
  split; [|split].
  - rewrite Forall_forall. intros item Hitem. split.
    + destruct (Hin 2%nat item Hitem) as [Hseed|Hge]; [|exact Hge].
      exfalso. vm_compute in Hitem, Hseed.
      destruct Hitem as [<-|[]]. destruct Hseed as [Hseed|[]]. discriminate Hseed.
    + vm_compute in Hitem. destruct Hitem as [<-|[]]. vm_compute. reflexivity.
  - reflexivity.
  - eapply (Hdrop st).
    + vm_compute. reflexivity.
    + vm_compute. reflexivity.
Defined.

End ActivationOrderFacts.

(* ===================================================================== *)
(** * Facts about the tree walks and the shape of the generated tree *)
(* ===================================================================== *)

Module TreeShapeFacts.
Import Js JsFacts TreeGenerator TreeTools.

(** Induction over a tree, with the hypothesis for all children. *)
Fixpoint tree_induction (P : TreeNode -> Prop)
    (step : forall n, Forall P (children n) -> P n) (n : TreeNode) : P n :=
  step n
    ((fix all (l : list TreeNode) : Forall P l :=
        match l with
        | [] => @Forall_nil _ P
        | c :: r => @Forall_cons _ P c r (@tree_induction P step c) (all r)
        end) (children n)).

Lemma flattenTree_cons (n : TreeNode) (r : list TreeNode) :
  flattenTree (n :: r) = n :: flattenTree (children n) ++ flattenTree r.
Proof. unfold flattenTree. simpl. destruct n; reflexivity. Qed.

Lemma countVisit_children (l : list TreeNode) (count : nat) :
  Forall (fun n => forall c, countVisit n c = (c + length (flattenNode n))%nat) l ->
  fold_left (fun c child => countVisit child c) l count
  = (count + length (flattenTree l))%nat.
Proof.
  intros H. revert count. induction H as [|n r Hn _ IH]; intros count; simpl.
  - unfold flattenTree. simpl. lia.
  - rewrite IH, Hn. unfold flattenTree. simpl flat_map.
    rewrite length_app. lia.
Qed.

Lemma countVisit_flatten (n : TreeNode) :
  forall count, countVisit n count = (count + length (flattenNode n))%nat.
Proof.
  induction n as [n IH] using tree_induction. intros count.
  destruct n as [t i s e sm tx kids]. simpl in *.
  fold (flattenTree kids).
  destruct kids as [|k ks].
  - simpl. lia.
  - change (0 <? length (k :: ks))%nat with true. cbv iota.
    rewrite (countVisit_children (S count) IH). lia.
Qed.

(** X1: [countNodes] counts what [flattenTree] lists. *)
Theorem countNodes_is_flatten_length (nodes : list TreeNode) :
  countNodes nodes = length (flattenTree nodes).
Proof.
  unfold countNodes. rewrite countVisit_children; [reflexivity|].
  rewrite Forall_forall. intros n _. apply countVisit_flatten.
Qed.

(** The number of levels of the subtree of a node: 1 for a leaf. *)
Fixpoint levels (node : TreeNode) : nat :=
  S (list_max (map levels (children node))).

Lemma levels_pos (n : TreeNode) : (1 <= levels n)%nat.
Proof. destruct n. simpl. lia. Qed.

Definition reaches (n : TreeNode) : Prop :=
  forall depth maxDepth, (depth <= maxDepth)%nat ->
  depthVisit n depth maxDepth = Nat.max maxDepth (depth + levels n - 1).

Lemma depthVisit_children (l : list TreeNode) (depth m : nat) :
  Forall reaches l -> (depth <= m)%nat ->
  fold_left (fun m node => depthVisit node depth m) l m
  = Nat.max m (depth + list_max (map levels l) - 1).
Proof.
  intros H. revert m. induction H as [|n r Hn _ IH]; intros m Hm; simpl.
  - lia.
  - rewrite IH; [|rewrite (Hn depth m Hm); lia].
    rewrite (Hn depth m Hm). pose proof (levels_pos n). lia.
Qed.

Lemma depthTraverse_levels (l : list TreeNode) (depth m : nat) :
  Forall reaches l ->
  depthTraverse depthVisit l depth m
  = Nat.max (Nat.max m depth) (depth + list_max (map levels l) - 1).
Proof.
  intros H. unfold depthTraverse.
  destruct (m <? depth)%nat eqn:E.
  - apply Nat.ltb_lt in E. rewrite depthVisit_children; [lia|exact H|lia].
  - apply Nat.ltb_ge in E. rewrite depthVisit_children; [lia|exact H|lia].
Qed.

Lemma depthVisit_reaches (n : TreeNode) : reaches n.
Proof.
  induction n as [n IH] using tree_induction. intros depth m Hm.
  destruct n as [t i s e sm tx kids]. simpl in *.
  destruct kids as [|k ks].
  - simpl. lia.
  - change (0 <? length (k :: ks))%nat with true. cbv iota.
    rewrite (depthTraverse_levels (depth + 1) m IH).
    pose proof (levels_pos k). simpl map. simpl list_max. lia.
Qed.

(** X2: [getMaxDepth] is the number of levels of the deepest tree of the
    list, and 1, not 0, for the empty list. *)
Theorem getMaxDepth_is_levels (nodes : list TreeNode) :
  getMaxDepth nodes = Nat.max 1 (list_max (map levels nodes)).
Proof.
  unfold getMaxDepth. rewrite depthTraverse_levels.
  - lia.
  - rewrite Forall_forall. intros n _. apply depthVisit_reaches.
Qed.

Lemma take_drop_app {A} (p : A -> bool) (l : list A) :
  takeWhile p l ++ dropWhile p l = l.
Proof.
  induction l as [|x r IH]; simpl; [reflexivity|].
  destruct (p x); simpl; [rewrite IH|]; reflexivity.
Qed.

(** [buildHierarchy] turns every section into one node: in pre-order the
    nodes carry the ids of the sections, in the order of the sections. *)
Lemma buildHierarchy_preorder (l : list DocumentNode) (minLevel : Z) :
  map nodeId (flattenTree (buildHierarchy l minLevel)) = map sec_nodeId l.
Proof.
  funelim (buildHierarchy l minLevel).
  - reflexivity.
  - rewrite flattenTree_cons. simpl. rewrite map_app, H, H0.
    rewrite <- map_app, take_drop_app. reflexivity.
Qed.

Section Generator.
Variable config : TreeGeneratorConfig.
Variable genId : nat -> string.

(** What the loop of [identifySections] has consumed: the contents of the
    closed sections, then those of the open one. *)
Definition consumed (st : SegState) : list string :=
  flat_map sec_content (sections st)
  ++ match currentSection st with Some cur => sec_content cur | None => [] end.

(** The ids given out so far: the closed sections', then the open one's. *)
Definition givenIds (st : SegState) : list string :=
  map sec_nodeId (sections st)
  ++ match currentSection st with Some cur => [sec_nodeId cur] | None => [] end.

Lemma identifyStep_consumed (st : SegState) (paragraph : string) :
  consumed (identifyStep config genId st paragraph) = consumed st ++ [paragraph].
Proof.
  unfold identifyStep, consumed.
  destruct (isHeading (analyzeParagraphForSection config paragraph));
    destruct (currentSection st) as [cur|]; simpl;
    rewrite ?flat_map_app; simpl; rewrite ?app_nil_r, <- ?app_assoc; reflexivity.
Qed.

Lemma identifyStep_ids (st : SegState) (paragraph : string) :
  givenIds st = map genId (seq 0 (idsDrawn st)) ->
  givenIds (identifyStep config genId st paragraph)
  = map genId (seq 0 (idsDrawn (identifyStep config genId st paragraph))).
Proof.
  unfold identifyStep, givenIds. intros H.
  destruct (isHeading (analyzeParagraphForSection config paragraph));
    destruct (currentSection st) as [cur|]; cbn -[seq] in *;
    rewrite ?map_app in *; cbn -[seq] in *; rewrite ?app_nil_r in *;
    try exact H;
    rewrite seq_S, map_app; cbn -[seq]; rewrite <- H, <- ?app_assoc;
    reflexivity.
Qed.

Lemma identifyLoop_consumed (paragraphs : list string) (st : SegState) :
  consumed (fold_left (identifyStep config genId) paragraphs st)
  = consumed st ++ paragraphs.
Proof.
  revert st; induction paragraphs as [|p r IH]; intros st; simpl.
  - rewrite app_nil_r. reflexivity.
  - rewrite IH, identifyStep_consumed, <- app_assoc. reflexivity.
Qed.

Lemma identifyLoop_ids (paragraphs : list string) (st : SegState) :
  givenIds st = map genId (seq 0 (idsDrawn st)) ->
  givenIds (fold_left (identifyStep config genId) paragraphs st)
  = map genId (seq 0 (idsDrawn (fold_left (identifyStep config genId) paragraphs st))).
Proof.
  revert st; induction paragraphs as [|p r IH]; intros st H; simpl.
  - exact H.
  - apply IH, identifyStep_ids, H.
Qed.

Lemma finishSections_consumed (st : SegState) :
  flat_map sec_content (finishSections st) = consumed st.
Proof.
  unfold finishSections, consumed.
  destruct (currentSection st) as [cur|]; [|rewrite app_nil_r; reflexivity].
  rewrite flat_map_app. simpl. rewrite app_nil_r. reflexivity.
Qed.

Lemma finishSections_ids (st : SegState) :
  map sec_nodeId (finishSections st) = givenIds st.
Proof.
  unfold finishSections, givenIds.
  destruct (currentSection st) as [cur|]; [|rewrite app_nil_r; reflexivity].
  rewrite map_app. reflexivity.
Qed.

(** X3: [identifySections] loses no paragraph and invents none: the contents
    of the sections, one after the other, are the paragraphs. *)
Theorem identifySections_keeps_paragraphs (paragraphs : list string) :
  flat_map sec_content (fst (identifySections config genId paragraphs))
  = paragraphs.
Proof.
  unfold identifySections. simpl fst.
  rewrite finishSections_consumed, identifyLoop_consumed. reflexivity.
Qed.

(** The sections carry the identifiers in the order they were drawn. *)
Lemma identifySections_ids (paragraphs : list string) :
  let (secs, drawn) := identifySections config genId paragraphs in
  map sec_nodeId secs = map genId (seq 0 drawn) /\ drawn = length secs.
Proof.
  unfold identifySections.
  pose proof (@identifyLoop_ids paragraphs initialSegState eq_refl) as H.
  rewrite <- finishSections_ids in H.
  split; [exact H|].
  apply (f_equal (@length string)) in H.
  rewrite !length_map, length_seq in H. symmetry. exact H.
Qed.

(** X4: The tree [generateTree] returns has one node per section under one
    root: listed in pre-order, its node ids are the root's, which is drawn
    last, and then the sections' in the order they were drawn; a text
    without sections gives no node at all. *)
Theorem generateTree_node_ids
    (content title : string) (description : option string) :
  let tree := generateTree config genId content title description in
  let n := length (fst (identifySections config genId (splitIntoParagraphs content))) in
  map nodeId (flattenTree (nodes tree))
  = match n with
    | O => []
    | S _ => genId n :: map genId (seq 0 n)
    end.
Proof.
  unfold generateTree.
  pose proof (identifySections_ids (splitIntoParagraphs content)) as Hids.
  destruct (identifySections config genId (splitIntoParagraphs content))
    as [secs drawn].
  destruct Hids as [Hids ->]. simpl fst. cbv zeta. cbn [nodes].
  destruct secs as [|s0 secs']; [reflexivity|].
  set (secs := s0 :: secs') in *.
  pose proof (buildHierarchy_preorder secs 0) as Hpre.
  rewrite Hids in Hpre.
  unfold buildNodes, secs at 1. rewrite flattenTree_cons.
  cbn [children nodeId map app]. rewrite app_nil_r.
  change (flattenNode ?r) with (r :: flattenTree (children r)).
  cbn [children nodeId map]. rewrite Hpre. reflexivity.
Qed.

End Generator.

End TreeShapeFacts.

(* ===================================================================== *)
(** * Facts about paragraphs, summaries and heading levels *)
(* ===================================================================== *)

Module SegmenterFacts.
Import Js JsFacts ParagraphFacts GraphTypes.

Lemma length_str (l : list ascii) : String.length (str l) = length l.
Proof. induction l as [|c r IH]; simpl; [|rewrite IH]; reflexivity. Qed.

Lemma length_chars (s : string) : length (chars s) = String.length s.
Proof. induction s as [|c r IH]; simpl; [|rewrite IH]; reflexivity. Qed.

Lemma length_append (a b : string) :
  String.length (a ++ b) = (String.length a + String.length b)%nat.
Proof. induction a as [|c r IH]; simpl; [|rewrite IH]; reflexivity. Qed.

Lemma length_substring (n : nat) (s : string) :
  (String.length (substring 0 n s) <= n)%nat.
Proof.
  revert s; induction n as [|n IH]; intros [|c r]; simpl; try lia.
  specialize (IH r). lia.
Qed.

(** X5: A summary is never longer than the configured maximum, unless that is
    below the three characters of the ellipsis; a summary of the graph
    indexer is never longer than 200 characters. *)
Theorem summary_length_bounded
    (config : TreeGenerator.TreeGeneratorConfig) (content : list string) :
  (String.length (TreeGenerator.generateSummary config content)
     <= Nat.max (TreeGenerator.maxSummaryLength config) 3)%nat
  /\ (String.length (GraphIndexer.generateSummary content) <= 200)%nat.
Proof.
  unfold TreeGenerator.generateSummary, GraphIndexer.generateSummary. split.
  - destruct (String.length (join " " content) <=? _)%nat eqn:E.
    + apply Nat.leb_le in E. lia.
    + rewrite length_append.
      pose proof (length_substring (TreeGenerator.maxSummaryLength config - 3)
                    (join " " content)).
      simpl String.length. lia.
  - destruct (String.length (join " " content) <=? 200)%nat eqn:E.
    + apply Nat.leb_le in E. exact E.
    + rewrite length_append.
      pose proof (length_substring (200 - 3) (join " " content)).
      simpl String.length. simpl Nat.sub in *. lia.
Qed.

(** ** Trimmed paragraphs *)

Definition noBlankAtStart (l : list ascii) : Prop :=
  match l with c :: _ => isSpace c = false | [] => True end.

Lemma dropWhile_start {A} (p : A -> bool) (l : list A) :
  match dropWhile p l with x :: _ => p x = false | [] => True end.
Proof.
  induction l as [|x r IH]; simpl; [exact I|].
  destruct (p x) eqn:E; [exact IH | exact E].
Qed.

Lemma dropWhile_id {A} (p : A -> bool) (l : list A) :
  match l with x :: _ => p x = false | [] => True end -> dropWhile p l = l.
Proof. destruct l as [|x r]; simpl; [reflexivity|]. intros ->. reflexivity. Qed.

Lemma dropWhile_suffix {A} (p : A -> bool) (l : list A) :
  exists pre, l = pre ++ dropWhile p l.
Proof.
  induction l as [|x r [pre IH]]; simpl; [exists []; reflexivity|].
  destruct (p x); [exists (x :: pre); simpl; rewrite <- IH; reflexivity
                  | exists []; reflexivity].
Qed.

Lemma trimChars_start (l : list ascii) : noBlankAtStart (trimChars l).
Proof.
  unfold trimChars.
  pose proof (dropWhile_start isSpace l) as Hd.
  destruct (dropWhile_suffix isSpace (rev (dropWhile isSpace l))) as [pre Hpre].
  set (d := dropWhile isSpace l) in *.
  set (r := dropWhile isSpace (rev d)) in *.
  apply (f_equal (@rev ascii)) in Hpre.
  rewrite rev_involutive, rev_app_distr in Hpre.
  destruct (rev r) as [|c t]; [exact I|].
  rewrite Hpre in Hd. simpl in Hd. exact Hd.
Qed.

Lemma trimChars_end (l : list ascii) : noBlankAtStart (rev (trimChars l)).
Proof.
  unfold trimChars. rewrite rev_involutive. apply dropWhile_start.
Qed.

Lemma trimChars_fixed (l : list ascii) :
  noBlankAtStart l -> noBlankAtStart (rev l) -> trimChars l = l.
Proof.
  intros H1 H2. unfold trimChars.
  rewrite (dropWhile_id isSpace l H1), (dropWhile_id isSpace (rev l) H2).
  apply rev_involutive.
Qed.

(** A paragraph is not empty and has no blank at either end: trimming it
    again changes nothing. *)
Definition trimmed (p : string) : Prop :=
  p <> EmptyString
  /\ noBlankAtStart (chars p) /\ noBlankAtStart (rev (chars p))
  /\ trim p = p.

Lemma str_chars (s : string) : str (chars s) = s.
Proof. apply string_of_list_ascii_of_string. Qed.

Lemma trim_trimmed (s : string) :
  trim s <> EmptyString -> trimmed (trim s).
Proof.
  intros Hne. unfold trimmed, trim in *. rewrite chars_str.
  repeat split.
  - exact Hne.
  - apply trimChars_start.
  - apply trimChars_end.
  - f_equal. apply trimChars_fixed; [apply trimChars_start|apply trimChars_end].
Qed.

(** X6: [splitIntoParagraphs], of the tree generator and of the graph indexer
    alike, returns paragraphs that are not empty and that begin and end
    with a character that is not a blank. *)
Theorem paragraphs_are_trimmed (content : string) :
  Forall trimmed (TreeGenerator.splitIntoParagraphs content)
  /\ Forall trimmed (GraphIndexer.splitIntoParagraphs content).
Proof.
  change (GraphIndexer.splitIntoParagraphs content)
    with (TreeGenerator.splitIntoParagraphs content).
  cut (Forall trimmed (TreeGenerator.splitIntoParagraphs content));
    [intros H; split; exact H|].
  unfold TreeGenerator.splitIntoParagraphs.
  rewrite Forall_forall. intros p Hp.
  apply filter_In in Hp. destruct Hp as [Hin Hlen].
  apply in_map_iff in Hin. destruct Hin as [s [<- _]].
  apply trim_trimmed. intros E. rewrite E in Hlen. discriminate.
Qed.

(** ** Heading levels *)

Lemma splitCharFrom_nonempty (n : nat) (cur l : list ascii) :
  (1 <= length (splitCharFrom n cur l))%nat.
Proof.
  revert cur; induction l as [|c r IH]; intros cur; simpl; [lia|].
  destruct (isChar n c); simpl; [lia|apply IH].
Qed.

Lemma matchMarkdown_hashes (p hashes rest : string) :
  matchMarkdown p = Some (hashes, rest) ->
  (1 <= String.length hashes <= 6)%nat.
Proof.
  unfold matchMarkdown.
  destruct ((1 <=? length (takeWhile (isChar 35) (chars p)))
            && (length (takeWhile (isChar 35) (chars p)) <=? 6))%nat eqn:E;
    [|discriminate].
  destruct (dropWhile (isChar 35) (chars p)) as [|c t]; [discriminate|].
  destruct (isSpace c); [|discriminate].
  intros [= <- _]. rewrite length_str.
  apply andb_prop in E. destruct E as [E1 E2].
  apply Nat.leb_le in E1, E2. lia.
Qed.

Definition levelInRange (isHeading : bool) (level : Z) : Prop :=
  if isHeading then (1 <= level <= 4)%Z else level = 0%Z.

Lemma numbered_level (num : string) :
  (1 <= Z.min (Z.of_nat (length (splitChar 46 num))) 4 <= 4)%Z.
Proof.
  pose proof (splitCharFrom_nonempty 46 [] (chars num)).
  unfold splitChar. lia.
Qed.

Lemma markdown_level (p hashes rest : string) :
  matchMarkdown p = Some (hashes, rest) ->
  (1 <= Z.min (Z.of_nat (String.length hashes)) 4 <= 4)%Z.
Proof. intros H. apply matchMarkdown_hashes in H. lia. Qed.

Lemma analyzeParagraphForSection_level
    (config : TreeGenerator.TreeGeneratorConfig) (p : string) :
  let info := TreeGenerator.analyzeParagraphForSection config p in
  levelInRange (TreeGenerator.isHeading info) (TreeGenerator.info_level info).
Proof.
  unfold TreeGenerator.analyzeParagraphForSection, levelInRange.
  destruct (TreeGenerator.matchCustomPatterns _ p); [simpl; lia|].
  destruct (matchNumbered p) as [[num rest]|]; [simpl; apply numbered_level|].
  destruct (matchMarkdown p) as [[hashes rest]|] eqn:E;
    [simpl; eapply markdown_level; exact E|].
  destruct (testCommonSections p && _); [simpl; lia|].
  destruct (TreeGenerator.looksLikeLabel p); simpl; lia.
Qed.

Lemma analyzeParagraph_level (p : string) :
  let info := GraphIndexer.analyzeParagraph p in
  levelInRange (GraphIndexer.isSection info) (GraphIndexer.info_level info).
Proof.
  unfold GraphIndexer.analyzeParagraph, levelInRange.
  destruct (matchMarkdown p) as [[hashes rest]|] eqn:E;
    [simpl; eapply markdown_level; exact E|].
  destruct (matchNumbered p) as [[num rest]|]; [simpl; apply numbered_level|].
  destruct (testCommonSections p && _); simpl; lia.
Qed.

Section Generator.
Import TreeGenerator.
Variable config : TreeGeneratorConfig.
Variable genId : nat -> string.

Definition levelled (s : DocumentNode) : Prop := (1 <= sec_level s <= 4)%Z.

Definition levelledState (st : SegState) : Prop :=
  Forall levelled (sections st)
  /\ match currentSection st with Some cur => levelled cur | None => True end.

Lemma identifyStep_levelled (st : SegState) (paragraph : string) :
  levelledState st -> levelledState (identifyStep config genId st paragraph).
Proof.
  unfold levelledState, identifyStep. intros [Hs Hc].
  pose proof (analyzeParagraphForSection_level config paragraph) as Hl.
  cbv zeta in Hl. unfold levelInRange in Hl.
  destruct (isHeading (analyzeParagraphForSection config paragraph)).
  - destruct (currentSection st) as [cur|]; simpl; split;
      try exact Hl; try exact Hs.
    apply Forall_app. split; [exact Hs|]. constructor; [exact Hc|constructor].
  - destruct (currentSection st) as [cur|]; simpl; split;
      try exact Hs; try exact Hc; try exact I.
    apply Forall_app. split; [exact Hs|].
    constructor; [unfold levelled; simpl; lia|constructor].
Qed.

Lemma identifySections_levelled (paragraphs : list string) :
  Forall levelled (fst (identifySections config genId paragraphs)).
Proof.
  assert (H : levelledState (fold_left (identifyStep config genId) paragraphs
                               initialSegState)).
  { generalize initialSegState, (conj (Forall_nil levelled) I
        : levelledState initialSegState).
    induction paragraphs as [|p r IH]; intros st Hst; simpl; [exact Hst|].
    apply IH, identifyStep_levelled, Hst. }
  unfold identifySections. simpl fst. unfold finishSections.
  destruct H as [Hs Hc].
  destruct (currentSection _) as [cur|]; [|exact Hs].
  apply Forall_app. split; [exact Hs|]. constructor; [exact Hc|constructor].
Qed.

(** X7: Every section [identifySections] returns has a level from 1 to 4, so
    [buildHierarchy] never falls back on its [minLevel]. *)
Theorem section_levels_in_range (paragraphs : list string) :
  Forall (fun s => (1 <= sec_level s <= 4)%Z
                   /\ forall minLevel, effectiveLevel s minLevel = sec_level s)
    (fst (identifySections config genId paragraphs)).
Proof.
  eapply Forall_impl; [|apply identifySections_levelled].
  intros s Hl. split; [exact Hl|]. intros m. unfold effectiveLevel.
  unfold levelled in Hl. destruct (Z.eqb_spec (sec_level s) 0); [lia|reflexivity].
Qed.

End Generator.

End SegmenterFacts.

(* ===================================================================== *)
(** * Facts about the nodes and edges of a graph index *)
(* ===================================================================== *)

Module IndexShapeFacts.
Import Js JsFacts GraphTypes GraphIndexer GraphIndexFacts SegmenterFacts.

Definition isSectionParagraph (p : string) : bool := isSection (analyzeParagraph p).

(** The paragraphs that are headings, each with its index among the
    paragraphs, the first paragraph having the index [base]. *)
Fixpoint headingsFrom (base : Z) (paragraphs : list string) : list (Z * string) :=
  match paragraphs with
  | [] => []
  | p :: rest =>
      if isSectionParagraph p then (base, p) :: headingsFrom (base + 1) rest
      else headingsFrom (base + 1) rest
  end.

(** Where a node stands and what it holds. *)
Definition placed (n : GraphNode) : Z * string := (start (position n), content n).

(** What a section node records of the paragraph it was made from, the
    paragraphs being counted from [base]. *)
Record sectionOf (paragraphs : list string) (base : Z) (n : GraphNode) : Prop :=
  mkSectionOf {
  sec_position : stop (position n) = start (position n);
  sec_from : (base <= start (position n))%Z;
  sec_paragraph :
    nth_error paragraphs (Z.to_nat (start (position n) - base)) = Some (content n);
  sec_heading : isSectionParagraph (content n) = true;
  sec_keywords : keywordsOf n = extractKeywords (content n);
  sec_level : exists l, (1 <= l <= 4)%Z
                /\ option_map level (metadata n) = Some (Some l)
}.

Section Indexer.
Variable config : GraphIndexerConfig.
Variable genId : nat -> string.

Lemma sectionNodes_ids (paragraphs : list string) (i : Z) (drawn : nat) :
  map nodeId (sectionNodes genId paragraphs i drawn)
  = map genId (seq drawn (length (filter isSectionParagraph paragraphs))).
Proof.
  revert i drawn; induction paragraphs as [|p r IH]; intros i drawn; simpl;
    [reflexivity|].
  unfold isSectionParagraph at 1.
  destruct (isSection (analyzeParagraph p)); simpl; [f_equal|]; apply IH.
Qed.

Lemma sectionNodes_placed (paragraphs : list string) (i : Z) (drawn : nat) :
  map placed (sectionNodes genId paragraphs i drawn) = headingsFrom i paragraphs.
Proof.
  revert i drawn; induction paragraphs as [|p r IH]; intros i drawn; simpl;
    [reflexivity|].
  unfold isSectionParagraph at 1.
  destruct (isSection (analyzeParagraph p)); simpl; [f_equal|]; apply IH.
Qed.

Lemma headingsFrom_length (paragraphs : list string) (i : Z) :
  length (headingsFrom i paragraphs) = length (filter isSectionParagraph paragraphs).
Proof.
  revert i; induction paragraphs as [|p r IH]; intros i; simpl; [reflexivity|].
  destruct (isSectionParagraph p); simpl; rewrite IH; reflexivity.
Qed.

(** The headings come in the order of the paragraphs: their indexes
    increase strictly, and each is the index of its paragraph. *)
Lemma headingsFrom_ordered (paragraphs : list string) (i : Z) :
  StronglySorted (fun a b => (fst a < fst b)%Z) (headingsFrom i paragraphs)
  /\ Forall (fun ip => (i <= fst ip)%Z
                       /\ nth_error paragraphs (Z.to_nat (fst ip - i)) = Some (snd ip)
                       /\ isSectionParagraph (snd ip) = true)
            (headingsFrom i paragraphs).
Proof.
  revert i; induction paragraphs as [|p r IH]; intros i; simpl.
  - split; constructor.
  - destruct (IH (i + 1)%Z) as [Hs Hf].
    assert (Hshift : Forall (fun ip => (i <= fst ip)%Z
                       /\ nth_error (p :: r) (Z.to_nat (fst ip - i)) = Some (snd ip)
                       /\ isSectionParagraph (snd ip) = true)
                      (headingsFrom (i + 1) r)).
    { eapply Forall_impl; [|exact Hf]. intros ip [H1 [H2 H3]].
      split; [lia|]. split; [|exact H3].
      replace (Z.to_nat (fst ip - i)) with (S (Z.to_nat (fst ip - (i + 1)))) by lia.
      exact H2. }
    destruct (isSectionParagraph p) eqn:E; [|split; assumption].
    split.
    + constructor; [exact Hs|]. eapply Forall_impl; [|exact Hf].
      intros ip [H1 _]. simpl. lia.
    + constructor; [|exact Hshift]. simpl. rewrite Z.sub_diag.
      repeat split; [lia|exact E].
Qed.

Lemma sectionOf_shift (p : string) (r : list string) (i : Z) (n : GraphNode) :
  sectionOf r (i + 1) n -> sectionOf (p :: r) i n.
Proof.
  intros [H1 H2 H3 H4 H5 H6]. constructor; try assumption; [lia|].
  replace (Z.to_nat (start (position n) - i))
    with (S (Z.to_nat (start (position n) - (i + 1)))) by lia.
  exact H3.
Qed.

Lemma sectionNodes_sections (paragraphs : list string) (i : Z) (drawn : nat) :
  Forall (sectionOf paragraphs i) (sectionNodes genId paragraphs i drawn).
Proof.
  revert i drawn; induction paragraphs as [|p r IH]; intros i drawn; simpl;
    [constructor|].
  pose proof (analyzeParagraph_level p) as Hl. cbv zeta in Hl.
  unfold levelInRange in Hl.
  destruct (isSection (analyzeParagraph p)) eqn:E.
  - constructor.
    + constructor; simpl; try reflexivity; try lia.
      * rewrite Z.sub_diag. reflexivity.
      * exact E.
      * exists (info_level (analyzeParagraph p)). split; [exact Hl|reflexivity].
    + eapply Forall_impl; [|apply IH]. intros n. apply sectionOf_shift.
  - eapply Forall_impl; [|apply IH]. intros n. apply sectionOf_shift.
Qed.

Lemma withCentrality_section (paragraphs : list string) (c : Q) (n : GraphNode) :
  sectionOf paragraphs 0 n -> sectionOf paragraphs 0 (withCentrality c n).
Proof.
  intros [H1 H2 H3 H4 H5 [l [Hl H6]]].
  constructor; try assumption.
  - unfold keywordsOf in *. simpl. destruct (metadata n) as [m|]; [exact H5|].
    simpl in H5. exact H5.
  - exists l. split; [exact Hl|]. simpl.
    destruct (metadata n) as [m|]; [exact H6|discriminate].
Qed.

(** X8: The nodes of a graph index are the document root and, behind it, one
    section node per paragraph that is a heading, in the order of the
    paragraphs: listed with their positions and contents, the section
    nodes are the heading paragraphs listed with their indexes, and these
    indexes increase strictly.  The ids are the first identifiers drawn,
    and every section node holds the keywords of its paragraph and a level
    from 1 to 4. *)
Theorem index_nodes_follow_paragraphs
    (content title : string) (description : option string) :
  let g := index config genId content title description in
  let paragraphs := splitIntoParagraphs content in
  nodeCount g = S (length (filter isSectionParagraph paragraphs))
  /\ map nodeId (nodes g) = map genId (seq 0 (nodeCount g))
  /\ map placed (tl (nodes g)) = headingsFrom 0 paragraphs
  /\ StronglySorted (fun a b => (fst a < fst b)%Z) (map placed (tl (nodes g)))
  /\ length (tl (nodes g)) = length (filter isSectionParagraph paragraphs)
  /\ Forall (sectionOf paragraphs 0) (tl (nodes g)).
Proof.
  unfold index. cbv zeta. cbn [nodes nodeCount].
  set (paragraphs := splitIntoParagraphs content).
  assert (Hlen : length (createGraphNodes genId paragraphs title)
                 = S (length (filter isSectionParagraph paragraphs))).
  { unfold createGraphNodes. simpl. f_equal.
    rewrite <- (length_map nodeId), sectionNodes_ids, length_map, length_seq.
    reflexivity. }
  assert (Hids : map nodeId (createGraphNodes genId paragraphs title)
                 = map genId (seq 0 (S (length (filter isSectionParagraph paragraphs))))).
  { unfold createGraphNodes. cbn [map seq nodeId]. f_equal. apply sectionNodes_ids. }
  assert (Hplaced : map placed (tl (createGraphNodes genId paragraphs title))
                    = headingsFrom 0 paragraphs).
  { unfold createGraphNodes. simpl tl. apply sectionNodes_placed. }
  assert (Hsec : Forall (sectionOf paragraphs 0)
                   (tl (createGraphNodes genId paragraphs title))).
  { unfold createGraphNodes. simpl tl. apply sectionNodes_sections. }
  assert (Hcore :
    forall nodes',
      length nodes' = length (createGraphNodes genId paragraphs title) ->
      map nodeId nodes' = map nodeId (createGraphNodes genId paragraphs title) ->
      map placed (tl nodes') = map placed (tl (createGraphNodes genId paragraphs title)) ->
      Forall (sectionOf paragraphs 0) (tl nodes') ->
      length nodes' = S (length (filter isSectionParagraph paragraphs))
      /\ map nodeId nodes' = map genId (seq 0 (length nodes'))
      /\ map placed (tl nodes') = headingsFrom 0 paragraphs
      /\ StronglySorted (fun a b => (fst a < fst b)%Z) (map placed (tl nodes'))
      /\ length (tl nodes') = length (filter isSectionParagraph paragraphs)
      /\ Forall (sectionOf paragraphs 0) (tl nodes')).
  { intros nodes' El Ei Ep Hs.
    split; [rewrite El; exact Hlen|].
    split; [rewrite Ei, El, Hlen; exact Hids|].
    split; [rewrite Ep; exact Hplaced|].
    split; [rewrite Ep, Hplaced; apply headingsFrom_ordered|].
    split; [|exact Hs].
    rewrite <- (length_map placed), Ep, Hplaced. apply headingsFrom_length. }
  destruct (precomputeRelationships config).
  - apply Hcore.
    + unfold precomputeNodeRelationships. apply length_map.
    + unfold precomputeNodeRelationships. rewrite map_map. reflexivity.
    + unfold precomputeNodeRelationships, createGraphNodes. cbn [map tl].
      rewrite map_map. reflexivity.
    + unfold precomputeNodeRelationships, createGraphNodes in *.
      simpl tl in *. cbn [map tl].
      rewrite Forall_map. eapply Forall_impl; [|exact Hsec].
      intros n. apply withCentrality_section.
  - apply Hcore; [reflexivity|reflexivity|reflexivity|exact Hsec].
Qed.

(** ** Edges *)

Lemma parentChildEdges_ends (parent : GraphNode) (others : list GraphNode)
    (e : GraphEdge) :
  In e (parentChildEdges parent others) ->
  from e = nodeId parent /\ In (to e) (map nodeId others)
  /\ weight e = 0.8 /\ edgeType e = parent_child.
Proof.
  unfold parentChildEdges. intros H. apply in_flat_map in H.
  destruct H as [child [Hc H]].
  destruct (NodeType_eqb (type child) type_section); [|contradiction].
  destruct H as [<-|[]]. simpl. repeat split. apply in_map. exact Hc.
Qed.

Lemma semanticEdges_ends (others : list GraphNode) (e : GraphEdge) :
  In e (semanticEdges config others) ->
  exists before a between b behind,
    others = before ++ a :: between ++ b :: behind
    /\ from e = nodeId a /\ to e = nodeId b
    /\ weight e = calculateSemanticSimilarity a b
    /\ minEdgeWeight config < weight e
    /\ edgeType e = semantic.
Proof.
  induction others as [|a rest IH]; simpl; [contradiction|].
  intros H. apply in_app_or in H. destruct H as [H|H].
  - apply in_flat_map in H. destruct H as [b [Hb H]].
    destruct (numLt (minEdgeWeight config) (calculateSemanticSimilarity a b)) eqn:E;
      [|contradiction].
    destruct H as [<-|[]]. apply in_split in Hb.
    destruct Hb as [between [behind ->]].
    exists [], a, between, b, behind. simpl. repeat split.
    apply numLt_spec. exact E.
  - destruct (IH H) as [before [x [between [b [behind [-> Hrest]]]]]].
    exists (a :: before), x, between, b, behind. split; [reflexivity|exact Hrest].
Qed.

(** X9: Every edge of a graph index joins two nodes of the index and arrives
    at a section node.  It is either a parent-child edge of weight 0.8
    that leaves the root, or a semantic edge between two section nodes
    whose weight lies above [minEdgeWeight]. *)
Theorem index_edges_join_nodes
    (content title : string) (description : option string) :
  let g := index config genId content title description in
  Forall (fun e =>
            In (from e) (map nodeId (nodes g))
            /\ In (to e) (map nodeId (tl (nodes g)))
            /\ (edgeType e = parent_child
                /\ from e = genId 0 /\ weight e = 0.8
                \/ edgeType e = semantic
                   /\ In (from e) (map nodeId (tl (nodes g)))
                   /\ minEdgeWeight config < weight e))
         (edges g).
Proof.
  intros g.
  pose proof (index_ids config genId content title description) as Hids.
  pose proof (index_edges config genId content title description) as Hedges.
  fold g in Hids, Hedges. rewrite Hedges.
  assert (Htl : map nodeId (tl (nodes g))
                = map nodeId (sectionNodes genId (splitIntoParagraphs content) 0 1)).
  { transitivity (tl (map nodeId (nodes g)));
      [destruct (nodes g); reflexivity|rewrite Hids; reflexivity]. }
  rewrite Hids, Htl. clear Hids Htl Hedges g.
  unfold identifyRelationships, createGraphNodes.
  destruct (enableCrossReferences config); simpl negb; cbv iota; [|constructor].
  set (root := mkGraphNode (genId 0) _ _ _ _ _ _ _).
  set (others := sectionNodes genId _ 0 1).
  rewrite Forall_forall. intros e He. apply in_app_or in He.
  destruct He as [He|He].
  - apply parentChildEdges_ends in He. destruct He as [Hf [Ht [Hw Hk]]].
    split; [left; symmetry; exact Hf|]. split; [exact Ht|].
    left. repeat split; assumption.
  - apply semanticEdges_ends in He.
    destruct He as [before [a [between [b [behind [Ho [Hf [Ht [_ [Hw Hk]]]]]]]]]].
    assert (Ha : In (from e) (map nodeId others)).
    { rewrite Hf, Ho. apply in_map, in_or_app. right. left. reflexivity. }
    assert (Hb : In (to e) (map nodeId others)).
    { rewrite Ht, Ho. apply in_map, in_or_app. right. right.
      apply in_or_app. right. left. reflexivity. }
    split; [right; exact Ha|]. split; [exact Hb|].
    right. repeat split; assumption.
Qed.

Lemma calculateNodeCentrality_range (id : string) (edges : list GraphEdge) :
  0 <= calculateNodeCentrality id edges <= 1.
Proof.
  unfold calculateNodeCentrality.
  set (k := length _).
  assert (H0 : 0 <= inject_Z (Z.of_nat k) / 10).
  { apply Qle_shift_div_l; [reflexivity|].
    rewrite Qmult_0_l. change 0 with (inject_Z 0). rewrite <- Zle_Qle. lia. }
  split.
  - apply Q.min_glb; [exact H0|discriminate].
  - apply Q.le_min_r.
Qed.

(** X10: With [precomputeRelationships] on, every node of the index carries a
    centrality, a tenth of the number of edges at the node capped at 1,
    so a number from 0 to 1; with the option off no node carries one, and
    the path scores fall back on 0.5. *)
Theorem index_centrality_follows_the_flag
    (content title : string) (description : option string) :
  let g := index config genId content title description in
  Forall (fun n =>
            if precomputeRelationships config
            then exists c,
                   option_map centrality (metadata n) = Some (Some c)
                   /\ c = calculateNodeCentrality (nodeId n) (edges g)
                   /\ 0 <= c <= 1
            else option_map centrality (metadata n) = Some None
                 /\ centralityOrDefault n = 0.5)
         (nodes g).
Proof.
  unfold index. cbv zeta. cbn [nodes edges].
  destruct (precomputeRelationships config).
  - unfold precomputeNodeRelationships. rewrite Forall_map.
    rewrite Forall_forall. intros n _.
    eexists. split; [|split; [reflexivity|apply calculateNodeCentrality_range]].
    simpl. destruct (metadata n); reflexivity.
  - unfold createGraphNodes. constructor; [split; reflexivity|].
    generalize 0%Z, 1%nat.
    induction (splitIntoParagraphs content) as [|p r IH]; intros i d; simpl;
      [constructor|].
    destruct (isSection (analyzeParagraph p)); [constructor|]; try apply IH.
    split; reflexivity.
Qed.

End Indexer.

End IndexShapeFacts.

(* ===================================================================== *)
(** * The paths of both searches are walks of the graph *)
(* ===================================================================== *)

Module WalkFacts.
Import Js JsFacts GraphTypes Search SearchFacts.

(** An edge joins two ids, in either direction. *)
Definition joins (e : GraphEdge) (a b : string) : Prop :=
  from e = a /\ to e = b \/ to e = a /\ from e = b.

(** [Walk g floor sources p d]: the path [p] starts at a source id that
    names a node of [g], every further id is reached from the id before it
    over an edge of [g] of weight at least [floor], no id comes twice, and
    [d] is the sum of the weights of these edges, added in path order. *)
Inductive Walk (g : GraphIndex) (floor : Q) (sources : list string)
  : list string -> Q -> Prop :=
| walk_source (id : string) :
    In id sources -> findNode g id <> None -> Walk g floor sources [id] 0
| walk_edge (p : list string) (d : Q) (e : GraphEdge) (n : string) :
    Walk g floor sources p d ->
    In e (edges g) -> floor <= weight e ->
    joins e (last p EmptyString) n -> ~ In n p ->
    Walk g floor sources (p ++ [n]) (d + weight e).

Section Walks.
Variable g : GraphIndex.
Variable floor : Q.
Variable sources : list string.

Lemma Walk_NoDup (p : list string) (d : Q) :
  Walk g floor sources p d -> NoDup p.
Proof.
  induction 1 as [id _ _|p d e n _ IH _ _ _ Hn].
  - constructor; [intros []|constructor].
  - apply NoDup_app; [exact IH|constructor; [intros []|constructor]|].
    intros x Hx [<-|[]]. exact (Hn Hx).
Qed.

Lemma Walk_start (p : list string) (d : Q) :
  Walk g floor sources p d ->
  exists id rest, p = id :: rest /\ In id sources /\ findNode g id <> None.
Proof.
  induction 1 as [id Hs Hf|p d e n _ [id [rest [-> [Hs Hf]]]] _ _ _ _].
  - exists id, []. repeat split; assumption.
  - exists id, (rest ++ [n]). repeat split; assumption.
Qed.

(** Every id of a walk is a source or stands at an end of an edge. *)
Lemma Walk_ids (p : list string) (d : Q) :
  Walk g floor sources p d ->
  forall x, In x p -> In x sources \/ In x (universe g).
Proof.
  induction 1 as [id Hs _|p d e n _ IH He _ Hj _]; intros x Hx.
  - destruct Hx as [<-|[]]. left. exact Hs.
  - apply in_app_or in Hx. destruct Hx as [Hx|[<-|[]]]; [apply IH; exact Hx|].
    right. unfold universe. apply in_or_app.
    destruct Hj as [[_ <-]|[_ <-]]; [right|left]; apply in_map; exact He.
Qed.

(** What both loops keep of a worklist entry. *)
Definition walkEntry (id : string) (d : Q) (p v : list string) : Prop :=
  Walk g floor sources p d
  /\ last p EmptyString = id
  /\ forall x, In x v <-> In x p.

(** A neighbour that a worklist entry may move to. *)
Definition reachable (id : string) (v : list string) (nb : Neighbor) : Prop :=
  exists e, In e (edges g) /\ floor <= weight e
            /\ joins e id (nb_nodeId nb) /\ nb_weight nb = weight e
            /\ ~ In (nb_nodeId nb) v.

Lemma walkEntry_source (id : string) :
  In id sources -> findNode g id <> None -> walkEntry id 0 [id] [id].
Proof.
  intros Hs Hf. split; [constructor; assumption|]. split; [reflexivity|tauto].
Qed.

Lemma walkEntry_extend (id : string) (d : Q) (p v : list string) (nb : Neighbor) :
  walkEntry id d p v -> reachable id v nb ->
  walkEntry (nb_nodeId nb) (d + nb_weight nb) (p ++ [nb_nodeId nb])
            (nb_nodeId nb :: v).
Proof.
  intros [Hw [Hl Hv]] [e [He [Hf [Hj [-> Hn]]]]].
  split; [|split].
  - econstructor; [exact Hw|exact He|exact Hf|rewrite Hl; exact Hj|].
    rewrite <- Hv. exact Hn.
  - apply last_last.
  - intros x. simpl. rewrite in_app_iff, Hv. simpl. tauto.
Qed.

Definition walkResult (r : PathResult) : Prop :=
  Walk g floor sources (nodeIds r) (distance r).

Lemma rankResults_walks (maxResults : nat) (results : list PathResult) :
  Forall walkResult results -> Forall walkResult (rankResults maxResults results).
Proof.
  intros H. unfold rankResults. apply Forall_firstn.
  eapply Permutation_Forall; [apply sort_perm|exact H].
Qed.

End Walks.

(** ** The plain search *)

Section Plain.
Import BMSSP.
Variable graph : GraphIndex.
Variable sourceNodeIds : list string.
Variable maxDepth : Q.
Variable maxResults : nat.
Variable minEdgeWeight : Q.

Definition plainEntry (item : QueueItem) : Prop :=
  walkEntry graph minEdgeWeight sourceNodeIds
    (nodeId item) (distance item) (path item) (visited item).

Lemma getValidNeighbors_reachable (id : string) (v : list string) (nb : Neighbor) :
  In nb (getValidNeighbors id graph v minEdgeWeight) ->
  reachable graph minEdgeWeight id v nb.
Proof.
  unfold getValidNeighbors. intros H.
  apply in_app_or in H. destruct H as [H|H];
    apply in_flat_map in H; destruct H as [e [He H]].
  - destruct (String.eqb_spec (from e) id) as [Ef|]; simpl in H; [|contradiction].
    destruct (mem (to e) v) eqn:Em; simpl in H; [contradiction|].
    destruct (numLe minEdgeWeight (weight e)) eqn:Ew; simpl in H; [|contradiction].
    destruct H as [<-|[]]. exists e. simpl.
    repeat split; [exact He|apply numLe_spec; exact Ew|left; split; [exact Ef|reflexivity]
                  |apply mem_false; exact Em].
  - destruct (String.eqb_spec (to e) id) as [Ef|]; simpl in H; [|contradiction].
    destruct (mem (from e) v) eqn:Em; simpl in H; [contradiction|].
    destruct (numLe minEdgeWeight (weight e)) eqn:Ew; simpl in H; [|contradiction].
    destruct H as [<-|[]]. exists e. simpl.
    repeat split; [exact He|apply numLe_spec; exact Ew|right; split; [exact Ef|reflexivity]
                  |apply mem_false; exact Em].
Qed.

Lemma plain_initialQueue_walks :
  Forall plainEntry (initialQueue graph sourceNodeIds).
Proof.
  unfold initialQueue. rewrite Forall_forall. intros item H.
  apply in_flat_map in H. destruct H as [id [Hid H]].
  destruct (findNode graph id) eqn:E; [|contradiction].
  destruct H as [<-|[]]. unfold plainEntry. cbn [nodeId distance path visited].
  apply walkEntry_source; [exact Hid|rewrite E; discriminate].
Qed.

Lemma plain_expand_walks (current : QueueItem) :
  plainEntry current -> Forall plainEntry (expand graph minEdgeWeight current).
Proof.
  intros Hc. unfold expand. rewrite Forall_forall. intros item H.
  apply in_flat_map in H. destruct H as [nb [Hnb H]].
  destruct (negb (mem (nb_nodeId nb) (visited current))); [|contradiction].
  destruct H as [<-|[]].
  apply (walkEntry_extend Hc). apply getValidNeighbors_reachable. exact Hnb.
Qed.

Definition plainWalks (st : SearchState) : Prop :=
  Forall plainEntry (queue st)
  /\ Forall (walkResult graph minEdgeWeight sourceNodeIds) (results st).

Lemma plain_step_walks (st : SearchState) :
  plainWalks st -> plainWalks (step graph maxDepth minEdgeWeight st).
Proof.
  intros [Hq Hr]. unfold step.
  pose proof (Permutation_Forall (sort_perm byDistance (queue st)) Hq) as Hs.
  destruct (sort byDistance (queue st)) as [|current rest]; [split; assumption|].
  inversion Hs as [|? ? Hc Hrest]; subst.
  destruct (numLt maxDepth (distance current)); [split; assumption|].
  destruct (mem _ (visitedPaths st)); [split; assumption|].
  split; cbn [queue results].
  - apply Forall_app. split; [exact Hrest|apply plain_expand_walks; exact Hc].
  - destruct (1 <? length (path current))%nat; [|exact Hr].
    apply Forall_app. split; [exact Hr|].
    constructor; [|constructor]. destruct Hc as [Hw _]. exact Hw.
Qed.

Lemma plain_finalState_walks :
  plainWalks (finalState graph sourceNodeIds maxDepth maxResults minEdgeWeight).
Proof.
  unfold finalState. rewrite whileWithin_stateAfter.
  apply (stateAfter_invariant (continues maxResults)
           (step graph maxDepth minEdgeWeight) plainWalks).
  - intros st Hst _. apply plain_step_walks. exact Hst.
  - split; [apply plain_initialQueue_walks|constructor].
Qed.

End Plain.

(** ** The search with selective activation *)

Section Selective.
Import OptimizedBMSSP.
Variable graph : GraphIndex.
Variable sourceNodeIds : list string.
Variable maxDepth : Q.
Variable maxResults : nat.
Variable minEdgeWeight : Q.

Definition selectiveEntry (item : OptimizedQueueItem) : Prop :=
  walkEntry graph minEdgeWeight sourceNodeIds
    (nodeId item) (distance item) (path item) (visited item).

Lemma selective_neighbors_reachable (id : string) (v : list string)
    (parentActivationScore : Q) (nb : Neighbor) :
  In nb (getValidNeighborsWithSelectiveActivation id graph v minEdgeWeight
           parentActivationScore) ->
  reachable graph minEdgeWeight id v nb
  /\ Qmax minEdgeWeight (0.7 - parentActivationScore * 0.4) <= nb_weight nb.
Proof.
  unfold getValidNeighborsWithSelectiveActivation. intros H.
  apply sort_In in H.
  set (threshold := Qmax minEdgeWeight (0.7 - parentActivationScore * 0.4)) in *.
  assert (Hfloor : forall w, numLe threshold w = true -> minEdgeWeight <= w).
  { intros w Hw. apply numLe_spec in Hw.
    eapply Qle_trans; [apply Q.le_max_l|exact Hw]. }
  apply in_app_or in H. destruct H as [H|H];
    apply in_flat_map in H; destruct H as [e [He H]].
  - destruct (String.eqb_spec (from e) id) as [Ef|]; simpl in H; [|contradiction].
    destruct (mem (to e) v) eqn:Em; simpl in H; [contradiction|].
    destruct (numLe threshold (weight e)) eqn:Ew; simpl in H; [|contradiction].
    destruct H as [<-|[]]. split; [|apply numLe_spec; exact Ew].
    exists e. simpl.
    repeat split; [exact He|apply Hfloor; exact Ew|left; split; [exact Ef|reflexivity]
                  |apply mem_false; exact Em].
  - destruct (String.eqb_spec (to e) id) as [Ef|]; simpl in H; [|contradiction].
    destruct (mem (from e) v) eqn:Em; simpl in H; [contradiction|].
    destruct (numLe threshold (weight e)) eqn:Ew; simpl in H; [|contradiction].
    destruct H as [<-|[]]. split; [|apply numLe_spec; exact Ew].
    exists e. simpl.
    repeat split; [exact He|apply Hfloor; exact Ew|right; split; [exact Ef|reflexivity]
                  |apply mem_false; exact Em].
Qed.

Lemma selective_initialQueue_walks :
  Forall selectiveEntry (initialQueue graph sourceNodeIds).
Proof.
  unfold initialQueue. rewrite Forall_forall. intros item H.
  apply in_flat_map in H. destruct H as [id [Hid H]].
  destruct (findNode graph id) eqn:E; [|contradiction].
  destruct H as [<-|[]]. unfold selectiveEntry. cbn [nodeId distance path visited].
  apply walkEntry_source; [exact Hid|rewrite E; discriminate].
Qed.

Lemma selective_expand_walks (current : OptimizedQueueItem) :
  selectiveEntry current ->
  Forall selectiveEntry (expand graph sourceNodeIds minEdgeWeight current).
Proof.
  intros Hc. unfold expand. rewrite Forall_forall. intros item H.
  apply in_flat_map in H. destruct H as [nb [Hnb H]].
  apply SelectiveFacts.enqueueNeighbor_item in H. destruct H as [_ [_ ->]].
  apply (walkEntry_extend Hc).
  apply selective_neighbors_reachable in Hnb. apply Hnb.
Qed.

(** The set of activated nodes holds every id of every path in the
    worklist or among the results, and no id twice. *)
Definition activated (st : SearchState) : Prop :=
  NoDup (activatedNodes st)
  /\ Forall (fun item => incl (path item) (activatedNodes st)) (queue st)
  /\ Forall (fun r => incl (nodeIds r) (activatedNodes st)) (results st).

Lemma setAdd_NoDup (x : string) (s : list string) :
  NoDup s -> NoDup (setAdd x s).
Proof.
  intros H. unfold setAdd. destruct (mem x s) eqn:E; [exact H|].
  apply mem_false in E.
  apply NoDup_app; [exact H|constructor; [intros []|constructor]|].
  intros y Hy [<-|[]]. exact (E Hy).
Qed.

Lemma setAdd_In (x y : string) (s : list string) :
  In y (setAdd x s) <-> y = x \/ In y s.
Proof.
  unfold setAdd. destruct (mem x s) eqn:E.
  - apply mem_In in E. split; [tauto|]. intros [->|H]; assumption.
  - rewrite in_app_iff. simpl. intuition congruence.
Qed.

Lemma addAll_NoDup {A} (key : A -> string) (items : list A) (s : list string) :
  NoDup s -> NoDup (fold_left (fun acc item => setAdd (key item) acc) items s).
Proof.
  revert s; induction items as [|i r IH]; intros s H; simpl; [exact H|].
  apply IH, setAdd_NoDup, H.
Qed.

Lemma addAll_In {A} (key : A -> string) (items : list A) (s : list string)
    (y : string) :
  In y (fold_left (fun acc item => setAdd (key item) acc) items s)
  <-> In y (map key items) \/ In y s.
Proof.
  revert s; induction items as [|i r IH]; intros s; simpl; [tauto|].
  rewrite IH, setAdd_In. intuition congruence.
Qed.

Lemma selective_initial_activated : activated (initialState graph sourceNodeIds).
Proof.
  unfold initialState, initialActivated, initialQueue, activated.
  cbn [activatedNodes queue results].
  assert (Hgen : forall ids s,
    NoDup s ->
    NoDup (fold_left (fun acc sourceId =>
                        match findNode graph sourceId with
                        | Some _ => setAdd sourceId acc
                        | None => acc
                        end) ids s)
    /\ forall y,
         In y (fold_left (fun acc sourceId =>
                        match findNode graph sourceId with
                        | Some _ => setAdd sourceId acc
                        | None => acc
                        end) ids s)
         <-> (In y ids /\ findNode graph y <> None) \/ In y s).
  { induction ids as [|i r IH]; intros s Hs; simpl; [split; [exact Hs|tauto]|].
    destruct (findNode graph i) eqn:E.
    - destruct (IH (setAdd i s) (setAdd_NoDup i Hs)) as [H1 H2].
      split; [exact H1|]. intros y. rewrite H2, setAdd_In.
      split; [|intuition congruence].
      intros [[Hy Hf]|[->|Hy]]; [tauto| |tauto].
      left. split; [left; reflexivity|congruence].
    - destruct (IH s Hs) as [H1 H2]. split; [exact H1|].
      intros y. rewrite H2. split; [tauto|].
      intros [[[<-|Hy] Hf]|Hy]; [congruence|tauto|tauto]. }
  destruct (Hgen sourceNodeIds [] (NoDup_nil _)) as [H1 H2].
  split; [exact H1|]. split; [|constructor].
  rewrite Forall_forall. intros item H.
  apply in_flat_map in H. destruct H as [id [Hid H]].
  destruct (findNode graph id) eqn:E; [|contradiction].
  destruct H as [<-|[]]. intros y [<-|[]]. apply H2. left.
  split; [exact Hid|congruence].
Qed.

Lemma selective_step_activated (st : SearchState) :
  activated st -> activated (step graph sourceNodeIds maxDepth minEdgeWeight st).
Proof.
  intros [Hn [Hq Hr]]. unfold step.
  pose proof (Permutation_Forall (sort_perm byPriority (queue st)) Hq) as Hs.
  destruct (sort byPriority (queue st)) as [|current rest];
    [repeat split; assumption|].
  inversion Hs as [|? ? Hc Hrest]; subst.
  destruct (numLt maxDepth (distance current) || numLt (activationScore current) 0.25);
    [repeat split; assumption|].
  destruct (mem _ (visitedPaths st)); [repeat split; assumption|].
  unfold activated. cbn [queue results activatedNodes].
  set (pushed := expand graph sourceNodeIds minEdgeWeight current).
  assert (Hgrow : forall y, In y (activatedNodes st) ->
            In y (fold_left (fun acc item => setAdd (nodeId item) acc) pushed
                    (activatedNodes st))).
  { intros y Hy. apply addAll_In. right. exact Hy. }
  split; [apply addAll_NoDup; exact Hn|]. split.
  - apply Forall_app. split.
    + eapply Forall_impl; [|exact Hrest]. intros item Hi y Hy.
      apply Hgrow, Hi, Hy.
    + rewrite Forall_forall. intros item Hitem y Hy.
      pose proof Hitem as Hin. unfold pushed, expand in Hitem.
      apply in_flat_map in Hitem. destruct Hitem as [nb [_ Hitem]].
      apply SelectiveFacts.enqueueNeighbor_item in Hitem.
      destruct Hitem as [_ [_ E]].
      assert (Ep : path item = path current ++ [nodeId item])
        by (rewrite E; reflexivity).
      rewrite Ep in Hy. apply in_app_or in Hy. destruct Hy as [Hy|[<-|[]]].
      * apply Hgrow, Hc, Hy.
      * apply addAll_In. left. apply in_map. exact Hin.
  - assert (Hr' : Forall (fun r => incl (nodeIds r)
                     (fold_left (fun acc item => setAdd (nodeId item) acc) pushed
                        (activatedNodes st))) (results st)).
    { eapply Forall_impl; [|exact Hr]. intros r Hi y Hy. apply Hgrow, Hi, Hy. }
    destruct (1 <? length (path current))%nat; [|exact Hr'].
    apply Forall_app. split; [exact Hr'|]. constructor; [|constructor].
    intros y Hy. apply Hgrow, Hc, Hy.
Qed.

Definition selectiveWalks (st : SearchState) : Prop :=
  Forall selectiveEntry (queue st)
  /\ Forall (walkResult graph minEdgeWeight sourceNodeIds) (results st).

Lemma selective_step_walks (st : SearchState) :
  selectiveWalks st ->
  selectiveWalks (step graph sourceNodeIds maxDepth minEdgeWeight st).
Proof.
  intros [Hq Hr]. unfold step.
  pose proof (Permutation_Forall (sort_perm byPriority (queue st)) Hq) as Hs.
  destruct (sort byPriority (queue st)) as [|current rest]; [split; assumption|].
  inversion Hs as [|? ? Hc Hrest]; subst.
  destruct (numLt maxDepth (distance current) || numLt (activationScore current) 0.25);
    [split; assumption|].
  destruct (mem _ (visitedPaths st)); [split; assumption|].
  split; cbn [queue results].
  - apply Forall_app. split; [exact Hrest|apply selective_expand_walks; exact Hc].
  - destruct (1 <? length (path current))%nat; [|exact Hr].
    apply Forall_app. split; [exact Hr|].
    constructor; [|constructor]. destruct Hc as [Hw _]. exact Hw.
Qed.

Lemma selective_finalState_walks :
  selectiveWalks (finalState graph sourceNodeIds maxDepth maxResults minEdgeWeight)
  /\ activated (finalState graph sourceNodeIds maxDepth maxResults minEdgeWeight).
Proof.
  unfold finalState. rewrite whileWithin_stateAfter.
  apply (stateAfter_invariant (continues maxResults)
           (step graph sourceNodeIds maxDepth minEdgeWeight)
           (fun st => selectiveWalks st /\ activated st)).
  - intros st [H1 H2] _.
    split; [apply selective_step_walks|apply selective_step_activated]; assumption.
  - split; [|apply selective_initial_activated].
    split; [apply selective_initialQueue_walks|constructor].
Qed.

End Selective.

(** [[...new Set(l)]] holds the elements of [l], each once. *)
Lemma distinctFrom_set (seen l : list string) :
  NoDup (distinctFrom seen l)
  /\ forall x, In x (distinctFrom seen l) <-> In x l /\ ~ In x seen.
Proof.
  revert seen; induction l as [|y r IH]; intros seen; simpl.
  - split; [constructor|tauto].
  - destruct (mem y seen) eqn:E.
    + apply mem_In in E. destruct (IH seen) as [H1 H2]. split; [exact H1|].
      intros x. rewrite H2. split; [tauto|].
      intros [[<-|Hx] Hs]; [contradiction|tauto].
    + apply mem_false in E. destruct (IH (y :: seen)) as [H1 H2]. split.
      * constructor; [|exact H1]. rewrite H2. simpl. tauto.
      * intros x. simpl. rewrite H2. simpl.
        destruct (string_dec y x) as [<-|Hne]; [tauto|tauto].
Qed.

Lemma distinct_set (l : list string) :
  NoDup (distinct l) /\ forall x, In x (distinct l) <-> In x l.
Proof.
  destruct (distinctFrom_set [] l) as [H1 H2]. split; [exact H1|].
  intros x. unfold distinct. rewrite H2. simpl. tauto.
Qed.

Definition floorOf (options : BMSSPOptions) : Q :=
  match opt_minEdgeWeight options with Some w => w | None => 0.1 end.

(** X11: Every path the plain search returns is a walk of the graph: it starts
    at a source id that names a node, moves along edges of the graph that
    weigh at least [minEdgeWeight] (0.1 when the option is absent), visits
    no node twice, and its distance is what adding the weights of its
    edges to 0, one after the other in path order, gives. *)
Theorem plain_paths_are_walks (graph : GraphIndex) (sourceNodeIds : list string)
    (options : BMSSPOptions) :
  Forall (fun r =>
            Walk graph (floorOf options) sourceNodeIds (nodeIds r) (distance r)
            /\ NoDup (nodeIds r))
    (BMSSP.findBoundedPaths graph sourceNodeIds options).
Proof.
  unfold BMSSP.findBoundedPaths. fold (floorOf options).
  eapply Forall_impl;
    [|apply (@rankResults_walks graph (floorOf options) sourceNodeIds);
      apply (proj2 (plain_finalState_walks graph sourceNodeIds _ _ _))].
  intros r Hr. split; [exact Hr|eapply Walk_NoDup; exact Hr].
Qed.

(** X12: The search with selective activation returns walks of the graph as
    well, and it counts as activated at least the distinct nodes that
    stand on the paths it returns. *)
Theorem selective_paths_are_walks (graph : GraphIndex)
    (sourceNodeIds : list string) (options : BMSSPOptions) :
  let found := OptimizedBMSSP.findBoundedPaths graph sourceNodeIds options in
  Forall (fun r =>
            Walk graph (floorOf options) sourceNodeIds (nodeIds r) (distance r)
            /\ NoDup (nodeIds r))
    (OptimizedBMSSP.paths found)
  /\ (length (distinct (flat_map nodeIds (OptimizedBMSSP.paths found)))
      <= OptimizedBMSSP.activatedNodeCount found)%nat.
Proof.
  unfold OptimizedBMSSP.findBoundedPaths. fold (floorOf options).
  cbn [OptimizedBMSSP.paths OptimizedBMSSP.activatedNodeCount].
  set (maxDepth := match opt_maxDepth options with Some d => d | None => 3 end).
  set (maxResults := match opt_maxResults options with Some r => r | None => 10%nat end).
  destruct (selective_finalState_walks graph sourceNodeIds maxDepth maxResults
              (floorOf options)) as [[_ Hw] [Hn [_ Hr]]].
  set (st := OptimizedBMSSP.finalState graph sourceNodeIds maxDepth maxResults
               (floorOf options)) in *.
  split.
  - eapply Forall_impl;
      [|apply (@rankResults_walks graph (floorOf options) sourceNodeIds); exact Hw].
    intros r Hr'. split; [exact Hr'|eapply Walk_NoDup; exact Hr'].
  - destruct (distinct_set (flat_map nodeIds
                 (rankResults maxResults (OptimizedBMSSP.results st)))) as [Hd Hi].
    apply NoDup_incl_length; [exact Hd|].
    intros y Hy. apply Hi in Hy. rename Hy into Hy'.
    apply in_flat_map in Hy'. destruct Hy' as [r [Hin Hyr]].
    unfold rankResults in Hin. apply In_firstn, sort_In in Hin.
    rewrite Forall_forall in Hr. exact (Hr r Hin y Hyr).
Qed.

End WalkFacts.

(* ===================================================================== *)
(** * Facts about the search and the retrieval of the graph indexer *)
(* ===================================================================== *)

Module GraphSearchFacts.
Import Js JsFacts GraphTypes GraphIndexer GraphIndexFacts Search SearchFacts.
Import WalkFacts GraphSearch.

Lemma findQuerySources_nodes (query : string) (nodes : list GraphNode)
    (source : GraphNode) :
  In source (findQuerySources query nodes) ->
  exists node, In node nodes /\ nodeId node = nodeId source
               /\ (0 < matchCount (queryTermsOf query) node)%nat.
Proof.
  unfold findQuerySources. intros H. apply sort_In in H.
  apply in_flat_map in H. destruct H as [node [Hn H]].
  destruct (0 <? matchCount (queryTermsOf query) node)%nat eqn:E; [|contradiction].
  destruct H as [<-|[]]. exists node. apply Nat.ltb_lt in E. repeat split; assumption.
Qed.

Lemma In_findNode (g : GraphIndex) (id : string) :
  In id (map nodeId (nodes g)) <-> findNode g id <> None.
Proof.
  unfold findNode. split.
  - intros H. apply in_map_iff in H. destruct H as [n [<- Hn]].
    intros E. apply (find_none _ _ E) in Hn. rewrite String.eqb_refl in Hn.
    discriminate.
  - destruct (find _ (nodes g)) as [n|] eqn:E; [|congruence].
    intros _. apply find_some in E. destruct E as [Hn E].
    apply String.eqb_eq in E. rewrite <- E. apply in_map. exact Hn.
Qed.

(** X13: The paths [search] returns start at a node the query matches; its
    node list holds the ids that stand on these paths, each id once; and
    it returns at most [maxResults] paths. *)
Theorem search_lists_the_nodes_of_its_paths
    (config : GraphIndexerConfig) (graph : GraphIndex) (query : string) :
  let found := search config graph query in
  NoDup (nodeList found)
  /\ (forall id, In id (nodeList found)
                 <-> exists r, In r (paths found) /\ In id (nodeIds r))
  /\ (length (paths found) <= maxResults config)%nat
  /\ Forall (fun r => exists node rest,
                 nodeIds r = nodeId node :: rest
                 /\ In node (nodes graph)
                 /\ (0 < matchCount (queryTermsOf query) node)%nat)
            (paths found).
Proof.
  unfold search.
  destruct (length (findQuerySources query (nodes graph)) =? 0)%nat.
  - simpl. split; [constructor|]. split; [|split; [lia|constructor]].
    intros id. split; [intros []|intros [r [[] _]]].
  - cbn [paths nodeList].
    set (sources := map nodeId (findQuerySources query (nodes graph))).
    set (options := mkOptions _ _ _).
    destruct (distinct_set (flat_map nodeIds
                (BMSSP.findBoundedPaths graph sources options))) as [Hd Hi].
    split; [exact Hd|]. split; [|split].
    + intros id. rewrite Hi, in_flat_map. tauto.
    + unfold BMSSP.findBoundedPaths, rankResults. cbn [opt_maxResults options].
      apply firstn_le_length.
    + unfold BMSSP.findBoundedPaths.
      eapply Forall_impl;
        [|apply (@rankResults_walks graph (minEdgeWeight config) sources);
          apply (proj2 (plain_finalState_walks graph sources _ _ _))].
      intros r Hr. destruct (Walk_start Hr) as [id [rest [E [Hs _]]]].
      unfold sources in Hs. apply in_map_iff in Hs.
      destruct Hs as [source [<- Hs]].
      apply findQuerySources_nodes in Hs.
      destruct Hs as [node [Hn [Eid Hc]]].
      exists node, rest. rewrite Eid. repeat split; assumption.
Qed.

Lemma includes_empty (hay : string) : includes hay EmptyString = true.
Proof. destruct hay; reflexivity. Qed.

(** X14: A query that is empty, or that begins or ends with a blank, has the
    empty string among its terms, and every text includes the empty
    string: such a query makes every node of the graph a source. *)
Theorem blank_query_term_selects_every_node
    (query : string) (nodes : list GraphNode) :
  In EmptyString (queryTermsOf query) ->
  Permutation (map nodeId (findQuerySources query nodes)) (map nodeId nodes).
Proof.
  intros Hq. unfold findQuerySources.
  etransitivity; [apply Permutation_map; symmetry; apply sort_perm|].
  induction nodes as [|n r IH]; simpl; [constructor|].
  assert (Hc : (0 <? matchCount (queryTermsOf query) n)%nat = true).
  { apply Nat.ltb_lt. unfold matchCount.
    assert (Hin : In EmptyString
              (filter (fun term =>
                         includes (toLowerCase (title n ++ " " ++ summary n)) term
                         || hasKeyword n term) (queryTermsOf query))).
    { apply filter_In. split; [exact Hq|]. rewrite includes_empty. reflexivity. }
    destruct (filter _ (queryTermsOf query)); [contradiction|simpl; lia]. }
  rewrite Hc. simpl. constructor. exact IH.
Qed.

Lemma blank_query_term_selects_every_node_witness :
  In EmptyString (queryTermsOf " guide")
  /\ Permutation
       (map nodeId (findQuerySources " guide" (nodes Samples.chainGraph)))
       (map nodeId (nodes Samples.chainGraph)).
Proof.
  assert (H : In EmptyString (queryTermsOf " guide")) by (left; reflexivity).
  split; [exact H|].
  exact (@blank_query_term_selects_every_node " guide" (nodes Samples.chainGraph) H).
Defined.

Lemma formatContext_empty (contents : list Retrieved) :
  formatContext contents = EmptyString <-> contents = [].
Proof.
  unfold formatContext. destruct contents as [|c r]; simpl; [tauto|].
  split; [|discriminate]. intros H. exfalso.
  destruct (map _ r); discriminate.
Qed.

(** X15: In a graph whose edges all join nodes of the graph, as the graphs
    the indexer builds do, [retrieve] returns one record for every id of
    the node list of its search, in the order of the list; and its
    context is empty exactly when it retrieved nothing. *)
Theorem retrieve_returns_every_listed_node
    (config : GraphIndexerConfig) (graph : GraphIndex) (query : string) :
  Forall (fun e => In (from e) (map nodeId (nodes graph))
                   /\ In (to e) (map nodeId (nodes graph))) (edges graph) ->
  let retrieved := retrieve config graph query in
  map r_nodeId (contents retrieved) = nodeList (searchResult retrieved)
  /\ (context retrieved = EmptyString <-> contents retrieved = []).
Proof.
  intros Hedges. unfold retrieve. cbv zeta.
  cbn [contents searchResult context].
  split; [|apply formatContext_empty].
  rewrite retrieveContent_ids.
  assert (Hall : forall id, In id (nodeList (search config graph query)) ->
                            Spec.present graph id = true).
  { intros id Hid. rewrite findNode_present.
    assert (Hin : In id (map nodeId (nodes graph))).
    { revert Hid. unfold search.
      destruct (length (findQuerySources query (nodes graph)) =? 0)%nat;
        [intros []|].
      cbn [nodeList].
      set (sources := map nodeId (findQuerySources query (nodes graph))).
      set (options := mkOptions _ _ _).
      intros Hid. apply (proj1 (proj2 (distinct_set _) id)) in Hid.
      apply in_flat_map in Hid.
      destruct Hid as [r [Hr Hid]].
      assert (Hw : Forall (walkResult graph (minEdgeWeight config) sources)
                     (BMSSP.findBoundedPaths graph sources options)).
      { unfold BMSSP.findBoundedPaths.
        apply (@rankResults_walks graph (minEdgeWeight config) sources).
        apply (proj2 (plain_finalState_walks graph sources _ _ _)). }
      rewrite Forall_forall in Hw. specialize (Hw r Hr).
      destruct (Walk_ids Hw id Hid) as [Hs|Hu].
      - unfold sources in Hs. apply in_map_iff in Hs.
        destruct Hs as [source [<- Hs]].
        apply findQuerySources_nodes in Hs.
        destruct Hs as [node [Hn [<- _]]]. apply in_map. exact Hn.
      - rewrite Forall_forall in Hedges. unfold universe in Hu.
        apply in_app_or in Hu.
        destruct Hu as [Hu|Hu]; apply in_map_iff in Hu;
          destruct Hu as [e [<- He]]; apply (Hedges e He). }
    apply In_findNode in Hin. destruct (findNode graph id); [reflexivity|congruence]. }
  induction (nodeList (search config graph query)) as [|id r IH]; simpl;
    [reflexivity|].
  rewrite (Hall id (or_introl eq_refl)). f_equal.
  apply IH. intros x Hx. apply Hall. right. exact Hx.
Qed.

Lemma retrieve_returns_every_listed_node_witness :
  Forall (fun e => In (from e) (map nodeId (nodes Samples.twoSectionGraph))
                   /\ In (to e) (map nodeId (nodes Samples.twoSectionGraph)))
         (edges Samples.twoSectionGraph)
  /\ map r_nodeId (contents (retrieve DEFAULT_CONFIG Samples.twoSectionGraph "setup"))
     = nodeList (searchResult (retrieve DEFAULT_CONFIG Samples.twoSectionGraph "setup"))
  /\ (context (retrieve DEFAULT_CONFIG Samples.twoSectionGraph "setup") = EmptyString
      <-> contents (retrieve DEFAULT_CONFIG Samples.twoSectionGraph "setup") = []).
Proof.
  assert (H : Forall (fun e => In (from e) (map nodeId (nodes Samples.twoSectionGraph))
                   /\ In (to e) (map nodeId (nodes Samples.twoSectionGraph)))
                (edges Samples.twoSectionGraph)).
  { vm_compute. repeat constructor; tauto. }
  split; [exact H|].
  exact (@retrieve_returns_every_listed_node DEFAULT_CONFIG Samples.twoSectionGraph
           "setup" H).
Defined.

End GraphSearchFacts.

(* ===================================================================== *)
(** * Facts about the retrieval of node contents *)
(* ===================================================================== *)

Module TreeRetrievalFacts.
Import Js JsFacts TreeGenerator SimpleSearch TreeShapeFacts TreeRetrieval.

Lemma find_app {A} (p : A -> bool) (a b : list A) :
  find p (a ++ b) = match find p a with Some x => Some x | None => find p b end.
Proof.
  induction a as [|x r IH]; simpl; [reflexivity|].
  destruct (p x); [reflexivity|exact IH].
Qed.

Definition findsFirst (id : string) (n : TreeNode) : Prop :=
  TreeSearch.visitNode id n = find (fun m => (nodeId m =? id)%string) (flattenNode n).

Lemma firstFound_flatten (id : string) (l : list TreeNode) :
  Forall (findsFirst id) l ->
  TreeSearch.firstFound (TreeSearch.visitNode id) l
  = find (fun m => (nodeId m =? id)%string) (flat_map flattenNode l).
Proof.
  induction 1 as [|n r Hn _ IH]; simpl; [reflexivity|].
  rewrite find_app, <- Hn, IH. reflexivity.
Qed.

Lemma visitNode_flatten (id : string) (n : TreeNode) : findsFirst id n.
Proof.
  induction n as [n IH] using tree_induction. unfold findsFirst.
  destruct n as [t i s e sm tx kids]. simpl in *.
  destruct (i =? id)%string; [reflexivity|].
  destruct kids as [|k ks]; [reflexivity|].
  change (0 <? length (k :: ks))%nat with true. cbv iota.
  apply firstFound_flatten. exact IH.
Qed.

Lemma findNodeById_flatten (nodes : list TreeNode) (id : string) :
  TreeSearch.findNodeById nodes id
  = find (fun m => (nodeId m =? id)%string) (TreeGenerator.flattenTree nodes).
Proof.
  unfold TreeSearch.findNodeById, TreeGenerator.flattenTree.
  apply firstFound_flatten. rewrite Forall_forall. intros n _.
  apply visitNode_flatten.
Qed.

(** X16: The recursive [findNodeById] of [TreeSearch] finds the first node
    of that id in pre-order, the node [SimpleSearch] finds in the flattened
    tree: the two retrievers return the same records, but [TreeSearch]
    looks at the first [maxResults] ids only. *)
Theorem retrievers_agree_up_to_the_cap
    (config : TreeSearchConfig) (tree : TreeIndex) (nodeIds : list string) :
  TreeSearch.retrieveContent config tree nodeIds
  = retrieveContent tree (firstn (maxResults config) nodeIds).
Proof.
  unfold TreeSearch.retrieveContent, retrieveContent, flattenTree.
  induction (firstn (maxResults config) nodeIds) as [|id r IH]; simpl;
    [reflexivity|].
  rewrite findNodeById_flatten, IH. reflexivity.
Qed.

Lemma find_present (l : list TreeNode) (n : TreeNode) :
  In n l ->
  exists m, find (fun x => (nodeId x =? nodeId n)%string) l = Some m
            /\ nodeId m = nodeId n.
Proof.
  intros H.
  destruct (find (fun x => (nodeId x =? nodeId n)%string) l) as [m|] eqn:E.
  - exists m. split; [reflexivity|].
    apply find_some in E. apply String.eqb_eq. apply E.
  - apply (find_none _ _ E) in H. rewrite String.eqb_refl in H. discriminate.
Qed.

Lemma topNodes_in_tree (config : TreeSearchConfig) (tree : TreeIndex)
    (query : string) (s : ScoredNode) :
  In s (topNodes config tree query) -> In (node s) (flattenTree (nodes tree)).
Proof.
  unfold topNodes. intros H.
  apply In_firstn, sort_In, filter_In in H. destruct H as [H _].
  apply in_map_iff in H. destruct H as [n [<- Hn]]. exact Hn.
Qed.

(** X17: [SimpleSearch.retrieve] returns a record for every id its search
    lists, in the order of the list, so as many records as ids and at most
    [maxResults]. *)
Theorem simple_retrieve_returns_every_hit
    (config : TreeSearchConfig) (tree : TreeIndex) (query : string) :
  let retrieved := retrieve config tree query in
  map rc_nodeId (contents retrieved) = nodeList retrieved
  /\ (length (contents retrieved) <= maxResults config)%nat.
Proof.
  unfold retrieve. cbv zeta. cbn [contents nodeList].
  assert (E : map rc_nodeId (retrieveContent tree (search config tree query))
              = search config tree query).
  { unfold search.
    pose proof (@topNodes_in_tree config tree query) as Hin.
    induction (topNodes config tree query) as [|s r IH]; [reflexivity|].
    cbn [map]. unfold retrieveContent. cbn [flat_map].
    destruct (find_present _ _ (Hin s (or_introl eq_refl))) as [m [Em Eid]].
    rewrite Em. cbn [app map rc_nodeId contentOf]. rewrite Eid. f_equal.
    apply IH. intros x Hx. apply Hin. right. exact Hx. }
  split; [exact E|].
  rewrite <- (length_map rc_nodeId), E. unfold search, topNodes.
  rewrite length_map. apply firstn_le_length.
Qed.

Lemma sort_all_before {A} (before : A -> A -> bool) (l : list A) :
  (forall a b, In a l -> In b l -> before a b = true) -> sort before l = l.
Proof.
  induction l as [|x r IH]; intros H; simpl; [reflexivity|].
  rewrite IH; [|intros a b Ha Hb; apply H; right; assumption].
  destruct r as [|y r']; [reflexivity|]. simpl.
  rewrite (H x y); [reflexivity|left; reflexivity|right; left; reflexivity].
Qed.

(** X18: A query without a token of two characters or more, such as the empty
    query or a query of punctuation, matches every title with its empty
    phrase: every node scores 15, and the search lists the first
    [maxResults] nodes of the tree in pre-order. *)
Theorem query_without_tokens_lists_the_first_nodes
    (config : TreeSearchConfig) (tree : TreeIndex) (query : string) :
  tokenize query = [] ->
  search config tree query
  = firstn (maxResults config) (map nodeId (flattenTree (nodes tree))).
Proof.
  intros Hq. unfold search, topNodes. rewrite Hq.
  assert (Hs : forall n, scoreNode n [] = 0 + 15).
  { intros n. unfold scoreNode. simpl fold_left.
    replace (includes (toLowerCase (title n)) (join " " [])) with true;
      [reflexivity|].
    simpl join. destruct (toLowerCase (title n)); reflexivity. }
  set (scored := map (fun n => mkScored n (scoreNode n [])) (flattenTree (nodes tree))).
  assert (Hall : forall s, In s scored -> score s = 0 + 15).
  { intros s H. apply in_map_iff in H. destruct H as [n [<- _]]. apply Hs. }
  assert (Hf : filter (fun s => numLt 0 (score s)) scored = scored).
  { clear -Hall. induction scored as [|s r IH]; simpl; [reflexivity|].
    rewrite (Hall s (or_introl eq_refl)). simpl. f_equal.
    apply IH. intros x Hx. apply Hall. right. exact Hx. }
  rewrite Hf, sort_all_before.
  - rewrite <- firstn_map. f_equal. unfold scored. rewrite map_map. reflexivity.
  - intros a b Ha Hb. rewrite (Hall a Ha), (Hall b Hb). reflexivity.
Qed.

Lemma query_without_tokens_lists_the_first_nodes_witness :
  tokenize "?" = []
  /\ search DEFAULT_CONFIG Samples.twoSectionTree "?"
     = firstn (maxResults DEFAULT_CONFIG)
         (map nodeId (flattenTree (nodes Samples.twoSectionTree))).
Proof.
  split; [reflexivity|].
  exact (@query_without_tokens_lists_the_first_nodes DEFAULT_CONFIG
           Samples.twoSectionTree "?" eq_refl).
Defined.

End TreeRetrievalFacts.

(* ===================================================================== *)
(** * Facts about the cache of tree indexes *)
(* ===================================================================== *)

Module TreeCacheFacts.
Import Js JsFacts TreeGenerator TreeCache.

Lemma mapGet_mapSet {V} (key : string) (v : V) (m : JsMap V) :
  mapGet key (mapSet key v m) = Some v.
Proof.
  induction m as [|[k x] r IH]; simpl.
  - rewrite String.eqb_refl. reflexivity.
  - destruct (String.eqb_spec k key) as [->|Hne]; simpl.
    + rewrite String.eqb_refl. reflexivity.
    + destruct (String.eqb_spec k key); [contradiction|exact IH].
Qed.

Lemma mapGet_mapSet_other {V} (key other : string) (v : V) (m : JsMap V) :
  other <> key -> mapGet other (mapSet key v m) = mapGet other m.
Proof.
  intros Hne. induction m as [|[k x] r IH]; simpl.
  - destruct (String.eqb_spec key other); [congruence|reflexivity].
  - destruct (String.eqb_spec k key) as [->|Hk]; simpl.
    + destruct (String.eqb_spec key other); [congruence|reflexivity].
    + destruct (k =? other)%string; [reflexivity|exact IH].
Qed.

Lemma mapGet_mapDelete {V} (key : string) (m : JsMap V) :
  mapGet key (mapDelete key m) = None.
Proof.
  induction m as [|[k x] r IH]; simpl; [reflexivity|].
  destruct (String.eqb_spec k key) as [->|Hk]; simpl; [exact IH|].
  destruct (String.eqb_spec k key); [contradiction|exact IH].
Qed.

Lemma mapDelete_mapSet_other {V} (key other : string) (v : V) (m : JsMap V) :
  other <> key ->
  mapDelete other (mapSet key v m) = mapSet key v (mapDelete other m).
Proof.
  intros Hne. unfold mapDelete. induction m as [|[k x] r IH]; simpl.
  - destruct (String.eqb_spec key other); [congruence|reflexivity].
  - destruct (String.eqb_spec k key) as [->|Hk]; simpl.
    + destruct (String.eqb_spec key other); [congruence|]. simpl.
      rewrite String.eqb_refl. reflexivity.
    + destruct (String.eqb_spec k other); simpl; [exact IH|].
      destruct (String.eqb_spec k key); [contradiction|]. rewrite IH. reflexivity.
Qed.

(** X19: A tree stored under a key is what [get] returns for the key as long
    as no more than its time to live has passed, the cache's default when
    none was given; after that [get] returns nothing and drops the
    entry. *)
Theorem stored_tree_lives_for_its_ttl
    (c : TreeCache) (now later : Q) (key : string) (t : TreeIndex)
    (ttlMs : option Q) :
  let lifetime := match ttlMs with Some given => given | None => defaultTtl c end in
  let (found, c') := get (set c now key t ttlMs) later key in
  if numLe (later - now) lifetime
  then found = Some t /\ c' = set c now key t ttlMs
  else found = None /\ mapHas key (cache c') = false.
Proof.
  unfold get, set. cbn [cache defaultTtl]. rewrite mapGet_mapSet.
  unfold expired, ttlOr. cbn [ttl timestamp tree]. unfold numLt, numLe.
  destruct (Qle_bool (later - now) _); cbn [negb].
  - split; reflexivity.
  - split; [reflexivity|]. unfold mapHas. cbn [cache].
    rewrite mapGet_mapDelete. reflexivity.
Qed.

(** X20: Storing a tree under one key changes nothing that [get] returns for
    another key, and the two operations can be done in either order. *)
Theorem set_leaves_other_keys
    (c : TreeCache) (now later : Q) (key other : string) (t : TreeIndex)
    (ttlMs : option Q) :
  other <> key ->
  fst (get (set c now key t ttlMs) later other) = fst (get c later other)
  /\ snd (get (set c now key t ttlMs) later other)
     = set (snd (get c later other)) now key t ttlMs.
Proof.
  intros Hne. unfold get, set. cbn [cache defaultTtl].
  rewrite (mapGet_mapSet_other _ _ Hne).
  destruct (mapGet other (cache c)) as [entry|]; [|split; reflexivity].
  destruct (expired later entry); cbn [fst snd cache defaultTtl];
    [|split; reflexivity].
  split; [reflexivity|]. unfold ttlOr. cbn [defaultTtl].
  rewrite (mapDelete_mapSet_other _ _ Hne). reflexivity.
Qed.

Lemma set_leaves_other_keys_witness :
  "b"%string <> "a"%string
  /\ fst (get (set (create None) 0 "a" Samples.twoSectionTree None) 5 "b")
     = fst (get (create None) 5 "b")
  /\ snd (get (set (create None) 0 "a" Samples.twoSectionTree None) 5 "b")
     = set (snd (get (create None) 5 "b")) 0 "a" Samples.twoSectionTree None.
Proof.
  assert (H : "b"%string <> "a"%string) by discriminate.
  split; [exact H|].
  exact (@set_leaves_other_keys (create None) 0 5 "a" "b"
           Samples.twoSectionTree None H).
Defined.

(** ** The states the methods can reach keep one entry per key *)

Definition oneEntryPerKey (c : TreeCache) : Prop := NoDup (mapKeys (cache c)).

Lemma mapSet_keys {V} (key : string) (v : V) (m : JsMap V) :
  mapKeys (mapSet key v m)
  = if mapHas key m then mapKeys m else mapKeys m ++ [key].
Proof.
  unfold mapHas, mapKeys. induction m as [|[k x] r IH]; simpl; [reflexivity|].
  destruct (String.eqb_spec k key) as [->|Hk]; simpl; [reflexivity|].
  rewrite IH. destruct (mapGet key r); reflexivity.
Qed.

Lemma mapGet_In {V} (key : string) (m : JsMap V) :
  mapGet key m = None <-> ~ In key (mapKeys m).
Proof.
  unfold mapKeys. induction m as [|[k x] r IH]; simpl; [tauto|].
  destruct (String.eqb_spec k key) as [->|Hk].
  - split; [discriminate|]. intros H. exfalso. apply H. left. reflexivity.
  - rewrite IH. tauto.
Qed.

Lemma filter_keys_NoDup {V} (p : string * V -> bool) (m : JsMap V) :
  NoDup (mapKeys m) -> NoDup (mapKeys (filter p m)).
Proof.
  unfold mapKeys. induction m as [|e r IH]; simpl; [constructor|].
  intros H. inversion H as [|? ? Hx Hr]; subst.
  destruct (p e); simpl; [constructor|]; try (apply IH; exact Hr).
  intros Hin. apply Hx. apply in_map_iff in Hin.
  destruct Hin as [e' [E Hin]]. apply filter_In in Hin.
  apply in_map_iff. exists e'. split; [exact E|apply Hin].
Qed.

Lemma set_oneEntryPerKey (c : TreeCache) (now : Q) (key : string)
    (t : TreeIndex) (ttlMs : option Q) :
  oneEntryPerKey c -> oneEntryPerKey (set c now key t ttlMs).
Proof.
  unfold oneEntryPerKey, set. cbn [cache]. intros H.
  rewrite mapSet_keys. unfold mapHas.
  destruct (mapGet key (cache c)) eqn:E; [exact H|].
  apply mapGet_In in E.
  apply NoDup_app; [exact H|constructor; [intros []|constructor]|].
  intros x Hx [<-|[]]. exact (E Hx).
Qed.

Lemma get_oneEntryPerKey (c : TreeCache) (now : Q) (key : string) :
  oneEntryPerKey c -> oneEntryPerKey (snd (get c now key)).
Proof.
  unfold oneEntryPerKey, get. intros H.
  destruct (mapGet key (cache c)) as [entry|]; [|exact H].
  destruct (expired now entry); [|exact H].
  cbn [snd cache]. apply filter_keys_NoDup. exact H.
Qed.

Lemma mapGet_entry {V} (key : string) (m : JsMap V) (v : V) :
  NoDup (mapKeys m) -> (mapGet key m = Some v <-> In (key, v) m).
Proof.
  unfold mapKeys. induction m as [|[k x] r IH]; simpl; intros H.
  - split; [discriminate|intros []].
  - inversion H as [|? ? Hx Hr]; subst.
    destruct (String.eqb_spec k key) as [->|Hk].
    + split.
      * intros [= ->]. left. reflexivity.
      * intros [[= ->]|Hin]; [reflexivity|].
        exfalso. apply Hx. apply in_map_iff. exists (key, v). split; [reflexivity|exact Hin].
    + rewrite (IH Hr). split; [tauto|]. intros [[= E _]|Hin]; [contradiction|exact Hin].
Qed.

(** X21: [stats] reports the keys of the entries that have not expired, in the
    order in which the keys were first stored, and their number; in a
    cache with one entry per key, as every cache built by the methods is,
    these are the keys for which [get] returns a tree at that instant. *)
Theorem stats_lists_the_live_keys (c : TreeCache) (now : Q) :
  oneEntryPerKey c ->
  let (report, c') := stats c now in
  let (size, keys) := report in
  size = length keys
  /\ NoDup keys
  /\ oneEntryPerKey c'
  /\ forall key, In key keys <-> fst (get c now key) <> None.
Proof.
  intros Hwf. unfold stats, cleanup. cbn [cache].
  split; [unfold mapKeys; rewrite length_map; reflexivity|].
  split; [apply filter_keys_NoDup; exact Hwf|].
  split; [unfold oneEntryPerKey; cbn [cache]; apply filter_keys_NoDup; exact Hwf|].
  intros key. unfold get, mapKeys. rewrite in_map_iff. split.
  - intros [[k entry] [E Hin]]. simpl in E. subst k.
    apply filter_In in Hin. destruct Hin as [Hin Hlive]. simpl in Hlive.
    apply (mapGet_entry key (cache c) entry Hwf) in Hin. rewrite Hin.
    destruct (expired now entry); [discriminate|]. simpl. discriminate.
  - destruct (mapGet key (cache c)) as [entry|] eqn:E; [|simpl; congruence].
    destruct (expired now entry) eqn:Ex; [simpl; congruence|]. intros _.
    exists (key, entry). split; [reflexivity|].
    apply filter_In. split; [|simpl; rewrite Ex; reflexivity].
    apply (mapGet_entry key (cache c) entry Hwf). exact E.
Qed.

Lemma stats_lists_the_live_keys_witness :
  oneEntryPerKey
    (set (set (create None) 0 "a" Samples.twoSectionTree (Some 1)) 0 "b"
       Samples.twoSectionTree None)
  /\ (let (report, c') :=
        stats (set (set (create None) 0 "a" Samples.twoSectionTree (Some 1)) 0 "b"
                 Samples.twoSectionTree None) 5 in
      let (size, keys) := report in
      size = length keys
      /\ NoDup keys
      /\ oneEntryPerKey c'
      /\ forall key,
           In key keys
           <-> fst (get (set (set (create None) 0 "a" Samples.twoSectionTree (Some 1))
                           0 "b" Samples.twoSectionTree None) 5 key) <> None).
Proof.
  assert (H : oneEntryPerKey
    (set (set (create None) 0 "a" Samples.twoSectionTree (Some 1)) 0 "b"
       Samples.twoSectionTree None)).
  { apply set_oneEntryPerKey, set_oneEntryPerKey. constructor. }
  split; [exact H|].
  exact (@stats_lists_the_live_keys _ 5 H).
Defined.

End TreeCacheFacts.

(* ===================================================================== *)
(** * Facts about the entry point *)
(* ===================================================================== *)

Module GraphOfThoughtFacts.
Import Js JsFacts GraphTypes GraphOfThought.

Lemma generateTree_roots (config : TreeGenerator.TreeGeneratorConfig)
    (genId : nat -> string) (content title : string) (description : option string) :
  (length (TreeGenerator.nodes
             (TreeGenerator.generateTree config genId content title description))
   <= 1)%nat.
Proof.
  unfold TreeGenerator.generateTree.
  destruct (TreeGenerator.identifySections config genId
              (TreeGenerator.splitIntoParagraphs content)) as [secs drawn].
  cbn [TreeGenerator.nodes]. unfold TreeGenerator.buildNodes.
  destruct secs; simpl; lia.
Qed.

(** X22: In tree mode the graph holds a root of its own and the top level of
    the tree, and the tree generator puts everything under one root; so
    the graph of any document has at most two nodes, joined by one edge,
    and none of the sections below the root of the tree is a node of the
    graph. *)
Theorem tree_mode_keeps_the_top_level_only
    (config : GoTConfig) (genId treeGenId : nat -> string) (rootId : string)
    (content title : string) (description : option string) :
  let tree := TreeGenerator.generateTree TreeGenerator.DEFAULT_CONFIG treeGenId
                content title description in
  let g := index config genId treeGenId rootId content title description
             (Some tree_mode) in
  map nodeId (nodes g) = rootId :: map TreeGenerator.nodeId (TreeGenerator.nodes tree)
  /\ (nodeCount g <= 2)%nat
  /\ edgeCount g = (nodeCount g - 1)%nat
  /\ Forall (fun e => from e = rootId /\ weight e = 0.8
                      /\ edgeType e = parent_child) (edges g).
Proof.
  cbv zeta. unfold index, convertTreeToGraph.
  cbn [nodes nodeCount edgeCount edges nodeId skipn map length].
  pose proof (generateTree_roots TreeGenerator.DEFAULT_CONFIG treeGenId
                content title description) as Hlen.
  set (tree := TreeGenerator.generateTree _ _ _ _ _) in *.
  rewrite map_map, !length_map. cbn [nodeId sectionOfTreeNode].
  split; [reflexivity|]. split; [lia|]. split; [lia|].
  rewrite Forall_map. rewrite Forall_forall. intros n _. repeat split.
Qed.

(** X23: Without a forced mode [index] decides by [fallbackToTree] alone, as
    the document statistics are not awaited: with the option on, as it is
    by default, every document is indexed in tree mode, so its graph has
    at most two nodes. *)
Theorem auto_mode_falls_back_to_the_tree
    (config : GoTConfig) (threshold : option Q) (genId treeGenId : nat -> string)
    (rootId : string) (content title : string) (description : option string) :
  hybridMode config = Some (mkHybridMode threshold (Some true)) ->
  let g := index config genId treeGenId rootId content title description None in
  g = index config genId treeGenId rootId content title description (Some tree_mode)
  /\ (length (nodes g) <= 2)%nat.
Proof.
  intros Hh. cbv zeta. unfold index at 1 3, selectIndexingMode. rewrite Hh.
  cbn [fallbackToTree autoSwitchThreshold]. cbv iota.
  split; [reflexivity|].
  unfold convertTreeToGraph. cbn [nodes length]. rewrite length_map.
  pose proof (generateTree_roots TreeGenerator.DEFAULT_CONFIG treeGenId
                content title description). lia.
Qed.

Lemma auto_mode_falls_back_to_the_tree_witness :
  hybridMode DEFAULT_CONFIG = Some (mkHybridMode (Some 0.2) (Some true))
  /\ index DEFAULT_CONFIG Samples.sampleId Samples.sampleId "root_0"
       Samples.twoSections "Doc" None None
     = index DEFAULT_CONFIG Samples.sampleId Samples.sampleId "root_0"
         Samples.twoSections "Doc" None (Some tree_mode)
  /\ (length (nodes (index DEFAULT_CONFIG Samples.sampleId Samples.sampleId "root_0"
                       Samples.twoSections "Doc" None None)) <= 2)%nat.
Proof.
  split; [reflexivity|].
  exact (@auto_mode_falls_back_to_the_tree DEFAULT_CONFIG (Some 0.2)
           Samples.sampleId Samples.sampleId "root_0" Samples.twoSections "Doc"
           None eq_refl).
Defined.

(** ** The density of an indexed graph *)

Lemma count_nonneg (n : nat) : 0 <= inject_Z (Z.of_nat n).
Proof. change 0 with (inject_Z 0). rewrite <- Zle_Qle. lia. Qed.

Lemma density_range (n e : nat) :
  (2 * e <= n * (n - 1))%nat ->
  0 <= (if numLt 0 (inject_Z (Z.of_nat n) * (inject_Z (Z.of_nat n) - 1) / 2)
        then inject_Z (Z.of_nat e)
             / (inject_Z (Z.of_nat n) * (inject_Z (Z.of_nat n) - 1) / 2)
        else 0) <= 1.
Proof.
  intros Hcount.
  pose proof (count_nonneg e) as He.
  assert (Hq : 2 * inject_Z (Z.of_nat e)
               <= inject_Z (Z.of_nat n) * (inject_Z (Z.of_nat n) - 1)).
  { assert (Hz : (2 * Z.of_nat e + Z.of_nat n <= Z.of_nat n * Z.of_nat n)%Z) by nia.
    rewrite Zle_Qle in Hz. rewrite inject_Z_plus, !inject_Z_mult in Hz.
    change (inject_Z 2) with 2 in Hz. nra. }
  destruct (numLt 0 _) eqn:E; [|split; [apply Qle_refl|discriminate]].
  apply numLt_spec in E. split.
  - apply Qle_shift_div_l; [exact E|]. rewrite Qmult_0_l. exact He.
  - apply Qle_shift_div_r; [exact E|]. rewrite Qmult_1_l.
    apply Qle_shift_div_l; [reflexivity|]. lra.
Qed.

Lemma degree_nonneg (n e : nat) :
  0 <= (if (0 <? n)%nat
        then (2 * inject_Z (Z.of_nat e)) / inject_Z (Z.of_nat n)
        else 0).
Proof.
  destruct (0 <? n)%nat eqn:E; [|apply Qle_refl].
  apply Nat.ltb_lt in E. pose proof (count_nonneg e).
  apply Qle_shift_div_l.
  - change 0 with (inject_Z 0). rewrite <- Zlt_Qlt. lia.
  - lra.
Qed.

Section Density.
Import GraphIndexer.
Variable config : GraphIndexerConfig.
Variable genId : nat -> string.

Lemma parentChildEdges_count (parent : GraphNode) (others : list GraphNode) :
  (length (parentChildEdges parent others) <= length others)%nat.
Proof.
  unfold parentChildEdges. apply SearchFacts.flat_map_length_le.
  intros child. destruct (NodeType_eqb _ _); simpl; lia.
Qed.

Lemma semanticEdges_count (others : list GraphNode) :
  (2 * length (semanticEdges config others)
   <= length others * (length others - 1))%nat.
Proof.
  induction others as [|a rest IH]; simpl; [lia|].
  rewrite length_app.
  assert (H : (length (flat_map
                 (fun b =>
                    if numLt (minEdgeWeight config) (calculateSemanticSimilarity a b)
                    then [mkGraphEdge (nodeId a) (nodeId b)
                            (calculateSemanticSimilarity a b) semantic]
                    else []) rest) <= length rest)%nat).
  { apply SearchFacts.flat_map_length_le. intros b. destruct (numLt _ _); simpl; lia. }
  rewrite Nat.sub_0_r. nia.
Qed.

(** A graph index never has more edges than its nodes have pairs. *)
Lemma index_edge_count (content title : string) (description : option string) :
  let g := index config genId content title description in
  (2 * length (edges g) <= length (nodes g) * (length (nodes g) - 1))%nat.
Proof.
  cbv zeta.
  pose proof (GraphIndexFacts.index_ids config genId content title description) as Hids.
  apply (f_equal (@length string)) in Hids. rewrite !length_map in Hids.
  rewrite Hids. unfold index. cbn [edges].
  unfold identifyRelationships, createGraphNodes.
  set (others := sectionNodes genId _ 0 1).
  destruct (enableCrossReferences config); simpl negb; cbv iota;
    [|simpl; lia].
  set (root := mkGraphNode (genId 0) _ _ _ _ _ _ _).
  rewrite length_app.
  pose proof (parentChildEdges_count root others).
  pose proof (semanticEdges_count others).
  cbn [length]. rewrite Nat.sub_succ, Nat.sub_0_r. nia.
Qed.

(** X24: The density [getIndexStats] reports for a graph index lies between 0
    and 1: the indexer links the root to every section once and every
    pair of sections at most once. *)
Theorem indexed_graph_density_in_range
    (content title : string) (description : option string) :
  let stats := getIndexStats (index config genId content title description) in
  0 <= density stats <= 1
  /\ 0 <= averageDegree stats
  /\ stat_nodeCount stats
     = nodeCount (index config genId content title description).
Proof.
  cbv zeta.
  pose proof (index_edge_count content title description) as Hcount.
  cbv zeta in Hcount. unfold getIndexStats.
  cbn [density averageDegree stat_nodeCount].
  split; [apply density_range; exact Hcount|].
  split; [apply degree_nonneg|].
  unfold index. cbn [nodeCount nodes]. reflexivity.
Qed.

End Density.

End GraphOfThoughtFacts.

(* ===================================================================== *)
(** * Facts about path scores, similarities and keywords *)
(* ===================================================================== *)

Module ScoreFacts.
Import Js JsFacts GraphTypes Search SearchFacts ParagraphFacts SegmenterFacts.

(** X25: The selective search guards three divisions with [Math.max(..., 1)];
    no guard ever acts: it scores every path, and the similarity of every
    pair of nodes, as the plain search and the indexer do. *)
Theorem guarded_formulas_agree (graph : GraphIndex) (path : list string)
    (node1 node2 : GraphNode) :
  OptimizedBMSSP.calculatePathScore path graph = BMSSP.calculatePathScore path graph
  /\ OptimizedBMSSP.calculateSemanticSimilarity node1 node2
     = GraphIndexer.calculateSemanticSimilarity node1 node2.
Proof.
  split.
  - unfold OptimizedBMSSP.calculatePathScore, BMSSP.calculatePathScore.
    destruct (length path <? 2)%nat eqn:E; [reflexivity|].
    apply Nat.ltb_ge in E. cbv zeta. unfold nodeScores. rewrite length_map.
    rewrite !Nat.max_l by lia. reflexivity.
  - unfold OptimizedBMSSP.calculateSemanticSimilarity,
      GraphIndexer.calculateSemanticSimilarity.
    destruct (keywordsOf node1) as [|k ks] eqn:E1; [reflexivity|].
    destruct (keywordsOf node2) as [|k' ks'] eqn:E2; [reflexivity|].
    cbv zeta. simpl orb. cbv iota.
    rewrite Nat.max_l; [reflexivity|].
    unfold distinct. simpl. lia.
Qed.

(** ** The range of the path score *)

Lemma sumQ_nonneg (l : list Q) : Forall (fun x => 0 <= x) l -> 0 <= sumQ l.
Proof.
  unfold sumQ. intros H.
  assert (Hgen : forall acc, 0 <= acc -> 0 <= fold_left Qplus l acc).
  { induction H as [|x r Hx _ IH]; intros acc Hacc; simpl; [exact Hacc|].
    apply IH. lra. }
  apply Hgen. apply Qle_refl.
Qed.

Lemma ratio_of_nonneg (x : Q) (n : nat) : 0 <= x -> 0 <= x / inject_Z (Z.of_nat n).
Proof.
  intros Hx. unfold Qdiv. apply Qmult_le_0_compat; [exact Hx|].
  apply Qinv_le_0_compat. change 0 with (inject_Z 0). rewrite <- Zle_Qle. lia.
Qed.

Section Range.
Variable graph : GraphIndex.
Hypothesis weights_nonneg : Forall (fun e => 0 <= weight e) (edges graph).
Hypothesis centralities_nonneg :
  Forall (fun n => 0 <= centralityOrDefault n) (nodes graph).

Lemma edgeWeightSum_nonneg (path : list string) : 0 <= edgeWeightSum graph path.
Proof.
  induction path as [|a [|b rest] IH]; try apply Qle_refl.
  change (0 <= match findEdge graph a b with
               | Some e => weight e
               | None => 0
               end + edgeWeightSum graph (b :: rest)).
  assert (H : 0 <= match findEdge graph a b with
                   | Some e => weight e
                   | None => 0
                   end).
  { unfold findEdge. destruct (find _ (edges graph)) as [e|] eqn:E; [|apply Qle_refl].
    apply find_some in E. rewrite Forall_forall in weights_nonneg.
    apply weights_nonneg, E. }
  lra.
Qed.

Lemma nodeScores_nonneg (path : list string) :
  Forall (fun x => 0 <= x) (nodeScores graph path).
Proof.
  unfold nodeScores. rewrite Forall_map. rewrite Forall_forall. intros id _.
  unfold findNode. destruct (find _ (nodes graph)) as [n|] eqn:E; [|apply Qle_refl].
  apply find_some in E. rewrite Forall_forall in centralities_nonneg.
  apply centralities_nonneg, E.
Qed.

Lemma calculatePathScore_range (path : list string) :
  0 <= BMSSP.calculatePathScore path graph <= 1.
Proof.
  unfold BMSSP.calculatePathScore.
  destruct (length path <? 2)%nat; [split; [apply Qle_refl|discriminate]|].
  cbv zeta. split; [|apply Q.le_min_r].
  apply Q.min_glb; [|discriminate].
  pose proof (ratio_of_nonneg (length path - 1) (edgeWeightSum_nonneg path)).
  pose proof (ratio_of_nonneg (length (nodeScores graph path))
                (sumQ_nonneg (nodeScores_nonneg path))).
  lra.
Qed.

End Range.

Section Scored.
Import BMSSP.
Variable graph : GraphIndex.
Variable maxDepth : Q.
Variable maxResults : nat.
Variable minEdgeWeight : Q.

(** Every result carries the score and the reasoning of its own path. *)
Definition scored (r : PathResult) : Prop :=
  pathScore r = calculatePathScore (nodeIds r) graph
  /\ reasoning r = generatePathReasoning (nodeIds r) graph.

Lemma plain_step_scored (st : SearchState) :
  Forall scored (results st) ->
  Forall scored (results (step graph maxDepth minEdgeWeight st)).
Proof.
  intros H. unfold step.
  destruct (sort byDistance (queue st)) as [|current rest]; [exact H|].
  destruct (numLt maxDepth (distance current)); [exact H|].
  destruct (mem _ (visitedPaths st)); [exact H|].
  cbn [results]. destruct (1 <? length (path current))%nat; [|exact H].
  apply Forall_app. split; [exact H|].
  constructor; [split; reflexivity|constructor].
Qed.

Lemma plain_finalState_scored (sourceNodeIds : list string) :
  Forall scored
    (results (finalState graph sourceNodeIds maxDepth maxResults minEdgeWeight)).
Proof.
  unfold finalState. rewrite whileWithin_stateAfter.
  apply (stateAfter_invariant (continues maxResults)
           (step graph maxDepth minEdgeWeight)
           (fun st => Forall scored (results st))).
  - intros st Hst _. apply plain_step_scored. exact Hst.
  - constructor.
Qed.

End Scored.

(** X26: In a graph without a negative edge weight or centrality, every path
    the plain search returns carries the score of its own node ids, a
    number from 0 to 1, and the reasoning text of its own node ids. *)
Theorem returned_path_scores_in_range (graph : GraphIndex)
    (sourceNodeIds : list string) (options : BMSSPOptions) :
  Forall (fun e => 0 <= weight e) (edges graph) ->
  Forall (fun n => 0 <= centralityOrDefault n) (nodes graph) ->
  Forall (fun r =>
            pathScore r = BMSSP.calculatePathScore (nodeIds r) graph
            /\ reasoning r = generatePathReasoning (nodeIds r) graph
            /\ 0 <= pathScore r <= 1)
    (BMSSP.findBoundedPaths graph sourceNodeIds options).
Proof.
  intros Hw Hc. unfold BMSSP.findBoundedPaths, rankResults.
  apply Forall_firstn.
  eapply Permutation_Forall; [apply sort_perm|].
  eapply Forall_impl; [|apply plain_finalState_scored].
  intros r [Hs Hr]. split; [exact Hs|]. split; [exact Hr|].
  rewrite Hs. apply calculatePathScore_range; assumption.
Qed.

Lemma returned_path_scores_in_range_witness :
  Forall (fun e => 0 <= weight e) (edges Samples.chainGraph)
  /\ Forall (fun n => 0 <= centralityOrDefault n) (nodes Samples.chainGraph)
  /\ Forall (fun r =>
            pathScore r = BMSSP.calculatePathScore (nodeIds r) Samples.chainGraph
            /\ reasoning r = generatePathReasoning (nodeIds r) Samples.chainGraph
            /\ 0 <= pathScore r <= 1)
       (BMSSP.findBoundedPaths Samples.chainGraph ["hub"%string]
          (mkOptions None None None)).
Proof.
  assert (Hw : Forall (fun e => 0 <= weight e) (edges Samples.chainGraph))
    by (repeat constructor; discriminate).
  assert (Hc : Forall (fun n => 0 <= centralityOrDefault n) (nodes Samples.chainGraph))
    by (repeat constructor; discriminate).
  split; [exact Hw|]. split; [exact Hc|].
  exact (@returned_path_scores_in_range Samples.chainGraph ["hub"%string]
           (mkOptions None None None) Hw Hc).
Defined.

(** ** Keywords and tokens *)

(** A lower-case letter, a digit or an underscore. *)
Definition isKeywordChar (c : ascii) : bool :=
  isDigit c || isLower c || (code c =? 95)%nat.

Definition normalised (c : ascii) : ascii :=
  if isWord (lowerChar c) || isSpace (lowerChar c) then lowerChar c else " "%char.

Lemma normalised_char (c : ascii) :
  isSpace (normalised c) || isKeywordChar (normalised c) = true.
Proof.
  destruct c as [[] [] [] [] [] [] [] []]; reflexivity.
Qed.

Lemma normalised_chars (text : string) :
  Forall (fun c => isSpace c || isKeywordChar c = true)
         (chars (blankPunctuation (toLowerCase text))).
Proof.
  unfold blankPunctuation, toLowerCase. rewrite !chars_str, map_map.
  rewrite Forall_map. rewrite Forall_forall. intros c _.
  apply normalised_char.
Qed.

Lemma splitWsFrom_words (cur : list ascii) (inSep : bool) (l : list ascii) :
  Forall (fun c => isKeywordChar c = true) cur ->
  Forall (fun c => isSpace c || isKeywordChar c = true) l ->
  Forall (fun w => Forall (fun c => isKeywordChar c = true) (chars w))
         (splitWsFrom cur inSep l).
Proof.
  intros Hcur Hl. revert cur inSep Hcur.
  induction Hl as [|c r Hc _ IH]; intros cur inSep Hcur; simpl.
  - constructor; [|constructor]. rewrite chars_str. apply Forall_rev. exact Hcur.
  - destruct (isSpace c) eqn:Es.
    + destruct inSep; [apply IH; exact Hcur|].
      constructor; [rewrite chars_str; apply Forall_rev; exact Hcur|].
      apply IH. constructor.
    + apply IH. constructor; [exact Hc|exact Hcur].
Qed.

Lemma words_of (text : string) :
  Forall (fun w => Forall (fun c => isKeywordChar c = true) (chars w))
         (splitWs (blankPunctuation (toLowerCase text))).
Proof.
  unfold splitWs. apply splitWsFrom_words; [constructor|apply normalised_chars].
Qed.

(** X27: The keywords of a paragraph are at most ten words of four characters
    or more, the tokens of the keyword scorer are words of two characters
    or more, and both are made of lower-case letters, digits and
    underscores only. *)
Theorem keywords_are_lower_case_words (text : string) :
  (length (GraphIndexer.extractKeywords text) <= 10)%nat
  /\ Forall (fun w => (4 <= String.length w)%nat
                      /\ Forall (fun c => isKeywordChar c = true) (chars w))
            (GraphIndexer.extractKeywords text)
  /\ Forall (fun w => (2 <= String.length w)%nat
                      /\ Forall (fun c => isKeywordChar c = true) (chars w))
            (SimpleSearch.tokenize text).
Proof.
  unfold GraphIndexer.extractKeywords, SimpleSearch.tokenize.
  pose proof (words_of text) as Hw. rewrite Forall_forall in Hw.
  split; [apply firstn_le_length|]. split.
  - apply Forall_firstn. rewrite Forall_forall. intros w H.
    apply filter_In in H. destruct H as [Hin Hlen].
    apply Nat.ltb_lt in Hlen. split; [lia|apply Hw; exact Hin].
  - rewrite Forall_forall. intros w H.
    apply filter_In in H. destruct H as [Hin Hlen].
    apply Nat.ltb_lt in Hlen. split; [lia|apply Hw; exact Hin].
Qed.

End ScoreFacts.

(* ===================================================================== *)
(** * Facts about the neighbours the selective search follows *)
(* ===================================================================== *)

Module NeighbourFacts.
Import Js JsFacts GraphTypes Search SearchFacts WalkFacts OptimizedBMSSP.

(** X28: The neighbours the selective search considers for an entry come
    heaviest edge first; each is an unvisited end of an edge at the
    entry's node, and the edge weighs at least [minWeight] and at least
    0.7 less four tenths of the entry's activation score. *)
Theorem selective_neighbours_are_ranked (id : string) (graph : GraphIndex)
    (visited : list string) (minWeight parentActivationScore : Q) :
  let neighbours :=
    getValidNeighborsWithSelectiveActivation id graph visited minWeight
      parentActivationScore in
  StronglySorted (fun a b => nb_weight b <= nb_weight a) neighbours
  /\ Forall (fun nb =>
               minWeight <= nb_weight nb
               /\ 0.7 - parentActivationScore * 0.4 <= nb_weight nb
               /\ ~ In (nb_nodeId nb) visited
               /\ exists e, In e (edges graph) /\ weight e = nb_weight nb
                            /\ joins e id (nb_nodeId nb))
            neighbours.
Proof.
  cbv zeta. split.
  - unfold getValidNeighborsWithSelectiveActivation. apply sort_sorted.
    + intros a b H. apply numLe_spec. exact H.
    + intros a b H. apply numLe_false in H. apply Qlt_le_weak. exact H.
    + intros a b c Hab Hbc. eapply Qle_trans; eassumption.
  - rewrite Forall_forall. intros nb Hnb.
    apply selective_neighbors_reachable in Hnb.
    destruct Hnb as [[e [He [Hfloor [Hj [Hw Hv]]]]] Ht].
    split; [eapply Qle_trans; [apply Q.le_max_l|exact Ht]|].
    split; [eapply Qle_trans; [apply Q.le_max_r|exact Ht]|].
    split; [exact Hv|].
    exists e. repeat split; [exact He|symmetry; exact Hw|exact Hj].
Qed.

End NeighbourFacts.

(* ===================================================================== *)
(** * Facts about the root and the depth of a generated tree *)
(* ===================================================================== *)

Module GeneratedTreeFacts.
Import Js JsFacts TreeGenerator TreeTools TreeShapeFacts SegmenterFacts.

Lemma takeWhile_all {A} (p : A -> bool) (l : list A) :
  Forall (fun x => p x = true) (takeWhile p l).
Proof.
  induction l as [|x r IH]; simpl; [constructor|].
  destruct (p x) eqn:E; constructor; assumption.
Qed.

Lemma Forall_takeWhile {A} (P : A -> Prop) (p : A -> bool) (l : list A) :
  Forall P l -> Forall P (takeWhile p l).
Proof.
  rewrite !Forall_forall. intros H x Hx. apply H.
  eapply ParagraphFacts.takeWhile_incl. exact Hx.
Qed.

Lemma Forall_dropWhile {A} (P : A -> Prop) (p : A -> bool) (l : list A) :
  Forall P l -> Forall P (dropWhile p l).
Proof.
  rewrite !Forall_forall. intros H x Hx. apply H.
  eapply ParagraphFacts.dropWhile_incl. exact Hx.
Qed.

(** Sections with levels from [lo] to 4 give nodes of at most [5 - lo]
    levels: a child section lies at least one level below its parent. *)
Lemma buildHierarchy_levels (l : list DocumentNode) (minLevel : Z) :
  forall lo : Z, (1 <= lo)%Z ->
  Forall (fun s => (lo <= sec_level s <= 4)%Z) l ->
  Forall (fun n => (levels n <= Z.to_nat (5 - lo))%nat) (buildHierarchy l minLevel).
Proof.
  funelim (buildHierarchy l minLevel); intros lo Hlo Hall; [constructor|].
  inversion Hall as [|? ? Hcur Hrest]; subst.
  assert (Eeff : effectiveLevel cur minLevel = sec_level cur).
  { unfold effectiveLevel. destruct (Z.eqb_spec (sec_level cur) 0); [lia|reflexivity]. }
  constructor.
  - cbn [levels children nodeOfSection].
    assert (Hkids : Forall (fun n => (levels n <= Z.to_nat (5 - (sec_level cur + 1)))%nat)
                      (buildHierarchy
                         (takeWhile (deeperThan (effectiveLevel cur minLevel)) rest)
                         (minLevel + 1))).
    { apply H; [lia|].
      pose proof (takeWhile_all (deeperThan (effectiveLevel cur minLevel)) rest) as Hd.
      pose proof (Forall_takeWhile (deeperThan (effectiveLevel cur minLevel)) Hrest) as Hr.
      rewrite Forall_forall in *. intros s Hs.
      specialize (Hd s Hs). specialize (Hr s Hs).
      unfold deeperThan in Hd. rewrite Eeff in Hd. apply Z.ltb_lt in Hd. lia. }
    assert (Hmax : (list_max (map levels
                      (buildHierarchy
                         (takeWhile (deeperThan (effectiveLevel cur minLevel)) rest)
                         (minLevel + 1)))
                    <= Z.to_nat (5 - (sec_level cur + 1)))%nat).
    { apply list_max_le. rewrite Forall_map. exact Hkids. }
    lia.
  - apply H0; [exact Hlo|]. apply Forall_dropWhile. exact Hrest.
Qed.

Section Generator.
Variable config : TreeGeneratorConfig.
Variable genId : nat -> string.

(** X29: A generated tree is at most five levels deep, whatever the document:
    the root, and below it sections of levels 1 to 4. *)
Theorem generated_tree_is_at_most_five_deep
    (content title : string) (description : option string) :
  (1 <= getMaxDepth (nodes (generateTree config genId content title description))
     <= 5)%nat.
Proof.
  unfold getMaxDepth. rewrite depthTraverse_levels;
    [|rewrite Forall_forall; intros n _; apply depthVisit_reaches].
  split; [lia|].
  unfold generateTree.
  pose proof (identifySections_levelled config genId (splitIntoParagraphs content))
    as Hlev.
  destruct (identifySections config genId (splitIntoParagraphs content))
    as [secs drawn].
  cbn [nodes fst] in *. unfold buildNodes.
  destruct secs as [|s0 secs']; [simpl; lia|].
  assert (Hone : (1 <= 1)%Z) by lia.
  pose proof (@buildHierarchy_levels (s0 :: secs') 0 1 Hone Hlev) as Hkids.
  assert (Hmax : (list_max (map levels (buildHierarchy (s0 :: secs') 0)) <= 4)%nat).
  { apply list_max_le. rewrite Forall_map. exact Hkids. }
  set (kids := buildHierarchy (s0 :: secs') 0) in *.
  change (Nat.max (Nat.max 0 1) (1 + Nat.max (S (list_max (map levels kids))) 0 - 1)
          <= 5)%nat.
  lia.
Qed.

(** X30: The root of a generated tree holds the whole document: its text is
    the paragraphs of the document joined by blank lines, its summary is
    the summary of these paragraphs, and its title is the title given; a
    document without a paragraph gives a tree without a node. *)
Theorem generated_root_holds_the_document
    (content title : string) (description : option string) :
  let tree := generateTree config genId content title description in
  match splitIntoParagraphs content with
  | [] => nodes tree = []
  | paragraphs =>
      exists root,
        nodes tree = [root]
        /\ TreeGenerator.title root = title
        /\ text root = Some (join blankLine paragraphs)
        /\ summary root = generateSummary config paragraphs
        /\ startIndex root = 0%Z
  end.
Proof.
  cbv zeta. unfold generateTree.
  assert (Hkeep : flat_map sec_content
                    (fst (identifySections config genId (splitIntoParagraphs content)))
                  = splitIntoParagraphs content).
  { unfold identifySections. simpl fst.
    rewrite finishSections_consumed, identifyLoop_consumed. reflexivity. }
  destruct (splitIntoParagraphs content) as [|p ps]; [reflexivity|].
  destruct (identifySections config genId (p :: ps)) as [secs drawn].
  cbn [nodes fst] in *. unfold buildNodes.
  destruct secs as [|s0 secs']; [discriminate Hkeep|].
  eexists. split; [reflexivity|].
  cbn [TreeGenerator.title text summary startIndex].
  rewrite Hkeep. repeat split.
Qed.

End Generator.

End GeneratedTreeFacts.
